(** * spasm: a keyboard-driven spring mesh, its nearest-site partition and
    the sprite swarm that rides on it

    The repository holds four p5.js sketches that share one simulation core:
    - the mesh sketch (mesh grid, muscle nodes on a QWERTY layout, the
      Voronoi classification pass, the key handlers);
    - [sperm.js] (the same mesh with stiffness 0.04, sprites anchored to
      mesh points, the periodic image shuffle);
    - [sperm2.js] (sprites scattered by rejection sampling, the same
      shuffle);
    - the drifting sketch (sprites set on the mesh points of the mesh
      sketch, pulled to them and pushed about by Perlin noise).

    JavaScript numbers are modelled as real numbers: every arithmetic
    operation of the sketches is the exact one, so the statements below are
    about the idealised dynamics, without rounding.  Calls of [random] read
    the next value of an explicit tape of draws in [0, 1); clock readings of
    [millis] are explicit arguments; [noise] is a function the drifting
    sketch is given.  Strings are JavaScript strings of characters below
    U+0100, one byte for each.  An uncaught [TypeError] (a property
    read or written on [undefined]) is an explicit outcome that keeps the
    state reached so far; where that state plays no role, the block returns
    [None]. *)

From Stdlib Require Import Reals Lra Lia ZArith Ascii String.
From stdpp Require Import base option list gmap strings.

#[global] Instance Rlt_decision (a b : R) : Decision (a < b)%R := Rlt_dec a b.

(** ** The p5.js functions the sketches call *)

Module P5.
Local Open Scope R_scope.

(** [map(n, start1, stop1, start2, stop2)]: linear re-mapping. *)
Definition map (n start1 stop1 start2 stop2 : R) : R :=
  (n - start1) / (stop1 - start1) * (stop2 - start2) + start2.

(** [dist(x1, y1, x2, y2)]: Euclidean distance. *)
Definition dist (x1 y1 x2 y2 : R) : R :=
  sqrt ((x2 - x1) * (x2 - x1) + (y2 - y1) * (y2 - y1)).

(** [random(max)] and [random(min, max)], on the draw [u] of the
    underlying generator, [0 <= u < 1].  With two arguments p5.js swaps the
    bounds when [min > max]. *)
Definition random1 (u max : R) : R := u * max.
Definition random2 (u min max : R) : R :=
  if decide (min > max) then u * (min - max) + max else u * (max - min) + min.

Definition floor (r : R) : Z := Zfloor r.

Definition TWO_PI : R := 2 * PI.
End P5.

(** The generator behind [random]: the [n]-th call returns [rnd n]. *)
Definition tape := nat → R.

Definition fair (rnd : tape) : Prop := ∀ n, (0 <= rnd n < 1)%R.

(** What running a block of statements ends in. *)
Inductive outcome := Returned | Threw.

(** ** Data *)

(** A mesh point: [{x, y, vx, vy, rest_x, rest_y}]. *)
Module Point.
Record t := mk { x : R; y : R; vx : R; vy : R; rest_x : R; rest_y : R }.
End Point.

(** A muscle node: [{x, y, force}]. *)
Module Node.
Record t := mk { x : R; y : R; force : R }.
End Node.

(** A loaded image is identified by its position in [assets]. *)
Definition image := nat.

(** A sperm cell.  [sperm.js] cells carry [meshIdx: {x, y}]; the cells of
    [sperm2.js] have no such field. *)
Module Cell.
Record t := mk {
  x : R; y : R; vx : R; vy : R;
  img : option image;
  meshIdx : option (nat * nat);
  scale : R; angle : R; angleSpeed : R
}.

Definition set_img (i : option image) (c : t) : t :=
  mk (x c) (y c) (vx c) (vy c) i (meshIdx c) (scale c) (angle c) (angleSpeed c).

(** Everything of a cell but its image. *)
Definition motion (c : t) : R * R * R * R * option (nat * nat) * R * R * R :=
  (x c, y c, vx c, vy c, meshIdx c, scale c, angle c, angleSpeed c).
End Cell.

Abbreviation mesh_t := (list (list Point.t)).

(** [mesh[y][x]] *)
Definition at2 (mesh : mesh_t) (y x : nat) : option Point.t :=
  mesh !! y ≫= λ row, row !! x.

(** ** setup: mesh grid and muscle nodes *)

Definition cols : nat := 20.
Definition rows_ : nat := 14.

Definition keyboardRows : list string :=
  ["qwertyuiop"; "asdfghjkl"; "zxcvbnm"]%string.

(** The globals [nodes] and [keyToNode]. *)
Record layout := Layout { nodes : list Node.t; keyToNode : gmap string nat }.

(** A loop over a list with its running index. *)
Definition foldl_i {A B} (f : A → nat → B → A) (a : A) (l : list B) : A :=
  foldl (λ a ib, f a ib.1 ib.2) a (imap pair l).

Section Setup.
Local Open Scope R_scope.
(** The bounds the grid and the nodes are mapped onto: -400, 400, -250,
    250 in the mesh sketch; the window inset by the margins in the sperm
    sketches. *)
Variables left right top bottom : R.

Definition mesh_point (y x : nat) : Point.t :=
  let px := P5.map (INR x) 0 (INR cols - 1) left right in
  let py := P5.map (INR y) 0 (INR rows_ - 1) top bottom in
  Point.mk px py 0 0 px py.

Definition setup_mesh : mesh_t :=
  (λ y, mesh_point y <$> seq 0 cols) <$> seq 0 rows_.

(** Body of the inner loop: push the node of [keys[col]] and record its
    index. *)
Definition add_key (y : R) (len : nat) (st : layout) (col : nat) (key : ascii)
  : layout :=
  let x := P5.map (INR col) 0 (INR len - 1) left right in
  let nodes' := nodes st ++ [Node.mk x y 0] in
  Layout nodes' (<[String key EmptyString := (length nodes' - 1)%nat]> (keyToNode st)).

Definition add_row (totalRows : nat) (st : layout) (row : nat) (keys : string)
  : layout :=
  let y := P5.map (INR row) 0 (INR totalRows - 1) top bottom in
  foldl_i (add_key y (String.length keys)) st (list_ascii_of_string keys).

Definition setup_nodes : layout :=
  foldl_i (add_row (length keyboardRows)) (Layout [] ∅) keyboardRows.
End Setup.

(** The mesh sketch's fixed bounds. *)
Definition mesh_sketch_mesh : mesh_t := setup_mesh (-400) 400 (-250) 250.
Definition mesh_sketch_layout : layout := setup_nodes (-400) 400 (-250) 250.

(** ** draw: the mesh physics pass *)

Section Physics.
Local Open Scope R_scope.
(** Spring stiffness: 0.08 in the mesh sketch, 0.04 in the sperm sketches. *)
Variable k_rest : R.
Variable nodes : list Node.t.

(** Body of [for (let node of nodes)]: the force accumulated so far plus
    this node's pull. *)
Definition pull (p : Point.t) (f : R * R) (node : Node.t) : R * R :=
  let d := P5.dist (Point.x p) (Point.y p) (Node.x node) (Node.y node) in
  if decide (Node.force node > 0 ∧ d < 180) then
    let strength := 3 * Node.force node * (180 - d) / 180 in
    (f.1 + (Node.x node - Point.x p) * strength * 0.01,
     f.2 + (Node.y node - Point.y p) * strength * 0.01)
  else f.

(** Body of the two nested loops, for the point [p = mesh[y][x]]. *)
Definition step_point (p : Point.t) : Point.t :=
  let fx := (Point.rest_x p - Point.x p) * k_rest in
  let fy := (Point.rest_y p - Point.y p) * k_rest in
  let f := foldl (pull p) (fx, fy) nodes in
  let vx := (Point.vx p + f.1) * 0.88 in
  let vy := (Point.vy p + f.2) * 0.88 in
  Point.mk (Point.x p + vx) (Point.y p + vy) vx vy (Point.rest_x p) (Point.rest_y p).

(** One visit of the pass: read [mesh[y][x]] and overwrite it in place.
    Reading a point that is not there throws. *)
Definition visit (mesh : mesh_t) (yx : nat * nat) : option mesh_t :=
  row ← mesh !! yx.1;
  p ← row !! yx.2;
  Some (<[yx.1 := <[yx.2 := step_point p]> row]> mesh).

Fixpoint visit_all (order : list (nat * nat)) (mesh : mesh_t) : option mesh_t :=
  match order with
  | [] => Some mesh
  | yx :: order' => mesh' ← visit mesh yx; visit_all order' mesh'
  end.

(** [for y < rows_, for x < cols]: row by row, left to right. *)
Definition raster : list (nat * nat) :=
  y ← seq 0 rows_; x ← seq 0 cols; [(y, x)].

Definition mesh_physics (mesh : mesh_t) : option mesh_t := visit_all raster mesh.
End Physics.

(** The simultaneous update: every point stepped from its old value. *)
Definition simultaneous (k_rest : R) (nodes : list Node.t) (mesh : mesh_t) : mesh_t :=
  fmap (M:=list) (fmap (M:=list) (step_point k_rest nodes)) mesh.

(** The mesh after the points of [done] have been visited. *)
Definition visited (k_rest : R) (nodes : list Node.t) (done : list (nat * nat))
    (mesh : mesh_t) : mesh_t :=
  imap (λ y row,
    imap (λ x p, if decide ((y, x) ∈ done) then step_point k_rest nodes p else p) row)
    mesh.

(** Rows and columns as [setup] builds them. *)
Definition grid_shaped (mesh : mesh_t) : Prop :=
  length mesh = rows_ ∧ Forall (λ row, length row = cols) mesh.

(** ** draw: the Voronoi classification pass *)

(** The values a loop [for (let v = start; v < stop; v += step)] runs
    through; [fuel] bounds the number of rounds. *)
Fixpoint for_range (fuel : nat) (v stop step : Z) : list Z :=
  match fuel with
  | O => []
  | S fuel' => if decide (v < stop)%Z then v :: for_range fuel' (v + step) stop step else []
  end.

(** The sample points, in the order the two loops reach them. *)
Definition samples : list (Z * Z) :=
  x ← for_range 800 (-400) 400 16; y ← for_range 500 (-250) 250 16; [(x, y)].

Definition voronoiSites (nodes : list Node.t) : list (R * R) :=
  (λ n, (Node.x n, Node.y n)) <$> nodes.

(** Body of the loop over the sites: [(minD, minIdx)] before and after
    site [i]. *)
Definition closer (x y : Z) (best : R * Z) (i : nat) (site : R * R) : R * Z :=
  let d := P5.dist (IZR x) (IZR y) site.1 site.2 in
  if decide (d < best.1)%R then (d, Z.of_nat i) else best.

(** [(minD, minIdx)] after the loop over the sites, for the sample
    [(x, y)]: the loop variables only take integer values. *)
Definition nearest (sites : list (R * R)) (x y : Z) : R * Z :=
  foldl_i (closer x y) (1e9%R, (-1)%Z) sites.

(** [if (!cellMap[minIdx]) cellMap[minIdx] = []; cellMap[minIdx].push([x, y])] *)
Definition push_sample (cellMap : gmap Z (list (Z * Z))) (minIdx : Z) (s : Z * Z)
  : gmap Z (list (Z * Z)) :=
  <[minIdx := default [] (cellMap !! minIdx) ++ [s]]> cellMap.

Definition classify (sites : list (R * R)) (cellMap : gmap Z (list (Z * Z))) (s : Z * Z)
  : gmap Z (list (Z * Z)) :=
  push_sample cellMap (nearest sites s.1 s.2).2 s.

(** [cellMap] at the end of the pass. *)
Definition voronoi (nodes : list Node.t) : gmap Z (list (Z * Z)) :=
  foldl (classify (voronoiSites nodes)) ∅ samples.

(** Distance from the sample [(x, y)] to a node, as the pass computes it. *)
Definition sample_distance (x y : Z) (node : Node.t) : R :=
  P5.dist (IZR x) (IZR y) (Node.x node) (Node.y node).

(** [minIdx] of the sample [s]. *)
Definition assigned (nodes : list Node.t) (s : Z * Z) : Z :=
  (nearest (voronoiSites nodes) s.1 s.2).2.

Section ScanResult.
Local Open Scope R_scope.
(** What the scan has found: nothing below the initial 1e9, or the first
    of the nearest sites. *)
Definition scan_result (x y : Z) (sites : list (R * R)) (best : R * Z) : Prop :=
  (best = (1e9%R, (-1)%Z) ∧
   ∀ j s, sites !! j = Some s → 1e9 <= P5.dist (IZR x) (IZR y) s.1 s.2) ∨
  (∃ i s, best = (P5.dist (IZR x) (IZR y) s.1 s.2, Z.of_nat i) ∧
     sites !! i = Some s ∧
     P5.dist (IZR x) (IZR y) s.1 s.2 < 1e9 ∧
     (∀ j sj, sites !! j = Some sj →
        P5.dist (IZR x) (IZR y) s.1 s.2 <= P5.dist (IZR x) (IZR y) sj.1 sj.2) ∧
     (∀ j sj, (j < i)%nat → sites !! j = Some sj →
        P5.dist (IZR x) (IZR y) s.1 s.2 < P5.dist (IZR x) (IZR y) sj.1 sj.2)).
End ScanResult.

(** A node far outside the domain. *)
Definition far_node : Node.t := Node.mk 2e9 0 0.

(** ** keyPressed and keyReleased *)

(** A string of the model is a JavaScript string whose code units are all
    below 256, one [ascii] for each: its characters are those of Latin-1.
    On such a string [toLowerCase] moves the letters A-Z (65-90) and the
    letters U+00C0-U+00DE (192-222) other than the multiplication sign
    U+00D7 (215) up by 32 and leaves every other character as it is.  Keys
    with a character from U+0100 on are not strings of the model. *)
Definition lower (c : ascii) : ascii :=
  let n := nat_of_ascii c in
  if decide ((65 ≤ n ≤ 90) ∨ (192 ≤ n ≤ 222 ∧ n ≠ 215))%nat
  then ascii_of_nat (n + 32) else c.

(** [key.toLowerCase()]. *)
Fixpoint toLowerCase (s : string) : string :=
  match s with
  | EmptyString => EmptyString
  | String c s' => String (lower c) (toLowerCase s')
  end.

Definition set_force (v : R) (node : Node.t) : Node.t :=
  Node.mk (Node.x node) (Node.y node) v.

(** The property names the object [keyToNode = {}] inherits from
    [Object.prototype]: [k in keyToNode] is true of them as it is of the
    keys [setup] wrote. *)
Definition inherited_names : list string :=
  ["constructor"; "__defineGetter__"; "__defineSetter__"; "hasOwnProperty";
   "__lookupGetter__"; "__lookupSetter__"; "isPrototypeOf";
   "propertyIsEnumerable"; "toString"; "valueOf"; "__proto__"; "toLocaleString"].

(** [if (k in keyToNode) nodes[keyToNode[k]].force = 1].  For a key that
    [setup] wrote, [keyToNode[k]] is an index, and the assignment throws
    when the node is not there.  For an inherited name [keyToNode[k]] is a
    function or an object, [nodes[keyToNode[k]]] is [undefined] and the
    assignment throws.  For any other [k] the test fails and nothing is
    done. *)
Definition keyPressed (key : string) (st : layout) : outcome * layout :=
  let k := toLowerCase key in
  match keyToNode st !! k with
  | Some i =>
    match nodes st !! i with
    | Some node => (Returned, Layout (<[i := set_force 1 node]> (nodes st)) (keyToNode st))
    | None => (Threw, st)
    end
  | None => if decide (k ∈ inherited_names) then (Threw, st) else (Returned, st)
  end.

Definition keyReleased (key : string) (st : layout) : outcome * layout :=
  let k := toLowerCase key in
  match keyToNode st !! k with
  | Some i =>
    match nodes st !! i with
    | Some node => (Returned, Layout (<[i := set_force 0 node]> (nodes st)) (keyToNode st))
    | None => (Threw, st)
    end
  | None => if decide (k ∈ inherited_names) then (Threw, st) else (Returned, st)
  end.

(** A key whose lower-case form is no inherited name, and the events with
    such keys. *)
Definition plain_key (key : string) : Prop := toLowerCase key ∉ inherited_names.


(** Every key of the map names a node that is there. *)
Definition indexed (st : layout) : Prop :=
  ∀ k i, keyToNode st !! k = Some i → (i < length (nodes st))%nat.

(** The activation of node [i]. *)
Definition activation (st : layout) (i : nat) : option R :=
  Node.force <$> nodes st !! i.

(** ** The force model in the spec's words

    A spring term towards the rest position, plus one pull term per active
    node within the capture radius, summed. *)

Section ForceModel.
Local Open Scope R_scope.
Variables (k_rest : R) (nodes : list Node.t) (p : Point.t).

Definition distance_to (node : Node.t) : R :=
  P5.dist (Point.x p) (Point.y p) (Node.x node) (Node.y node).

(** Active, and strictly closer than R = 180. *)
Definition captures (node : Node.t) : Prop :=
  Node.force node > 0 ∧ distance_to node < 180.

#[global] Instance captures_dec node : Decision (captures node).
Proof. unfold captures. apply _. Defined.

Definition pull_term (node : Node.t) : R * R :=
  let d := distance_to node in
  ((Node.x node - Point.x p) * (3 * Node.force node * (180 - d) / 180) * 0.01,
   (Node.y node - Point.y p) * (3 * Node.force node * (180 - d) / 180) * 0.01).

Definition Rsum (l : list R) : R := foldr Rplus 0 l.

Definition total_force : R * R :=
  let active := filter captures nodes in
  (k_rest * (Point.rest_x p - Point.x p) + Rsum ((λ n, (pull_term n).1) <$> active),
   k_rest * (Point.rest_y p - Point.y p) + Rsum ((λ n, (pull_term n).2) <$> active)).
End ForceModel.

(** ** The scenario: one active node at the origin, a point resting at (100, 0) *)

Definition scenario_point : Point.t := Point.mk 100 0 0 0 100 0.
Definition scenario_nodes : list Node.t := [Node.mk 0 0 1].

(** ** Repeated passes *)

(** [n] frames of the mesh physics pass. *)
Fixpoint run_physics (k_rest : R) (nodes : list Node.t) (n : nat) (mesh : mesh_t)
  : option mesh_t :=
  match n with
  | O => Some mesh
  | S n' => mesh' ← mesh_physics k_rest nodes mesh; run_physics k_rest nodes n' mesh'
  end.

(** Distance of a point to its rest position. *)
Definition rest_distance (p : Point.t) : R :=
  P5.dist (Point.x p) (Point.y p) (Point.rest_x p) (Point.rest_y p).

(** The energy of one axis of the free spring of stiffness 0.08, for the
    displacement [e] and the velocity [v]. *)
Definition axis_energy (e v : R) : R :=
  (0.0704 * e * e + 0.0496 * e * v + 0.88 * v * v)%R.

Definition energy (p : Point.t) : R :=
  (axis_energy (Point.x p - Point.rest_x p) (Point.vx p)
   + axis_energy (Point.y p - Point.rest_y p) (Point.vy p))%R.

(** The mesh point right of the "q" node after one frame with "q" held:
    it has left its rest position and is moving. *)
Definition released_point : Point.t :=
  Point.mk (-6800 / 19 - 23056 / 27075) (-250) (- (23056 / 27075)) 0 (-6800 / 19) (-250).

(** ** draw: the image shuffle of the sperm sketches *)

(** [l[i]] for a number [i] that is an integer: [undefined] out of range. *)
Definition js_index {A} (l : list A) (i : Z) : option A :=
  if decide (0 ≤ i)%Z then l !! Z.to_nat i else None.

(** The three statements of one swap.  Reading [.img] of a cell that is not
    there throws, before anything is written; the second write goes to the
    array as the first write left it. *)
Definition swap_img (cells : list Cell.t) (i j : Z) : option (list Cell.t) :=
  ci ← js_index cells i;
  let temp := Cell.img ci in
  cj ← js_index cells j;
  let cells' := alter (Cell.set_img (Cell.img cj)) (Z.to_nat i) cells in
  Some (alter (Cell.set_img temp) (Z.to_nat j) cells').

(** [floor(random(spermCells.length))] on the draw [u]. *)
Definition random_index (u : R) (cells : list Cell.t) : Z :=
  P5.floor (P5.random1 u (INR (length cells))).

(** [n] rounds of the swap loop, the generator having been called [calls]
    times before: the outcome, the cells, and the calls made. *)
Fixpoint swaps (rnd : tape) (n : nat) (calls : nat) (cells : list Cell.t)
  : outcome * list Cell.t * nat :=
  match n with
  | O => (Returned, cells, calls)
  | S n' =>
    let i := random_index (rnd calls) cells in
    let j := random_index (rnd (S calls)) cells in
    match swap_img cells i j with
    | Some cells' => swaps rnd n' (S (S calls)) cells'
    | None => (Threw, cells, S (S calls))
    end
  end.

Definition shuffleInterval : R := 111.
Definition swapsPerInterval : nat := 36.

(** The globals the shuffle block touches, and the calls of [random] so far. *)
Record swarm := Swarm { spermCells : list Cell.t; lastShuffle : R; calls : nat }.

(** The shuffle block of one frame; [now] and [now'] are the two readings
    of [millis()]. *)
Definition shuffle (rnd : tape) (now now' : R) (st : swarm) : outcome * swarm :=
  if decide (now - lastShuffle st > shuffleInterval)%R then
    match swaps rnd swapsPerInterval (calls st) (spermCells st) with
    | (Returned, cells, n) => (Returned, Swarm cells now' n)
    | (Threw, cells, n) => (Threw, Swarm cells (lastShuffle st) n)
    end
  else (Returned, st).

(** The shuffle blocks of successive frames, up to the first that throws. *)
Fixpoint shuffles (rnd : tape) (clock : list (R * R)) (st : swarm) : outcome * swarm :=
  match clock with
  | [] => (Returned, st)
  | (now, now') :: clock' =>
    match shuffle rnd now now' st with
    | (Returned, st') => shuffles rnd clock' st'
    | thrown => thrown
    end
  end.

(** A generator that always draws one half, and a swarm of two cells. *)
Definition half_tape : tape := λ _, (1 / 2)%R.

Definition two_cells : list Cell.t :=
  [Cell.mk 0 0 0 0 (Some 0%nat) None 1 0 0; Cell.mk 60 0 0 0 (Some 1%nat) None 1 0 0].

(** ** setup of sperm2.js: scattering the cells *)

Section Scatter.
Local Open Scope R_scope.
Variables (width height : R) (assets : list image) (rnd : tape).

Definition marginX : R := 80.
Definition marginY : R := 80.
Definition desiredAssetCount : nat := 800.
Definition minSpacing : R := 50.

(** The loop over the cells placed so far, left at the first conflict. *)
Fixpoint conflict (cells : list Cell.t) (candidate : R * R) : bool :=
  match cells with
  | [] => false
  | cell :: cells' =>
    if decide (P5.dist (Cell.x cell) (Cell.y cell) candidate.1 candidate.2 < minSpacing)
    then true
    else conflict cells' candidate
  end.

(** The [while (attempts < 30)] loop, entered with [attempts] and with
    [left = 30 - attempts] rounds to go before the test fails: the
    candidate, [attempts] and the calls of [random] when the loop is left. *)
Fixpoint search (left attempts : nat) (cells : list Cell.t) (candidate : option (R * R))
    (calls : nat) : option (R * R) * nat * nat :=
  match left with
  | O => (candidate, attempts, calls)
  | S left' =>
    let x := P5.random2 (rnd calls) (- width / 2 + marginX) (width / 2 - marginX) in
    let y := P5.random2 (rnd (S calls)) (- height / 2 + marginY) (height / 2 - marginY) in
    if conflict cells (x, y)
    then search left' (S attempts) cells (Some (x, y)) (S (S calls))
    else (Some (x, y), attempts, S (S calls))
  end.

(** The cells placed so far, the calls of [random] so far, and a record
    the sketch does not keep: [attempts] at the end of each cell's search. *)
Record scattered := Scattered {
  placed : list Cell.t; drawn : nat; attempts_log : list nat
}.

(** Body of the loop [for (let i = 0; i < desiredAssetCount; i++)].
    [candidate.x] throws when no candidate was drawn. *)
Definition place (i : nat) (st : scattered) : option scattered :=
  let '(candidate, attempts, n) := search 30 0 (placed st) None (drawn st) in
  c ← candidate;
  let cell :=
    Cell.mk c.1 c.2
      (P5.random2 (rnd n) (-1) 1)
      (P5.random2 (rnd (n + 1)%nat) (-1) 1)
      (assets !! (i mod length assets)%nat)
      None
      (P5.random2 (rnd (n + 2)%nat) 0.3 0.5)
      (P5.random1 (rnd (n + 3)%nat) P5.TWO_PI)
      (P5.random2 (rnd (n + 4)%nat) (-0.02) 0.02) in
  Some (Scattered (placed st ++ [cell]) (n + 5)%nat (attempts_log st ++ [attempts])).

(** The first [n] rounds of the loop. *)
Fixpoint scatter (n : nat) : option scattered :=
  match n with
  | O => Some (Scattered [] 0 [])
  | S n' => st ← scatter n'; place n' st
  end.

Definition setup_cells : option scattered := scatter desiredAssetCount.
End Scatter.

(** Distance between two cells. *)
Definition cell_distance (a b : Cell.t) : R :=
  P5.dist (Cell.x a) (Cell.y a) (Cell.x b) (Cell.y b).

(** What the sketch guarantees of the cells placed so far. *)
Definition spaced (st : scattered) : Prop :=
  length (attempts_log st) = length (placed st) ∧
  ∀ i j ci cj aj, (i < j)%nat →
    placed st !! i = Some ci → placed st !! j = Some cj →
    attempts_log st !! j = Some aj → (aj < 30)%nat →
    (minSpacing <= cell_distance ci cj)%R.

(** The candidate drawn when the generator always returns [u]. *)
Definition only_candidate (width height u : R) : R * R :=
  (P5.random2 u (- width / 2 + marginX) (width / 2 - marginX),
   P5.random2 u (- height / 2 + marginY) (height / 2 - marginY))%R.

(** ** anyNodeActive *)

(** [nodes.some(node => node.force > 0)] *)
Definition anyNodeActive (nodes : list Node.t) : bool :=
  existsb (λ node, bool_decide (Node.force node > 0)%R) nodes.

(** ** The mesh sketch as it runs: key events and frames *)

Inductive event := KeyDown (key : string) | KeyUp (key : string) | Frame.

(** The globals of the mesh sketch. *)
Record sketch := Sketch { sketch_layout : layout; sketch_mesh : mesh_t }.

(** One call of a handler or of [draw]; [None] when it throws.  Of [draw]
    only the mesh physics pass writes to the globals: the Voronoi pass
    fills a local object. *)
Definition handle (ev : event) (st : sketch) : option sketch :=
  match ev with
  | KeyDown key =>
    match keyPressed key (sketch_layout st) with
    | (Returned, l) => Some (Sketch l (sketch_mesh st))
    | (Threw, _) => None
    end
  | KeyUp key =>
    match keyReleased key (sketch_layout st) with
    | (Returned, l) => Some (Sketch l (sketch_mesh st))
    | (Threw, _) => None
    end
  | Frame =>
    mesh ← mesh_physics 0.08 (nodes (sketch_layout st)) (sketch_mesh st);
    Some (Sketch (sketch_layout st) mesh)
  end.

Fixpoint run_sketch (events : list event) (st : sketch) : option sketch :=
  match events with
  | [] => Some st
  | ev :: events' => st' ← handle ev st; run_sketch events' st'
  end.

(** The globals after [setup]. *)
Definition mesh_sketch_start : sketch := Sketch mesh_sketch_layout mesh_sketch_mesh.

(** A point at its rest position, not moving. *)
Definition at_rest (p : Point.t) : Prop :=
  Point.x p = Point.rest_x p ∧ Point.y p = Point.rest_y p ∧
  Point.vx p = 0%R ∧ Point.vy p = 0%R.

(** No two keys of the map name the same node. *)
Definition one_key_per_node (st : layout) : Prop :=
  ∀ k1 k2 i, keyToNode st !! k1 = Some i → keyToNode st !! k2 = Some i → k1 = k2.

(** ** setup of sperm.js: one cell per asset, anchored to the mesh points *)

Section Anchored.
Local Open Scope R_scope.
Variables (mesh : mesh_t) (assets : list image) (rnd : tape).

(** The cells pushed so far, [idx], and the calls of [random] so far. *)
Record anchoring := Anchoring { anchored : list Cell.t; idx : nat; jitters : nat }.

(** Body of the two nested loops of part 3 of [setup], at [(y, x)]. *)
Definition add_cell (st : anchoring) (yx : nat * nat) : option anchoring :=
  if decide (idx st < length assets)%nat then
    p ← at2 mesh yx.1 yx.2;
    let jitter := 30 in
    let n := jitters st in
    let cell :=
      Cell.mk
        (Point.x p + P5.random2 (rnd n) (- jitter) jitter)
        (Point.y p + P5.random2 (rnd (n + 1)%nat) (- jitter) jitter)
        (P5.random2 (rnd (n + 2)%nat) (-1) 1)
        (P5.random2 (rnd (n + 3)%nat) (-1) 1)
        (assets !! idx st)
        (Some (yx.2, yx.1))
        (P5.random2 (rnd (n + 4)%nat) 0.6 1.2)
        (P5.random1 (rnd (n + 5)%nat) P5.TWO_PI)
        (P5.random2 (rnd (n + 6)%nat) (-0.02) 0.02) in
    Some (Anchoring (anchored st ++ [cell]) (S (idx st)) (n + 7)%nat)
  else Some st.

Fixpoint add_cells (order : list (nat * nat)) (st : anchoring) : option anchoring :=
  match order with
  | [] => Some st
  | yx :: order' => st' ← add_cell st yx; add_cells order' st'
  end.

Definition setup_anchored : option anchoring := add_cells raster (Anchoring [] 0 0).
End Anchored.

(** The mesh of the sperm sketches: the window inset by the margins. *)
Definition sperm_mesh (width height : R) : mesh_t :=
  setup_mesh (- width / 2 + marginX) (width / 2 - marginX)
    (- height / 2 + marginY) (height / 2 - marginY)%R.

Definition sperm_layout (width height : R) : layout :=
  setup_nodes (- width / 2 + marginX) (width / 2 - marginX)
    (- height / 2 + marginY) (height / 2 - marginY)%R.

(** ** draw of sperm.js: the cells follow their mesh points *)

Section Animate.
Local Open Scope R_scope.

(** Body of [for (let cell of spermCells)] in [sperm.js], the calls that
    only draw left out.  [mesh[cell.meshIdx.y][cell.meshIdx.x]] and
    [cell.img.width] throw when the anchor, the point or the image is not
    there. *)
Definition follow_anchor (mesh : mesh_t) (cell : Cell.t) : option Cell.t :=
  anchor ← Cell.meshIdx cell;
  p ← at2 mesh anchor.2 anchor.1;
  let fx := (Point.x p - Cell.x cell) * 0.01 in
  let fy := (Point.y p - Cell.y cell) * 0.01 in
  let vx := (Cell.vx cell + fx) * 0.96 in
  let vy := (Cell.vy cell + fy) * 0.96 in
  img ← Cell.img cell;
  Some (Cell.mk (Cell.x cell + vx) (Cell.y cell + vy) vx vy (Some img)
          (Cell.meshIdx cell) (Cell.scale cell)
          (Cell.angle cell + Cell.angleSpeed cell) (Cell.angleSpeed cell)).

(** Body of the inner loop of [sperm2.js]: the pull of one node on a cell. *)
Definition pull_cell (cell : Cell.t) (f : R * R) (node : Node.t) : R * R :=
  let d := P5.dist (Cell.x cell) (Cell.y cell) (Node.x node) (Node.y node) in
  if decide (Node.force node > 0 ∧ d < 180) then
    let strength := 3 * Node.force node * (180 - d) / 180 in
    (f.1 + (Node.x node - Cell.x cell) * strength * 0.005,
     f.2 + (Node.y node - Cell.y cell) * strength * 0.005)
  else f.

(** Body of [for (let cell of spermCells)] in [sperm2.js]. *)
Definition follow_nodes (nodes : list Node.t) (cell : Cell.t) : option Cell.t :=
  let f := foldl (pull_cell cell) (0, 0) nodes in
  let vx := (Cell.vx cell + f.1) * 0.96 in
  let vy := (Cell.vy cell + f.2) * 0.96 in
  img ← Cell.img cell;
  Some (Cell.mk (Cell.x cell + vx) (Cell.y cell + vy) vx vy (Some img)
          (Cell.meshIdx cell) (Cell.scale cell)
          (Cell.angle cell + Cell.angleSpeed cell) (Cell.angleSpeed cell)).
End Animate.

(** ** sperm.js as it runs *)

(** The globals of [sperm.js] and the calls of [random] so far. *)
Record sperm := Sperm {
  sperm_layout_of : layout; sperm_mesh_of : mesh_t; sperm_swarm : swarm
}.

(** One call of [draw] of [sperm.js]: the shuffle block, the mesh physics
    pass with stiffness 0.04, the cells. *)
Definition draw_sperm (rnd : tape) (now now' : R) (st : sperm) : option sperm :=
  match shuffle rnd now now' (sperm_swarm st) with
  | (Threw, _) => None
  | (Returned, sw) =>
    mesh ← mesh_physics 0.04 (nodes (sperm_layout_of st)) (sperm_mesh_of st);
    cells ← mapM (follow_anchor mesh) (spermCells sw);
    Some (Sperm (sperm_layout_of st) mesh (Swarm cells (lastShuffle sw) (calls sw)))
  end.

Inductive sperm_event :=
  | SpermKeyDown (key : string) | SpermKeyUp (key : string)
  | SpermFrame (now now' : R).

Definition sperm_handle (rnd : tape) (ev : sperm_event) (st : sperm) : option sperm :=
  match ev with
  | SpermKeyDown key =>
    match keyPressed key (sperm_layout_of st) with
    | (Returned, l) => Some (Sperm l (sperm_mesh_of st) (sperm_swarm st))
    | (Threw, _) => None
    end
  | SpermKeyUp key =>
    match keyReleased key (sperm_layout_of st) with
    | (Returned, l) => Some (Sperm l (sperm_mesh_of st) (sperm_swarm st))
    | (Threw, _) => None
    end
  | SpermFrame now now' => draw_sperm rnd now now' st
  end.

Fixpoint run_sperm (rnd : tape) (events : list sperm_event) (st : sperm) : option sperm :=
  match events with
  | [] => Some st
  | ev :: events' => st' ← sperm_handle rnd ev st; run_sperm rnd events' st'
  end.

(** The globals of [sperm.js] after [setup]; [lastShuffle] starts at 0. *)
Definition sperm_start (width height : R) (assets : list image) (rnd : tape)
  : option sperm :=
  a ← setup_anchored (sperm_mesh width height) assets rnd;
  Some (Sperm (sperm_layout width height) (sperm_mesh width height)
          (Swarm (anchored a) 0 (jitters a))).

(** The characters of the keyboard rows in reading order, as keys. *)
Definition letters : list string :=
  (λ c, String c EmptyString) <$> (keyboardRows ≫= list_ascii_of_string).

(** The rest positions of a mesh. *)
Definition rest_positions (mesh : mesh_t) : list (list (R * R)) :=
  fmap (M:=list) (fmap (M:=list) (λ p, (Point.rest_x p, Point.rest_y p))) mesh.

(** Inside the bounds. *)
Definition inside (l r t b x y : R) : Prop := (l <= x <= r ∧ t <= y <= b)%R.

(** An anchor that names a point of the mesh. *)
Definition on_mesh (anchor : option (nat * nat)) : Prop :=
  ∃ x y, anchor = Some (x, y) ∧ (x < cols)%nat ∧ (y < rows_)%nat.

(** What a run of [sperm.js] keeps of the cells [setup] made. *)
Definition sperm_kept (cells0 : list Cell.t) (st : sperm) : Prop :=
  indexed (sperm_layout_of st) ∧ grid_shaped (sperm_mesh_of st) ∧
  length (spermCells (sperm_swarm st)) = length cells0 ∧
  Cell.img <$> spermCells (sperm_swarm st) ≡ₚ Cell.img <$> cells0 ∧
  Cell.meshIdx <$> spermCells (sperm_swarm st) = Cell.meshIdx <$> cells0.

(** Frames only, one per pair of clock readings. *)
Definition frames (clock : list (R * R)) : list sperm_event :=
  (λ c, SpermFrame c.1 c.2) <$> clock.

(** The energy of a cell about the mesh point [p] it follows, along one axis
    and in all: [e] is the displacement from the point, [v] the velocity. *)
Definition cell_axis_energy (e v : R) : R :=
  (0.0096 * e * e + 0.0304 * e * v + 0.96 * v * v)%R.

Definition anchor_energy (p : Point.t) (cell : Cell.t) : R :=
  (cell_axis_energy (Cell.x cell - Point.x p) (Cell.vx cell)
   + cell_axis_energy (Cell.y cell - Point.y p) (Cell.vy cell))%R.

Definition anchor_distance (p : Point.t) (cell : Cell.t) : R :=
  P5.dist (Cell.x cell) (Cell.y cell) (Point.x p) (Point.y p).

(** The state of [sperm.js] while no key has been pressed: the mesh rests,
    and the cell [k] has energy [E] about its mesh point [p]. *)
Definition idle_with (l0 : layout) (mesh0 : mesh_t) (cells0 : list Cell.t)
    (k : nat) (p : Point.t) (E : R) (st : sperm) : Prop :=
  sperm_kept cells0 st ∧ sperm_layout_of st = l0 ∧ sperm_mesh_of st = mesh0 ∧
  ∃ cell x y, spermCells (sperm_swarm st) !! k = Some cell ∧
    Cell.meshIdx cell = Some (x, y) ∧ at2 mesh0 y x = Some p ∧
    anchor_energy p cell = E.

(** ** sperm2.js as it runs *)

(** One call of [draw] of [sperm2.js]: the shuffle block, the mesh physics
    pass with stiffness 0.04, the cells under the pull of the nodes. *)
Definition draw_sperm2 (rnd : tape) (now now' : R) (st : sperm) : option sperm :=
  match shuffle rnd now now' (sperm_swarm st) with
  | (Threw, _) => None
  | (Returned, sw) =>
    mesh ← mesh_physics 0.04 (nodes (sperm_layout_of st)) (sperm_mesh_of st);
    cells ← mapM (follow_nodes (nodes (sperm_layout_of st))) (spermCells sw);
    Some (Sperm (sperm_layout_of st) mesh (Swarm cells (lastShuffle sw) (calls sw)))
  end.

Definition sperm2_handle (rnd : tape) (ev : sperm_event) (st : sperm) : option sperm :=
  match ev with
  | SpermKeyDown key =>
    match keyPressed key (sperm_layout_of st) with
    | (Returned, l) => Some (Sperm l (sperm_mesh_of st) (sperm_swarm st))
    | (Threw, _) => None
    end
  | SpermKeyUp key =>
    match keyReleased key (sperm_layout_of st) with
    | (Returned, l) => Some (Sperm l (sperm_mesh_of st) (sperm_swarm st))
    | (Threw, _) => None
    end
  | SpermFrame now now' => draw_sperm2 rnd now now' st
  end.

Fixpoint run_sperm2 (rnd : tape) (events : list sperm_event) (st : sperm) : option sperm :=
  match events with
  | [] => Some st
  | ev :: events' => st' ← sperm2_handle rnd ev st; run_sperm2 rnd events' st'
  end.

(** The globals of [sperm2.js] after [setup]. *)
Definition sperm2_start (width height : R) (assets : list image) (rnd : tape)
  : option sperm :=
  s ← setup_cells width height assets rnd;
  Some (Sperm (sperm_layout width height) (sperm_mesh width height)
          (Swarm (placed s) 0 (drawn s))).

(** The fields of a scattered cell that [random] draws, the position apart. *)
Definition drawn_fields (cell : Cell.t) : Prop :=
  (-1 <= Cell.vx cell < 1 ∧ -1 <= Cell.vy cell < 1 ∧
   0.3 <= Cell.scale cell < 0.5 ∧ 0 <= Cell.angle cell < P5.TWO_PI ∧
   -0.02 <= Cell.angleSpeed cell < 0.02)%R.

(** What a run of [sperm2.js] keeps of the cells [setup] made. *)
Definition sperm2_kept (cells0 : list Cell.t) (st : sperm) : Prop :=
  indexed (sperm_layout_of st) ∧ grid_shaped (sperm_mesh_of st) ∧
  length (spermCells (sperm_swarm st)) = length cells0 ∧
  Cell.img <$> spermCells (sperm_swarm st) ≡ₚ Cell.img <$> cells0.

(** The cell [k] after [n] frames of coasting from [cell0]. *)
Definition coasted (cell0 : Cell.t) (n : nat) (cell : Cell.t) : Prop :=
  (Cell.vx cell = 0.96 ^ n * Cell.vx cell0 ∧
   Cell.vy cell = 0.96 ^ n * Cell.vy cell0 ∧
   Cell.x cell = Cell.x cell0 + 24 * Cell.vx cell0 * (1 - 0.96 ^ n) ∧
   Cell.y cell = Cell.y cell0 + 24 * Cell.vy cell0 * (1 - 0.96 ^ n))%R.

(** The state of [sperm2.js] after [n] frames with no key pressed. *)
Definition coasting (l0 : layout) (cells0 : list Cell.t) (k : nat) (cell0 : Cell.t)
    (n : nat) (st : sperm) : Prop :=
  sperm2_kept cells0 st ∧ sperm_layout_of st = l0 ∧
  ∃ cell, spermCells (sperm_swarm st) !! k = Some cell ∧ coasted cell0 n cell.

(** Successive readings of [millis()], from [t] on, never go back. *)
Fixpoint monotone_clock (t : R) (clock : list (R * R)) : Prop :=
  match clock with
  | [] => True
  | (now, now') :: clock' => (t <= now ∧ now <= now')%R ∧ monotone_clock now' clock'
  end.

(** The last reading of the clock, [t] when there is none. *)
Fixpoint clock_end (t : R) (clock : list (R * R)) : R :=
  match clock with
  | [] => t
  | (now, now') :: clock' => clock_end now' clock'
  end.

(** What key events and frames keep of a state of the sketch [st0]. *)
Definition kept (st0 st : sketch) : Prop :=
  indexed (sketch_layout st) ∧
  keyToNode (sketch_layout st) = keyToNode (sketch_layout st0) ∧
  voronoiSites (nodes (sketch_layout st)) = voronoiSites (nodes (sketch_layout st0)) ∧
  Forall (λ node, Node.force node = 0%R ∨ Node.force node = 1%R)
    (nodes (sketch_layout st)) ∧
  grid_shaped (sketch_mesh st) ∧
  rest_positions (sketch_mesh st) = rest_positions (sketch_mesh st0).

(** What holds of the anchored cells after [n] rounds of the loops of
    part 3 of [setup] of [sperm.js]. *)
Definition anchored_so_far (mesh : mesh_t) (assets : list image) (rnd : tape)
    (n : nat) (st : anchoring) : Prop :=
  idx st = (n `min` length assets)%nat ∧
  length (anchored st) = idx st ∧
  ∀ k cell, anchored st !! k = Some cell →
    Cell.img cell = assets !! k ∧ (k < length assets)%nat ∧
    Cell.meshIdx cell = Some ((k mod 20)%nat, (k / 20)%nat) ∧
    ∃ p j, at2 mesh (k / 20) (k mod 20) = Some p ∧
      Cell.x cell = (Point.x p + P5.random2 (rnd j) (- (30)) 30)%R ∧
      Cell.y cell = (Point.y p + P5.random2 (rnd (j + 1)%nat) (- (30)) 30)%R.

(** The energy of one axis of the free spring of stiffness 0.04 (the mesh of
    the sperm sketches), and of a mesh point about its rest position. *)
Definition mesh_axis_energy (e v : R) : R :=
  (0.0352 * e * e + 0.0848 * e * v + 0.88 * v * v)%R.

Definition loose_energy (p : Point.t) : R :=
  (mesh_axis_energy (Point.x p - Point.rest_x p) (Point.vx p)
   + mesh_axis_energy (Point.y p - Point.rest_y p) (Point.vy p))%R.

(** The energy of a cell about the rest position of its mesh point [p], the
    energy of the cell and the point together, and the distance of the cell
    from that rest position. *)
Definition home_energy (p : Point.t) (cell : Cell.t) : R :=
  (cell_axis_energy (Cell.x cell - Point.rest_x p) (Cell.vx cell)
   + cell_axis_energy (Cell.y cell - Point.rest_y p) (Cell.vy cell))%R.

Definition joint_energy (p : Point.t) (cell : Cell.t) : R :=
  (home_energy p cell + 2 * loose_energy p)%R.

Definition home_distance (p : Point.t) (cell : Cell.t) : R :=
  P5.dist (Cell.x cell) (Cell.y cell) (Point.rest_x p) (Point.rest_y p).

(** The state of [sperm.js] while every node is inactive: the cell [k] and
    its mesh point, of rest position [(rx, ry)], have joint energy at most
    [E]. *)
Definition returning (l0 : layout) (cells0 : list Cell.t) (k x y : nat) (rx ry E : R)
    (st : sperm) : Prop :=
  sperm_kept cells0 st ∧ sperm_layout_of st = l0 ∧
  ∃ cell p, spermCells (sperm_swarm st) !! k = Some cell ∧
    Cell.meshIdx cell = Some (x, y) ∧ at2 (sperm_mesh_of st) y x = Some p ∧
    Point.rest_x p = rx ∧ Point.rest_y p = ry ∧ (joint_energy p cell <= E)%R.

(** ** The drifting sketch (part_001): cells on the mesh points, Perlin drift *)

Section Drift.
Local Open Scope R_scope.
(** [noise(x, y)] of p5.js, a fixed function for one run of the sketch. *)
Variable noise : R → R → R.
Variables (mesh : mesh_t) (assets : list image) (rnd : tape).

(** Body of the two nested loops of part 3 of [setup], at [(y, x)].  The
    cells of this sketch have no [scale], [angle] or [angleSpeed]: the three
    fields are left at 0 and never read. *)
Definition add_plain_cell (st : anchoring) (yx : nat * nat) : option anchoring :=
  if decide (idx st < length assets)%nat then
    p ← at2 mesh yx.1 yx.2;
    let n := jitters st in
    let cell :=
      Cell.mk (Point.x p) (Point.y p)
        (P5.random2 (rnd n) (-1) 1)
        (P5.random2 (rnd (n + 1)%nat) (-1) 1)
        (assets !! idx st)
        (Some (yx.2, yx.1))
        0 0 0 in
    Some (Anchoring (anchored st ++ [cell]) (S (idx st)) (n + 2)%nat)
  else Some st.

Fixpoint add_plain_cells (order : list (nat * nat)) (st : anchoring) : option anchoring :=
  match order with
  | [] => Some st
  | yx :: order' => st' ← add_plain_cell st yx; add_plain_cells order' st'
  end.

Definition setup_plain : option anchoring := add_plain_cells raster (Anchoring [] 0 0).

(** Body of [for (let cell of spermCells)], the calls that only draw left
    out, in the frame [frameCount]. *)
Definition drift_anchor (frameCount : nat) (cell : Cell.t) : option Cell.t :=
  anchor ← Cell.meshIdx cell;
  p ← at2 mesh anchor.2 anchor.1;
  let fx := (Point.x p - Cell.x cell) * 0.01 in
  let fy := (Point.y p - Cell.y cell) * 0.01 in
  let fx := fx + (noise (Cell.x cell * 0.01) (INR frameCount * 0.01) - 0.5) * 0.5 in
  let fy := fy + (noise (Cell.y cell * 0.01) (INR frameCount * 0.01) - 0.5) * 0.5 in
  let vx := (Cell.vx cell + fx) * 0.96 in
  let vy := (Cell.vy cell + fy) * 0.96 in
  img ← Cell.img cell;
  Some (Cell.mk (Cell.x cell + vx) (Cell.y cell + vy) vx vy (Some img)
          (Cell.meshIdx cell) (Cell.scale cell) (Cell.angle cell) (Cell.angleSpeed cell)).
End Drift.

(** The globals of the drifting sketch, and [frameCount]. *)
Record drifter := Drifter {
  drift_layout : layout; drift_mesh : mesh_t; drift_cells : list Cell.t;
  frameCount : nat
}.

(** One event of the drifting sketch.  p5.js counts the frame before it
    calls [draw]; [draw] runs the mesh physics pass with stiffness 0.08,
    then moves the cells. *)
Definition drift_handle (noise : R → R → R) (ev : event) (st : drifter) : option drifter :=
  match ev with
  | KeyDown key =>
    match keyPressed key (drift_layout st) with
    | (Returned, l) => Some (Drifter l (drift_mesh st) (drift_cells st) (frameCount st))
    | (Threw, _) => None
    end
  | KeyUp key =>
    match keyReleased key (drift_layout st) with
    | (Returned, l) => Some (Drifter l (drift_mesh st) (drift_cells st) (frameCount st))
    | (Threw, _) => None
    end
  | Frame =>
    let n := S (frameCount st) in
    mesh ← mesh_physics 0.08 (nodes (drift_layout st)) (drift_mesh st);
    cells ← mapM (drift_anchor noise mesh n) (drift_cells st);
    Some (Drifter (drift_layout st) mesh cells n)
  end.

Fixpoint run_drift (noise : R → R → R) (events : list event) (st : drifter)
  : option drifter :=
  match events with
  | [] => Some st
  | ev :: events' => st' ← drift_handle noise ev st; run_drift noise events' st'
  end.

(** The globals after [setup]. *)
Definition drift_start (assets : list image) (rnd : tape) : option drifter :=
  a ← setup_plain mesh_sketch_mesh assets rnd;
  Some (Drifter mesh_sketch_layout mesh_sketch_mesh (anchored a) 0).

(** [noise] stays in [0, 1]. *)
Definition unit_noise (noise : R → R → R) : Prop := ∀ a b, (0 <= noise a b <= 1)%R.

(** What holds of the cells after [n] rounds of the loops of part 3 of
    [setup] of the drifting sketch. *)
Definition plain_so_far (mesh : mesh_t) (assets : list image) (rnd : tape)
    (n : nat) (st : anchoring) : Prop :=
  idx st = (n `min` length assets)%nat ∧
  length (anchored st) = idx st ∧
  ∀ k cell, anchored st !! k = Some cell →
    Cell.img cell = assets !! k ∧ (k < length assets)%nat ∧
    Cell.meshIdx cell = Some ((k mod 20)%nat, (k / 20)%nat) ∧
    ∃ p j, at2 mesh (k / 20) (k mod 20) = Some p ∧
      Cell.x cell = Point.x p ∧ Cell.y cell = Point.y p ∧
      Cell.vx cell = P5.random2 (rnd j) (-1) 1 ∧
      Cell.vy cell = P5.random2 (rnd (j + 1)%nat) (-1) 1.

(** What a run of the drifting sketch keeps of the cells [setup] made. *)
Definition drift_kept (cells0 : list Cell.t) (st : drifter) : Prop :=
  indexed (drift_layout st) ∧ grid_shaped (drift_mesh st) ∧
  Cell.img <$> drift_cells st = Cell.img <$> cells0 ∧
  Cell.meshIdx <$> drift_cells st = Cell.meshIdx <$> cells0.

(** The number of frames among the events. *)
Fixpoint count_frames (events : list event) : nat :=
  match events with
  | [] => 0
  | Frame :: events' => S (count_frames events')
  | _ :: events' => count_frames events'
  end.

(** The state of the drifting sketch while no key has been pressed: the
    mesh rests and the energy of the cell [k] about its mesh point [p] is
    at most 141.12 along each axis. *)
Definition drifting (l0 : layout) (mesh0 : mesh_t) (cells0 : list Cell.t)
    (k : nat) (p : Point.t) (st : drifter) : Prop :=
  drift_kept cells0 st ∧ drift_layout st = l0 ∧ drift_mesh st = mesh0 ∧
  ∃ cell x y, drift_cells st !! k = Some cell ∧
    Cell.meshIdx cell = Some (x, y) ∧ at2 mesh0 y x = Some p ∧
    (cell_axis_energy (Cell.x cell - Point.x p) (Cell.vx cell) <= 141.12)%R ∧
    (cell_axis_energy (Cell.y cell - Point.y p) (Cell.vy cell) <= 141.12)%R.

(** The events whose key, if any, has a lower-case form that is no
    inherited name. *)
Definition plain_event (ev : event) : Prop :=
  match ev with
  | KeyDown key | KeyUp key => plain_key key
  | Frame => True
  end.

Definition plain_sperm_event (ev : sperm_event) : Prop :=
  match ev with
  | SpermKeyDown key | SpermKeyUp key => plain_key key
  | SpermFrame _ _ => True
  end.

(** * Properties *)

(** ** The mesh pass, point by point *)

Section VisitAll.
Variables (k_rest : R) (nodes : list Node.t).

Lemma visited_nil mesh : visited k_rest nodes [] mesh = mesh.
Proof.
  unfold visited. apply list_eq. intros y. rewrite list_lookup_imap.
  destruct (mesh !! y) as [row|]; [simpl|done]. f_equal.
  apply list_eq. intros x. rewrite list_lookup_imap.
  by destruct (row !! x).
Qed.

Lemma visited_cons y x done (mesh : mesh_t) row p :
  (y, x) ∉ done → mesh !! y = Some row → row !! x = Some p →
  visited k_rest nodes done (<[y := <[x := step_point k_rest nodes p]> row]> mesh)
  = visited k_rest nodes ((y, x) :: done) mesh.
Proof.
  intros Hnew Hrow Hp. unfold visited. apply list_eq. intros y'.
  rewrite !list_lookup_imap. destruct (decide (y' = y)) as [->|Hy].
  - rewrite list_lookup_insert_eq by eauto using lookup_lt_Some.
    rewrite Hrow. simpl. f_equal. apply list_eq. intros x'.
    rewrite !list_lookup_imap. destruct (decide (x' = x)) as [->|Hx].
    + rewrite list_lookup_insert_eq by eauto using lookup_lt_Some.
      rewrite Hp. simpl. rewrite decide_False by done.
      rewrite decide_True by apply list_elem_of_here. done.
    + rewrite list_lookup_insert_ne by done.
      destruct (row !! x') as [q|]; [simpl|done]. f_equal.
      apply decide_ext. rewrite elem_of_cons.
      split; [by right | intros [Heq|Hin]; [congruence|done]].
  - rewrite list_lookup_insert_ne by done.
    destruct (mesh !! y') as [row'|]; [simpl|done]. f_equal.
    apply imap_ext. intros x' q _. simpl.
    apply decide_ext. rewrite elem_of_cons.
      split; [by right | intros [Heq|Hin]; [congruence|done]].
Qed.

Lemma at2_insert_is_Some (mesh : mesh_t) y x row q y' x' :
  mesh !! y = Some row →
  is_Some (at2 mesh y' x') →
  is_Some (at2 (<[y := <[x := q]> row]> mesh) y' x').
Proof.
  unfold at2. intros Hrow [p Hp]. destruct (decide (y' = y)) as [->|Hy].
  - rewrite list_lookup_insert_eq by eauto using lookup_lt_Some.
    rewrite Hrow in Hp. simpl in *. apply lookup_lt_is_Some.
    rewrite length_insert. eauto using lookup_lt_Some.
  - rewrite list_lookup_insert_ne by done. eauto.
Qed.

(** Visiting any duplicate-free list of existing points never throws and
    updates exactly those points, each from its own old value. *)
Lemma visit_all_visited order : ∀ mesh : mesh_t,
  NoDup order →
  (∀ yx, yx ∈ order → is_Some (at2 mesh yx.1 yx.2)) →
  visit_all k_rest nodes order mesh = Some (visited k_rest nodes order mesh).
Proof.
  induction order as [|[y x] order IH]; intros mesh Hnd Hin; simpl.
  - by rewrite visited_nil.
  - apply NoDup_cons in Hnd as [Hnew Hnd].
    destruct (Hin (y, x)) as [p Hp]; [apply list_elem_of_here|].
    unfold at2 in Hp. simpl in Hp. unfold visit. simpl.
    destruct (mesh !! y) as [row|] eqn:Hrow; [simpl in *|done].
    rewrite Hp. simpl. rewrite IH; [|done|].
    + f_equal. by apply visited_cons.
    + intros yx Hyx. apply at2_insert_is_Some; [done|].
      apply Hin. by apply list_elem_of_further.
Qed.

Lemma visited_all order (mesh : mesh_t) :
  (∀ y x, is_Some (at2 mesh y x) → (y, x) ∈ order) →
  visited k_rest nodes order mesh = simultaneous k_rest nodes mesh.
Proof.
  intros Hall. unfold visited, simultaneous. apply list_eq. intros y.
  rewrite list_lookup_imap, list_lookup_fmap.
  destruct (mesh !! y) as [row|] eqn:Hrow; [simpl|done]. f_equal.
  apply list_eq. intros x. rewrite list_lookup_imap, list_lookup_fmap.
  destruct (row !! x) as [p|] eqn:Hp; [simpl|done].
  rewrite decide_True; [done|]. apply Hall. unfold at2. rewrite Hrow. simpl. eauto.
Qed.
End VisitAll.

Lemma elem_of_raster y x : (y, x) ∈ raster ↔ (y < rows_ ∧ x < cols)%nat.
Proof.
  unfold raster. rewrite list_elem_of_bind. split.
  - intros (y' & Hx & Hy). apply list_elem_of_bind in Hx as (x' & Hx & Hx').
    apply list_elem_of_singleton in Hx. inversion Hx; subst.
    apply elem_of_seq in Hy, Hx'. lia.
  - intros [Hy Hx]. exists y. split; [|apply elem_of_seq; lia].
    apply list_elem_of_bind. exists x. split; [apply list_elem_of_singleton; done|].
    apply elem_of_seq. lia.
Qed.

Lemma NoDup_raster : NoDup raster.
Proof. apply (bool_decide_unpack (NoDup raster)). by vm_compute. Qed.

Lemma grid_shaped_at2 (mesh : mesh_t) y x :
  grid_shaped mesh → is_Some (at2 mesh y x) ↔ (y < rows_ ∧ x < cols)%nat.
Proof.
  intros [Hlen Hrows]. unfold at2. split.
  - intros [p Hp]. destruct (mesh !! y) as [row|] eqn:Hrow; [simpl in Hp|done].
    split; [rewrite <- Hlen; eauto using lookup_lt_Some|].
    rewrite Forall_forall in Hrows. rewrite <- (Hrows row).
    + eauto using lookup_lt_Some.
    + eauto using list_elem_of_lookup_2.
  - intros [Hy Hx]. rewrite <- Hlen in Hy. apply lookup_lt_is_Some in Hy as [row Hrow].
    rewrite Hrow. simpl. apply lookup_lt_is_Some.
    rewrite Forall_forall in Hrows. rewrite (Hrows row); [done|].
    eauto using list_elem_of_lookup_2.
Qed.

Lemma setup_mesh_grid_shaped l r t b : grid_shaped (setup_mesh l r t b).
Proof.
  unfold grid_shaped, setup_mesh. split.
  - by rewrite length_fmap, length_seq.
  - apply Forall_fmap, Forall_forall. intros y _. simpl.
    by rewrite ?length_fmap, ?length_seq.
Qed.

Lemma visit_all_permuted k_rest nodes (mesh : mesh_t) order :
  grid_shaped mesh → order ≡ₚ raster →
  visit_all k_rest nodes order mesh = Some (simultaneous k_rest nodes mesh).
Proof.
  intros Hgrid Hperm. rewrite visit_all_visited.
  - f_equal. apply visited_all. intros y x Hyx. rewrite Hperm.
    apply elem_of_raster. by apply (grid_shaped_at2 mesh y x Hgrid).
  - rewrite Hperm. apply NoDup_raster.
  - intros [y x]. rewrite Hperm. intros Hyx. simpl.
    apply (grid_shaped_at2 mesh y x Hgrid). by apply elem_of_raster.
Qed.

Lemma mesh_physics_simultaneous k_rest nodes (mesh : mesh_t) :
  grid_shaped mesh →
  mesh_physics k_rest nodes mesh = Some (simultaneous k_rest nodes mesh).
Proof. intros Hgrid. by apply visit_all_permuted. Qed.

Lemma at2_simultaneous k_rest nodes (mesh : mesh_t) y x :
  at2 (simultaneous k_rest nodes mesh) y x = step_point k_rest nodes <$> at2 mesh y x.
Proof.
  unfold at2, simultaneous. rewrite list_lookup_fmap.
  destruct (mesh !! y) as [row|]; [simpl|done]. by rewrite list_lookup_fmap.
Qed.

Lemma simultaneous_grid_shaped k_rest nodes (mesh : mesh_t) :
  grid_shaped mesh → grid_shaped (simultaneous k_rest nodes mesh).
Proof.
  intros [Hlen Hrows]. unfold simultaneous. split.
  - by rewrite length_fmap.
  - apply Forall_fmap. eapply Forall_impl; [done|].
    intros row Hrow. simpl. by rewrite length_fmap.
Qed.

(** ** The accumulated force is the spring term plus the sum of the pulls *)

Section Force.
Local Open Scope R_scope.
Variables (k_rest : R) (p : Point.t).

Lemma pull_captured f node :
  captures p node →
  pull p f node = (f.1 + (pull_term p node).1, f.2 + (pull_term p node).2).
Proof. intros H. unfold pull. by rewrite decide_True. Qed.

Lemma pull_out_of_reach f node : ¬ captures p node → pull p f node = f.
Proof. intros H. unfold pull. by rewrite decide_False. Qed.

Lemma foldl_pull nodes : ∀ f : R * R,
  foldl (pull p) f nodes
  = (f.1 + Rsum ((λ n, (pull_term p n).1) <$> filter (captures p) nodes),
     f.2 + Rsum ((λ n, (pull_term p n).2) <$> filter (captures p) nodes)).
Proof.
  induction nodes as [|node nodes IH]; intros [fx fy].
  - simpl. f_equal; lra.
  - change (foldl (pull p) (fx, fy) (node :: nodes))
      with (foldl (pull p) (pull p (fx, fy) node) nodes).
    rewrite IH. destruct (decide (captures p node)) as [Hin|Hout].
    + rewrite pull_captured, filter_cons_True by done.
      rewrite !fmap_cons. simpl. f_equal; lra.
    + by rewrite pull_out_of_reach, filter_cons_False by done.
Qed.

Lemma step_point_force nodes :
  step_point k_rest nodes p =
  let F := total_force k_rest nodes p in
  let vx := (Point.vx p + F.1) * 0.88 in
  let vy := (Point.vy p + F.2) * 0.88 in
  Point.mk (Point.x p + vx) (Point.y p + vy) vx vy (Point.rest_x p) (Point.rest_y p).
Proof.
  unfold step_point, total_force. rewrite foldl_pull. simpl.
  f_equal; lra.
Qed.
End Force.

(** C1: one pass of the grid simulator gives every grid point the total force
    [k_rest * (rest - position)] plus, for each node with [force > 0] whose
    distance [d] to the point is below 180, the pull
    [(node - position) * (3 * force * (180 - d) / 180) * 0.01], all pulls
    summed; the new velocity is [(velocity + total force) * 0.88] and the new
    position is the old one plus the new velocity. *)
Theorem step_force_model (k_rest : R) (nodes : list Node.t) (mesh : mesh_t) :
  grid_shaped mesh →
  ∃ mesh', mesh_physics k_rest nodes mesh = Some mesh' ∧
    ∀ y x p, at2 mesh y x = Some p →
      ∃ p', at2 mesh' y x = Some p' ∧
        let F := total_force k_rest nodes p in
        (Point.vx p' = (Point.vx p + F.1) * 0.88 ∧
         Point.vy p' = (Point.vy p + F.2) * 0.88 ∧
         Point.x p' = Point.x p + Point.vx p' ∧
         Point.y p' = Point.y p + Point.vy p' ∧
         Point.rest_x p' = Point.rest_x p ∧
         Point.rest_y p' = Point.rest_y p)%R.
Proof.
  intros Hgrid. exists (simultaneous k_rest nodes mesh).
  split; [by apply mesh_physics_simultaneous|].
  intros y x p Hp. exists (step_point k_rest nodes p). split.
  - by rewrite at2_simultaneous, Hp.
  - rewrite step_point_force. simpl. done.
Qed.

Lemma step_force_model_witness :
  ∃ mesh', mesh_physics 0.08 (nodes mesh_sketch_layout) mesh_sketch_mesh = Some mesh' ∧
    ∀ y x p, at2 mesh_sketch_mesh y x = Some p →
      ∃ p', at2 mesh' y x = Some p' ∧
        let F := total_force 0.08 (nodes mesh_sketch_layout) p in
        (Point.vx p' = (Point.vx p + F.1) * 0.88 ∧
         Point.vy p' = (Point.vy p + F.2) * 0.88 ∧
         Point.x p' = Point.x p + Point.vx p' ∧
         Point.y p' = Point.y p + Point.vy p' ∧
         Point.rest_x p' = Point.rest_x p ∧
         Point.rest_y p' = Point.rest_y p)%R.
Proof.
  apply (step_force_model 0.08 (nodes mesh_sketch_layout) mesh_sketch_mesh).
  apply setup_mesh_grid_shaped.
Defined.

(** C9: the pass does not depend on the order in which the grid points are
    visited: updating the points in place one after the other, in any order
    that visits each grid point once, gives the mesh in which every point is
    stepped from its own old value (and the nodes), which is also what the
    row-by-row pass of [draw] gives. *)
Theorem step_order_independent (k_rest : R) (nodes : list Node.t) (mesh : mesh_t)
    (order : list (nat * nat)) :
  grid_shaped mesh → order ≡ₚ raster →
  visit_all k_rest nodes order mesh = Some (simultaneous k_rest nodes mesh) ∧
  visit_all k_rest nodes order mesh = mesh_physics k_rest nodes mesh.
Proof.
  intros Hgrid Hperm. split.
  - by apply visit_all_permuted.
  - rewrite mesh_physics_simultaneous by done. by apply visit_all_permuted.
Qed.

Lemma step_order_independent_witness :
  visit_all 0.08 (nodes mesh_sketch_layout) (reverse raster) mesh_sketch_mesh
    = Some (simultaneous 0.08 (nodes mesh_sketch_layout) mesh_sketch_mesh) ∧
  visit_all 0.08 (nodes mesh_sketch_layout) (reverse raster) mesh_sketch_mesh
    = mesh_physics 0.08 (nodes mesh_sketch_layout) mesh_sketch_mesh.
Proof.
  apply (step_order_independent 0.08 (nodes mesh_sketch_layout) mesh_sketch_mesh
           (reverse raster)).
  - apply setup_mesh_grid_shaped.
  - apply reverse_Permutation.
Defined.

Lemma scenario_step :
  step_point 0.08 scenario_nodes scenario_point
  = Point.mk (100 - 88 / 75) 0 (- (88 / 75)) 0 100 0.
Proof.
  unfold step_point, scenario_nodes, scenario_point. simpl.
  unfold pull. simpl.
  assert (Hd : P5.dist 100 0 0 0 = 100%R).
  { unfold P5.dist. replace ((0 - 100) * (0 - 100) + (0 - 0) * (0 - 0))%R
      with (100 * 100)%R by lra. apply sqrt_square. lra. }
  rewrite Hd. rewrite decide_True by lra. simpl. f_equal; lra.
Qed.

(** C3: on a 20 x 14 grid with the single node (0, 0) of activation 1, a grid
    point resting at (100, 0) with zero velocity is moved by one pass (with
    stiffness 0.08, strength 3, coefficient 0.01, damping 0.88, radius 180)
    to an x coordinate strictly between 0 and 100. *)
Theorem scenario_moves_toward_node (mesh : mesh_t) (y x : nat) :
  grid_shaped mesh →
  at2 mesh y x = Some scenario_point →
  ∃ mesh' p', mesh_physics 0.08 scenario_nodes mesh = Some mesh' ∧
    at2 mesh' y x = Some p' ∧ (0 < Point.x p' < 100)%R.
Proof.
  intros Hgrid Hp. exists (simultaneous 0.08 scenario_nodes mesh).
  exists (step_point 0.08 scenario_nodes scenario_point).
  split; [by apply mesh_physics_simultaneous|]. split.
  - by rewrite at2_simultaneous, Hp.
  - rewrite scenario_step. simpl. lra.
Qed.

Lemma scenario_moves_toward_node_witness :
  ∃ mesh' p',
    mesh_physics 0.08 scenario_nodes (replicate rows_ (replicate cols scenario_point))
      = Some mesh' ∧
    at2 mesh' 3 5 = Some p' ∧ (0 < Point.x p' < 100)%R.
Proof.
  apply (scenario_moves_toward_node (replicate rows_ (replicate cols scenario_point)) 3 5).
  - split; [reflexivity|]. apply Forall_replicate. reflexivity.
  - reflexivity.
Defined.

(** ** The key handlers *)

Lemma foldl_i_ind {A B} (P : A → Prop) (f : A → nat → B → A) (a : A) (l : list B) :
  P a → (∀ a i b, P a → P (f a i b)) → P (foldl_i f a l).
Proof.
  intros Ha Hf. unfold foldl_i. generalize (imap pair l). intros ibs.
  revert a Ha. induction ibs as [|ib ibs IH]; intros a Ha; simpl; auto.
Qed.

Lemma add_key_indexed l r y len st col key :
  indexed st → indexed (add_key l r y len st col key).
Proof.
  intros Hst k i. unfold add_key. simpl. rewrite length_app. simpl.
  destruct (decide (String key EmptyString = k)) as [->|Hk].
  - rewrite lookup_insert_eq. intros [= <-]. lia.
  - rewrite lookup_insert_ne by done. intros Hi. apply Hst in Hi. lia.
Qed.

Lemma setup_nodes_indexed l r t b : indexed (setup_nodes l r t b).
Proof.
  unfold setup_nodes. apply foldl_i_ind.
  - intros k i. simpl. by rewrite lookup_empty.
  - intros st row keys Hst. unfold add_row. apply foldl_i_ind; [done|].
    intros st' col key Hst'. by apply add_key_indexed.
Qed.

Lemma insert_as_alter {A} (f : A → A) (l : list A) i x :
  l !! i = Some x → <[i := f x]> l = alter f i l.
Proof.
  intros Hi. apply list_eq. intros j. destruct (decide (i = j)) as [<-|Hj].
  - rewrite list_lookup_insert_eq by eauto using lookup_lt_Some.
    by rewrite list_lookup_alter_eq, Hi.
  - by rewrite list_lookup_insert_ne, list_lookup_alter_ne.
Qed.

Lemma keyPressed_known st key i node :
  keyToNode st !! toLowerCase key = Some i → nodes st !! i = Some node →
  keyPressed key st
  = (Returned, Layout (alter (set_force 1) i (nodes st)) (keyToNode st)).
Proof.
  intros Hk Hi. unfold keyPressed. simpl. rewrite Hk, Hi.
  by rewrite (insert_as_alter (set_force 1)).
Qed.

Lemma keyReleased_known st key i node :
  keyToNode st !! toLowerCase key = Some i → nodes st !! i = Some node →
  keyReleased key st
  = (Returned, Layout (alter (set_force 0) i (nodes st)) (keyToNode st)).
Proof.
  intros Hk Hi. unfold keyReleased. simpl. rewrite Hk, Hi.
  by rewrite (insert_as_alter (set_force 0)).
Qed.



Lemma keyPressed_inherited st key :
  keyToNode st !! toLowerCase key = None → ¬ plain_key key →
  keyPressed key st = (Threw, st).
Proof.
  intros Hk Hplain. unfold keyPressed. cbv zeta. rewrite Hk.
  rewrite decide_True; [done|]. by apply dec_stable.
Qed.

Lemma keyReleased_inherited st key :
  keyToNode st !! toLowerCase key = None → ¬ plain_key key →
  keyReleased key st = (Threw, st).
Proof.
  intros Hk Hplain. unfold keyReleased. cbv zeta. rewrite Hk.
  rewrite decide_True; [done|]. by apply dec_stable.
Qed.

Lemma alter_set_force_twice v w i (l : list Node.t) :
  alter (set_force v) i (alter (set_force w) i l) = alter (set_force v) i l.
Proof.
  apply list_eq. intros j. destruct (decide (i = j)) as [<-|Hj].
  - rewrite !list_lookup_alter_eq. by destruct (l !! i).
  - by rewrite !list_lookup_alter_ne.
Qed.








(** The layout [setup] builds: 26 nodes, "q" the first and "m" the last;
    a key that is no letter of the rows is not in the map. *)
Example mesh_sketch_layout_keys :
  length (nodes mesh_sketch_layout) = 26%nat ∧
  keyToNode mesh_sketch_layout !! toLowerCase "Q" = Some 0%nat ∧
  keyToNode mesh_sketch_layout !! toLowerCase "m" = Some 25%nat ∧
  keyToNode mesh_sketch_layout !! toLowerCase "Shift" = None.
Proof. repeat split; reflexivity. Qed.

(** ** The Voronoi pass *)

Lemma foldl_i_snoc {A B} (f : A → nat → B → A) (a : A) (l : list B) (b : B) :
  foldl_i f a (l ++ [b]) = f (foldl_i f a l) (length l) b.
Proof.
  unfold foldl_i. rewrite imap_app, foldl_app. simpl.
  by rewrite Nat.add_0_r.
Qed.

Section Nearest.
Local Open Scope R_scope.
Variables x y : Z.

Lemma nearest_scan sites : scan_result x y sites (nearest sites x y).
Proof.
  unfold nearest. induction sites as [|site sites IH] using rev_ind.
  - left. split; [done|]. intros j s Hj. by rewrite lookup_nil in Hj.
  - rewrite foldl_i_snoc. unfold closer at 1.
    set (d := P5.dist (IZR x) (IZR y) site.1 site.2).
    destruct IH as [[-> Hfar]|(i & s & -> & Hi & Hlt & Hmin & Hfirst)]; simpl.
    + destruct (decide (d < 1e9)) as [Hd|Hd].
      * right. exists (length sites), site. split; [done|].
        split; [by rewrite lookup_app_r, Nat.sub_diag by lia|].
        split; [done|]. split.
        -- intros j sj Hj. apply lookup_snoc_Some in Hj as [[_ Hj]|[_ <-]].
           ++ apply Hfar in Hj. fold d. lra.
           ++ fold d. lra.
        -- intros j sj Hlen Hj. rewrite lookup_app_l in Hj by done.
           apply Hfar in Hj. fold d. lra.
      * left. split; [done|]. intros j sj Hj.
        apply lookup_snoc_Some in Hj as [[_ Hj]|[_ <-]]; [by eapply Hfar|].
        fold d. lra.
    + set (m := P5.dist (IZR x) (IZR y) s.1 s.2) in *.
      destruct (decide (d < m)) as [Hd|Hd].
      * right. exists (length sites), site. split; [done|].
        split; [by rewrite lookup_app_r, Nat.sub_diag by lia|].
        fold d. split; [lra|]. split.
        -- intros j sj Hj. apply lookup_snoc_Some in Hj as [[_ Hj]|[_ <-]].
           ++ apply Hmin in Hj. lra.
           ++ fold d. lra.
        -- intros j sj Hlen Hj. rewrite lookup_app_l in Hj by done.
           apply Hmin in Hj. lra.
      * right. exists i, s. split; [done|].
        split; [by apply lookup_app_l_Some|]. fold m. split; [done|]. split.
        -- intros j sj Hj. apply lookup_snoc_Some in Hj as [[_ Hj]|[_ <-]].
           ++ by eapply Hmin.
           ++ fold d. lra.
        -- intros j sj Hji Hj.
           apply lookup_snoc_Some in Hj as [[_ Hj]|[Hlen _]]; [by eapply Hfirst|].
           apply lookup_lt_Some in Hi. lia.
Qed.
End Nearest.

(** The cell of index [i] collects, in scan order, the samples whose
    [minIdx] is [i]. *)
Lemma foldl_classify sites (ss : list (Z * Z)) : ∀ (m : gmap Z (list (Z * Z))) i,
  foldl (classify sites) m ss !! i =
  match filter (λ s, (nearest sites s.1 s.2).2 = i) ss with
  | [] => m !! i
  | new => Some (default [] (m !! i) ++ new)
  end.
Proof.
  induction ss as [|s ss IH]; intros m i; [done|].
  change (foldl (classify sites) m (s :: ss))
    with (foldl (classify sites) (classify sites m s) ss).
  rewrite IH. unfold classify, push_sample.
  destruct (decide ((nearest sites s.1 s.2).2 = i)) as [Hi|Hi].
  - rewrite filter_cons_True by done. rewrite Hi, lookup_insert_eq. simpl.
    destruct (filter _ ss); [done|]. by rewrite <- app_assoc.
  - rewrite filter_cons_False by done. by rewrite lookup_insert_ne.
Qed.

Lemma voronoi_lookup nodes i :
  voronoi nodes !! i =
  match filter (λ s, assigned nodes s = i) samples with
  | [] => None
  | cell => Some cell
  end.
Proof.
  unfold voronoi. rewrite foldl_classify, lookup_empty. done.
Qed.

Lemma voronoi_cell nodes i cell s :
  voronoi nodes !! i = Some cell → s ∈ cell ↔ s ∈ samples ∧ assigned nodes s = i.
Proof.
  rewrite voronoi_lookup. intros Hcell.
  assert (Hc : cell = filter (λ s, assigned nodes s = i) samples).
  { destruct (filter _ samples); [done|]. by injection Hcell as <-. }
  rewrite Hc, list_elem_of_filter. tauto.
Qed.

Lemma voronoi_assigned nodes s :
  s ∈ samples → ∃ cell, voronoi nodes !! assigned nodes s = Some cell ∧ s ∈ cell.
Proof.
  intros Hs. rewrite voronoi_lookup.
  assert (Hin : s ∈ filter (λ s', assigned nodes s' = assigned nodes s) samples)
    by (by apply list_elem_of_filter).
  destruct (filter _ samples) as [|s' cell]; [by apply elem_of_nil in Hin|].
  eauto.
Qed.

(** The two sampling loops end by their tests: more fuel gives the same
    values. *)
Lemma for_range_fuel fuel extra step : ∀ v stop,
  (0 < step)%Z → (stop - v ≤ Z.of_nat fuel * step)%Z →
  for_range (fuel + extra) v stop step = for_range fuel v stop step.
Proof.
  induction fuel as [|fuel IH]; intros v stop Hstep Hfuel.
  - simpl. destruct extra; [done|]. simpl. by rewrite decide_False by lia.
  - simpl. case_decide; [|done]. f_equal. apply IH; [done|]. lia.
Qed.

Lemma sample_loops_complete extra :
  for_range (800 + extra) (-400) 400 16 = for_range 800 (-400) 400 16 ∧
  for_range (500 + extra) (-250) 250 16 = for_range 500 (-250) 250 16.
Proof. split; apply for_range_fuel; lia. Qed.

Lemma first_sample : ((-400)%Z, (-250)%Z) ∈ samples.
Proof. apply (bool_decide_unpack _). by vm_compute. Qed.

Lemma samples_in_domain x y :
  (x, y) ∈ samples → (-400 ≤ x < 400 ∧ -250 ≤ y < 250)%Z.
Proof.
  assert (H : Forall (λ s, (-400 ≤ s.1 < 400 ∧ -250 ≤ s.2 < 250)%Z) samples).
  { apply (bool_decide_unpack _). by vm_compute. }
  rewrite Forall_forall in H. apply H.
Qed.

Lemma nearest_nil x y : nearest [] x y = (1e9%R, (-1)%Z).
Proof. reflexivity. Qed.

(** ** Distances *)

Section Dist.
Local Open Scope R_scope.

Lemma dist_nonneg x1 y1 x2 y2 : 0 <= P5.dist x1 y1 x2 y2.
Proof. apply sqrt_pos. Qed.

Lemma dist_sqr x1 y1 x2 y2 :
  P5.dist x1 y1 x2 y2 * P5.dist x1 y1 x2 y2
  = (x2 - x1) * (x2 - x1) + (y2 - y1) * (y2 - y1).
Proof.
  unfold P5.dist. apply sqrt_sqrt.
  pose proof (Rle_0_sqr (x2 - x1)). pose proof (Rle_0_sqr (y2 - y1)).
  unfold Rsqr in *. lra.
Qed.

Lemma dist_sym x1 y1 x2 y2 : P5.dist x1 y1 x2 y2 = P5.dist x2 y2 x1 y1.
Proof. unfold P5.dist. f_equal. ring. Qed.

Lemma dist_lt x1 y1 x2 y2 r :
  0 < r → (x2 - x1) * (x2 - x1) + (y2 - y1) * (y2 - y1) < r * r →
  P5.dist x1 y1 x2 y2 < r.
Proof.
  intros Hr Hsq. rewrite <- dist_sqr in Hsq.
  pose proof (dist_nonneg x1 y1 x2 y2). nra.
Qed.

Lemma dist_ge x1 y1 x2 y2 r :
  r * r <= (x2 - x1) * (x2 - x1) + (y2 - y1) * (y2 - y1) →
  r <= P5.dist x1 y1 x2 y2.
Proof.
  intros Hsq. rewrite <- dist_sqr in Hsq.
  pose proof (dist_nonneg x1 y1 x2 y2). nra.
Qed.

Lemma dist_same x y : P5.dist x y x y = 0.
Proof.
  unfold P5.dist. replace ((x - x) * (x - x) + (y - y) * (y - y)) with 0 by ring.
  apply sqrt_0.
Qed.
End Dist.

Lemma voronoiSites_lookup nodes j :
  voronoiSites nodes !! j = (λ n, (Node.x n, Node.y n)) <$> nodes !! j.
Proof. unfold voronoiSites. apply list_lookup_fmap. Qed.

(** [minIdx] is either the initial -1, when no node is closer than 1e9, or
    the first of the nearest nodes. *)
Lemma assigned_cases nodes x y :
  (assigned nodes (x, y) = (-1)%Z ∧
   ∀ j nj, nodes !! j = Some nj → (1e9 <= sample_distance x y nj)%R) ∨
  (∃ i node, assigned nodes (x, y) = Z.of_nat i ∧ nodes !! i = Some node ∧
     (sample_distance x y node < 1e9)%R ∧
     (∀ j nj, nodes !! j = Some nj →
        (sample_distance x y node <= sample_distance x y nj)%R) ∧
     (∀ j nj, (j < i)%nat → nodes !! j = Some nj →
        (sample_distance x y node < sample_distance x y nj)%R)).
Proof.
  unfold assigned. simpl.
  destruct (nearest_scan x y (voronoiSites nodes))
    as [[-> Hfar]|(i & s & -> & Hi & Hlt & Hmin & Hfirst)]; simpl.
  - left. split; [done|]. intros j nj Hj.
    apply (Hfar j (Node.x nj, Node.y nj)). by rewrite voronoiSites_lookup, Hj.
  - right. rewrite voronoiSites_lookup in Hi.
    destruct (nodes !! i) as [node|] eqn:Hnode; [|done].
    injection Hi as <-. exists i, node. repeat split; try done.
    + intros j nj Hj. apply (Hmin j (Node.x nj, Node.y nj)).
      by rewrite voronoiSites_lookup, Hj.
    + intros j nj Hji Hj. apply (Hfirst j (Node.x nj, Node.y nj) Hji).
      by rewrite voronoiSites_lookup, Hj.
Qed.

(** C2, amended: for every sample of the 16-unit sampling grid that has at
    least one node closer than 1e9 (the initial [minD]), the pass puts the
    sample into the cell of exactly one node index; that node is at most as
    far from the sample as every other node, and strictly nearer than every
    node before it in the scan. *)
Theorem partition_nearest_first (nodes : list Node.t) (x y : Z) :
  (x, y) ∈ samples →
  (∃ near, near ∈ nodes ∧ (sample_distance x y near < 1e9)%R) →
  ∃ i node cell,
    nodes !! i = Some node ∧
    voronoi nodes !! Z.of_nat i = Some cell ∧ (x, y) ∈ cell ∧
    (∀ k cell', voronoi nodes !! k = Some cell' → (x, y) ∈ cell' → k = Z.of_nat i) ∧
    (∀ j nj, nodes !! j = Some nj →
       (sample_distance x y node <= sample_distance x y nj)%R) ∧
    (∀ j nj, (j < i)%nat → nodes !! j = Some nj →
       (sample_distance x y node < sample_distance x y nj)%R).
Proof.
  intros Hs (near & Hnear & Hlt).
  destruct (assigned_cases nodes x y)
    as [[_ Hfar]|(i & node & Hidx & Hnode & _ & Hmin & Hfirst)].
  - apply list_elem_of_lookup in Hnear as [j Hj]. apply Hfar in Hj. lra.
  - destruct (voronoi_assigned nodes (x, y) Hs) as (cell & Hcell & Hin).
    rewrite Hidx in Hcell. exists i, node, cell.
    split; [exact Hnode|]. split; [exact Hcell|]. split; [exact Hin|].
    split; [|split; [exact Hmin|exact Hfirst]].
    intros k cell' Hk Hin'. apply (voronoi_cell nodes k cell' (x, y) Hk) in Hin'.
    destruct Hin' as [_ <-]. done.
Qed.

Lemma sketch_node_q :
  ∃ node, nodes mesh_sketch_layout !! 0%nat = Some node ∧
    Node.x node = (-400)%R ∧ Node.y node = (-250)%R.
Proof.
  eexists. split; [reflexivity|]. simpl. unfold P5.map. simpl.
  split; field_simplify; lra.
Qed.

Lemma partition_nearest_first_witness :
  ∃ i node cell,
    nodes mesh_sketch_layout !! i = Some node ∧
    voronoi (nodes mesh_sketch_layout) !! Z.of_nat i = Some cell ∧
    ((-400)%Z, (-250)%Z) ∈ cell ∧
    (∀ k cell', voronoi (nodes mesh_sketch_layout) !! k = Some cell' →
       ((-400)%Z, (-250)%Z) ∈ cell' → k = Z.of_nat i) ∧
    (∀ j nj, nodes mesh_sketch_layout !! j = Some nj →
       (sample_distance (-400) (-250) node <= sample_distance (-400) (-250) nj)%R) ∧
    (∀ j nj, (j < i)%nat → nodes mesh_sketch_layout !! j = Some nj →
       (sample_distance (-400) (-250) node < sample_distance (-400) (-250) nj)%R).
Proof.
  apply (partition_nearest_first (nodes mesh_sketch_layout) (-400) (-250)).
  - apply first_sample.
  - destruct sketch_node_q as (node & Hnode & Hx & Hy). exists node.
    split; [by eapply list_elem_of_lookup_2|].
    destruct node as [nx ny nf]. simpl in Hx, Hy. subst nx ny.
    unfold sample_distance. simpl. rewrite dist_same. lra.
Defined.

(** For the nodes of the mesh sketch the condition holds at every sample:
    the node of "q" sits at (-400, -250), within the domain. *)
Lemma sketch_nodes_within_reach x y :
  (x, y) ∈ samples →
  ∃ near, near ∈ nodes mesh_sketch_layout ∧ (sample_distance x y near < 1e9)%R.
Proof.
  intros Hs. apply samples_in_domain in Hs as [[Hx1 Hx2] [Hy1 Hy2]].
  destruct sketch_node_q as (node & Hnode & Hx & Hy). exists node.
  split; [by eapply list_elem_of_lookup_2|].
  unfold sample_distance. rewrite Hx, Hy.
  apply IZR_le in Hx1, Hy1. apply IZR_lt in Hx2, Hy2.
  apply dist_lt; [lra|]. nra.
Qed.

Lemma far_node_unreached x y :
  (x, y) ∈ samples → assigned [far_node] (x, y) = (-1)%Z.
Proof.
  intros Hs. apply samples_in_domain in Hs as [[Hx1 Hx2] [Hy1 Hy2]].
  destruct (assigned_cases [far_node] x y) as [[H _]|(i & node & _ & Hi & Hlt & _)];
    [done|].
  apply list_lookup_singleton_Some in Hi as [_ <-].
  exfalso. apply (Rlt_not_le _ _ Hlt). unfold sample_distance, far_node. simpl.
  apply IZR_le in Hx1, Hy1. apply IZR_lt in Hx2, Hy2.
  apply dist_ge. nra.
Qed.

(** C2 as stated fails: the one-node set [far_node] is not empty, and the
    first sample (like every sample) ends in the cell of index -1, not in
    the cell of a node. *)
Lemma partition_far_node_unassigned :
  [far_node] ≠ [] ∧
  assigned [far_node] ((-400)%Z, (-250)%Z) = (-1)%Z ∧
  ¬ ∃ i node cell,
      [far_node] !! i = Some node ∧
      voronoi [far_node] !! Z.of_nat i = Some cell ∧
      ((-400)%Z, (-250)%Z) ∈ cell.
Proof.
  split; [done|]. split; [apply far_node_unreached, first_sample|].
  intros (i & node & cell & _ & Hcell & Hin).
  apply (voronoi_cell _ _ _ _ Hcell) in Hin as [Hs Hidx].
  rewrite (far_node_unreached _ _ Hs) in Hidx. lia.
Qed.

Lemma filter_all {A} (P : A → Prop) `{∀ a, Decision (P a)} (l : list A) :
  (∀ a, a ∈ l → P a) → filter P l = l.
Proof.
  induction l as [|a l IH]; intros Hall; [done|].
  rewrite filter_cons_True by apply Hall, list_elem_of_here.
  f_equal. apply IH. intros b Hb. by apply Hall, list_elem_of_further.
Qed.

Lemma filter_none {A} (P : A → Prop) `{∀ a, Decision (P a)} (l : list A) :
  (∀ a, a ∈ l → ¬ P a) → filter P l = [].
Proof.
  induction l as [|a l IH]; intros Hall; [done|].
  rewrite filter_cons_False by apply Hall, list_elem_of_here.
  apply IH. intros b Hb. by apply Hall, list_elem_of_further.
Qed.

Lemma assigned_nil s : assigned [] s = (-1)%Z.
Proof. reflexivity. Qed.

Lemma voronoi_nil : voronoi [] = {[ (-1)%Z := samples ]}.
Proof.
  apply map_eq. intros i. rewrite voronoi_lookup.
  destruct (decide (i = (-1)%Z)) as [->|Hi].
  - rewrite lookup_singleton_eq, filter_all by (intros; apply assigned_nil).
    pose proof first_sample as Hs. destruct samples; [by apply elem_of_nil in Hs|done].
  - rewrite lookup_singleton_ne by done.
    rewrite filter_none; [done|]. intros s _. by rewrite assigned_nil.
Qed.

(** C6, amended: on an empty node set every sample gets the index -1, and
    the mapping returned is not empty: it has the single key -1, whose cell
    holds every sample, in scan order. *)
Theorem partition_empty_nodes :
  (∀ s, assigned [] s = (-1)%Z) ∧
  voronoi [] = {[ (-1)%Z := samples ]} ∧
  length samples = 1600%nat.
Proof.
  split; [apply assigned_nil|]. split; [apply voronoi_nil|].
  by vm_compute.
Qed.

(** C6 as stated fails: the mapping of the empty node set is not empty. *)
Lemma partition_empty_nodes_not_empty :
  ¬ (voronoi [] = ∅ ∧ ∀ s, s ∈ samples → assigned [] s = (-1)%Z).
Proof.
  intros [Hempty _]. rewrite voronoi_nil in Hempty.
  apply (f_equal (λ m : gmap Z (list (Z * Z)), m !! (-1)%Z)) in Hempty.
  by rewrite lookup_singleton_eq, lookup_empty in Hempty.
Qed.

(** ** The image shuffle *)

Lemma js_index_Some {A} (l : list A) i a :
  js_index l i = Some a ↔ (0 ≤ i)%Z ∧ l !! Z.to_nat i = Some a.
Proof.
  unfold js_index. case_decide as Hi.
  - split; [by intros ?|by intros [_ ?]].
  - split; [done|by intros [? _]].
Qed.

Lemma js_index_in_range {A} (l : list A) i :
  (0 ≤ i < Z.of_nat (length l))%Z → is_Some (js_index l i).
Proof.
  intros [H0 Hlen]. unfold js_index. rewrite decide_True by done.
  apply lookup_lt_is_Some. lia.
Qed.

Lemma img_alter_set_img v i (cells : list Cell.t) :
  Cell.img <$> alter (Cell.set_img v) i cells = <[i := v]> (Cell.img <$> cells).
Proof.
  apply list_eq. intros j. rewrite list_lookup_fmap.
  destruct (decide (i = j)) as [<-|Hj].
  - rewrite list_lookup_alter_eq. destruct (cells !! i) as [c|] eqn:Hc; simpl.
    + rewrite list_lookup_insert_eq; [done|].
      rewrite length_fmap. eauto using lookup_lt_Some.
    + rewrite list_insert_ge; [by rewrite list_lookup_fmap, Hc|].
      rewrite length_fmap. by apply lookup_ge_None.
  - by rewrite list_lookup_alter_ne, list_lookup_insert_ne, list_lookup_fmap.
Qed.

Lemma motion_alter_set_img v i (cells : list Cell.t) :
  Cell.motion <$> alter (Cell.set_img v) i cells = Cell.motion <$> cells.
Proof.
  apply list_eq. intros j. rewrite !list_lookup_fmap.
  destruct (decide (i = j)) as [<-|Hj].
  - rewrite list_lookup_alter_eq. by destruct (cells !! i).
  - by rewrite list_lookup_alter_ne.
Qed.

Section Swap.
Variables (cells cells' : list Cell.t) (i j : Z).
Hypothesis Hswap : swap_img cells i j = Some cells'.

Lemma swap_img_inv :
  ∃ ci cj, (0 ≤ i)%Z ∧ (0 ≤ j)%Z ∧
    cells !! Z.to_nat i = Some ci ∧ cells !! Z.to_nat j = Some cj ∧
    cells' = alter (Cell.set_img (Cell.img ci)) (Z.to_nat j)
               (alter (Cell.set_img (Cell.img cj)) (Z.to_nat i) cells).
Proof.
  unfold swap_img in Hswap.
  destruct (js_index cells i) as [ci|] eqn:Hi; [simpl in Hswap|done].
  destruct (js_index cells j) as [cj|] eqn:Hj; [simpl in Hswap|done].
  apply js_index_Some in Hi as [? ?], Hj as [? ?].
  injection Hswap as <-. by exists ci, cj.
Qed.

Lemma swap_img_length : length cells' = length cells.
Proof.
  destruct swap_img_inv as (ci & cj & _ & _ & _ & _ & ->).
  by rewrite !length_alter.
Qed.

Lemma swap_img_motion : Cell.motion <$> cells' = Cell.motion <$> cells.
Proof.
  destruct swap_img_inv as (ci & cj & _ & _ & _ & _ & ->).
  by rewrite !motion_alter_set_img.
Qed.

Lemma swap_img_images : Cell.img <$> cells' ≡ₚ Cell.img <$> cells.
Proof.
  destruct swap_img_inv as (ci & cj & _ & _ & Hi & Hj & ->).
  rewrite !img_alter_set_img. apply Permutation_insert_swap.
  - by rewrite list_lookup_fmap, Hi.
  - by rewrite list_lookup_fmap, Hj.
Qed.
End Swap.

(** Drawing the same index twice swaps a cell's image with itself. *)
Lemma swap_img_self (cells : list Cell.t) i c :
  js_index cells i = Some c → swap_img cells i i = Some cells.
Proof.
  intros Hi. unfold swap_img. rewrite Hi. simpl. f_equal.
  apply js_index_Some in Hi as [_ Hi].
  apply list_eq. intros j. destruct (decide (Z.to_nat i = j)) as [<-|Hj].
  - rewrite !list_lookup_alter_eq, Hi. simpl. by destruct c.
  - by rewrite !list_lookup_alter_ne.
Qed.

Lemma swaps_preserve rnd n : ∀ calls cells,
  let cells' := (swaps rnd n calls cells).1.2 in
  length cells' = length cells ∧
  Cell.img <$> cells' ≡ₚ Cell.img <$> cells ∧
  Cell.motion <$> cells' = Cell.motion <$> cells.
Proof.
  induction n as [|n IH]; intros calls cells; simpl; [done|].
  destruct (swap_img cells _ _) as [cells1|] eqn:Hswap; [|done].
  destruct (IH (S (S calls)) cells1) as (Hlen & Himg & Hmotion).
  split; [|split].
  - rewrite Hlen. by eapply swap_img_length.
  - rewrite Himg. by eapply swap_img_images.
  - rewrite Hmotion. by eapply swap_img_motion.
Qed.

Lemma shuffle_preserve rnd now now' st :
  let st' := (shuffle rnd now now' st).2 in
  length (spermCells st') = length (spermCells st) ∧
  Cell.img <$> spermCells st' ≡ₚ Cell.img <$> spermCells st ∧
  Cell.motion <$> spermCells st' = Cell.motion <$> spermCells st.
Proof.
  unfold shuffle. case_decide; [|done].
  pose proof (swaps_preserve rnd swapsPerInterval (calls st) (spermCells st)) as H'.
  destruct (swaps rnd swapsPerInterval (calls st) (spermCells st)) as [[[] cells] n];
    apply H'.
Qed.

Lemma shuffles_preserve rnd clock : ∀ st,
  let st' := (shuffles rnd clock st).2 in
  length (spermCells st') = length (spermCells st) ∧
  Cell.img <$> spermCells st' ≡ₚ Cell.img <$> spermCells st ∧
  Cell.motion <$> spermCells st' = Cell.motion <$> spermCells st.
Proof.
  induction clock as [|[now now'] clock IH]; intros st; simpl; [done|].
  pose proof (shuffle_preserve rnd now now' st) as H1.
  destruct (shuffle rnd now now' st) as [[] st1]; simpl in *; [|done].
  destruct (IH st1) as (Hlen & Himg & Hmotion).
  destruct H1 as (Hlen1 & Himg1 & Hmotion1).
  split; [|split].
  - by rewrite Hlen.
  - by rewrite Himg.
  - by rewrite Hmotion.
Qed.

Lemma random_index_in_range u (cells : list Cell.t) :
  (0 <= u < 1)%R → cells ≠ [] →
  (0 ≤ random_index u cells < Z.of_nat (length cells))%Z.
Proof.
  intros [Hu0 Hu1] Hne. unfold random_index, P5.floor, P5.random1.
  assert (Hlen : (0 < INR (length cells))%R).
  { apply lt_0_INR. destruct cells; [done|simpl; lia]. }
  pose proof (Zfloor_bound (u * INR (length cells))) as [Hlo Hhi].
  split.
  - apply Zfloor_lub. simpl. nra.
  - apply lt_IZR. rewrite <- INR_IZR_INZ. nra.
Qed.

Lemma random_index_nil u : random_index u [] = 0%Z.
Proof.
  unfold random_index, P5.floor, P5.random1. simpl.
  rewrite Rmult_0_r. apply (ZfloorZ 0).
Qed.

Lemma swap_img_nil i j : swap_img [] i j = None.
Proof. unfold swap_img, js_index. by destruct (decide (0 ≤ i)%Z). Qed.

Lemma swap_img_in_range (cells : list Cell.t) i j :
  (0 ≤ i < Z.of_nat (length cells))%Z → (0 ≤ j < Z.of_nat (length cells))%Z →
  is_Some (swap_img cells i j).
Proof.
  intros Hi Hj. unfold swap_img.
  destruct (js_index_in_range cells i Hi) as [ci ->].
  destruct (js_index_in_range cells j Hj) as [cj ->]. simpl. eauto.
Qed.

Lemma swaps_returns rnd n : ∀ calls cells,
  fair rnd → cells ≠ [] →
  ∃ cells', swaps rnd n calls cells = (Returned, cells', (calls + 2 * n)%nat).
Proof.
  induction n as [|n IH]; intros calls cells Hfair Hne; simpl.
  - exists cells. f_equal. lia.
  - destruct (swap_img_in_range cells (random_index (rnd calls) cells)
                (random_index (rnd (S calls)) cells)) as [cells1 Hswap];
      [by apply random_index_in_range..|].
    rewrite Hswap.
    destruct (IH (S (S calls)) cells1 Hfair) as [cells' ->].
    + apply swap_img_length in Hswap. intros ->. by destruct cells.
    + exists cells'. f_equal. lia.
Qed.

Lemma swaps_throws_on_nil rnd n calls :
  swaps rnd (S n) calls [] = (Threw, [], S (S calls)).
Proof. simpl. by rewrite swap_img_nil. Qed.

Lemma shuffles_returns rnd clock : ∀ st,
  fair rnd → spermCells st ≠ [] → (shuffles rnd clock st).1 = Returned.
Proof.
  induction clock as [|[now now'] clock IH]; intros st Hfair Hne; simpl; [done|].
  unfold shuffle. case_decide; [|by apply IH].
  destruct (swaps_returns rnd swapsPerInterval (calls st) (spermCells st) Hfair Hne)
    as [cells' Hswaps].
  pose proof (swaps_preserve rnd swapsPerInterval (calls st) (spermCells st)) as (Hlen & _).
  rewrite Hswaps in *. simpl in *. apply IH; [done|]. simpl.
  intros ->. by destruct (spermCells st).
Qed.

(** C5: whatever the draws and the clock readings, a run of shuffle blocks
    (each due one making 36 swaps between two drawn indices) keeps the
    number of cells and the multiset of their images, and leaves the
    position, velocity, anchor, scale, angle and angular speed of every cell
    as they were; drawing the same index twice is a swap that changes
    nothing; and with draws in [0, 1) on a swarm that is not empty no block
    of the run throws. *)
Theorem shuffle_preserves_swarm (rnd : tape) (clock : list (R * R)) (st : swarm) :
  let st' := (shuffles rnd clock st).2 in
  length (spermCells st') = length (spermCells st) ∧
  Cell.img <$> spermCells st' ≡ₚ Cell.img <$> spermCells st ∧
  Cell.motion <$> spermCells st' = Cell.motion <$> spermCells st ∧
  (∀ i c, js_index (spermCells st) i = Some c →
     swap_img (spermCells st) i i = Some (spermCells st)) ∧
  (fair rnd → spermCells st ≠ [] → (shuffles rnd clock st).1 = Returned).
Proof.
  destruct (shuffles_preserve rnd clock st) as (Hlen & Himg & Hmotion).
  repeat split; try done.
  - apply swap_img_self.
  - apply shuffles_returns.
Qed.

(** C10: with draws in [0, 1), the swap loop is total and in bounds exactly
    on a swarm that is not empty: then both indices of every round lie in
    [0, n) and the 36 rounds return; on the empty swarm the index drawn is
    0, the swap reads a cell of the empty list, and the first round
    throws. *)
Theorem shuffle_total_iff_nonempty (rnd : tape) (calls : nat) (cells : list Cell.t) :
  fair rnd →
  (cells ≠ [] →
     (∀ n, (0 ≤ random_index (rnd n) cells < Z.of_nat (length cells))%Z) ∧
     ∃ cells', swaps rnd swapsPerInterval calls cells = (Returned, cells', (calls + 72)%nat)) ∧
  (cells = [] →
     (∀ n, random_index (rnd n) cells = 0%Z) ∧
     js_index cells 0 = None ∧
     swaps rnd swapsPerInterval calls cells = (Threw, [], (calls + 2)%nat)) ∧
  ((swaps rnd swapsPerInterval calls cells).1.1 = Returned ↔ cells ≠ []).
Proof.
  intros Hfair. split; [|split].
  - intros Hne. split; [intros n; by apply random_index_in_range|].
    by apply (swaps_returns rnd swapsPerInterval calls cells).
  - intros ->. split; [intros n; apply random_index_nil|]. split; [done|].
    unfold swapsPerInterval. rewrite swaps_throws_on_nil. f_equal. lia.
  - split.
    + intros Hret ->. unfold swapsPerInterval in Hret.
      by rewrite swaps_throws_on_nil in Hret.
    + intros Hne.
      destruct (swaps_returns rnd swapsPerInterval calls cells Hfair Hne) as [cells' ->].
      done.
Qed.

Lemma half_tape_fair : fair half_tape.
Proof. intros n. unfold half_tape. lra. Qed.

Lemma shuffle_total_iff_nonempty_witness :
  (two_cells ≠ [] →
     (∀ n, (0 ≤ random_index (half_tape n) two_cells < Z.of_nat (length two_cells))%Z) ∧
     ∃ cells', swaps half_tape swapsPerInterval 0 two_cells = (Returned, cells', (0 + 72)%nat)) ∧
  (two_cells = [] →
     (∀ n, random_index (half_tape n) two_cells = 0%Z) ∧
     js_index two_cells 0 = None ∧
     swaps half_tape swapsPerInterval 0 two_cells = (Threw, [], (0 + 2)%nat)) ∧
  ((swaps half_tape swapsPerInterval 0 two_cells).1.1 = Returned ↔ two_cells ≠ []).
Proof.
  apply (shuffle_total_iff_nonempty half_tape 0 two_cells). apply half_tape_fair.
Defined.

(** A swap of two different cells exchanges their images and nothing else. *)
Example swap_img_two_cells :
  swap_img two_cells 0 1 =
  Some [Cell.mk 0 0 0 0 (Some 1%nat) None 1 0 0; Cell.mk 60 0 0 0 (Some 0%nat) None 1 0 0].
Proof. reflexivity. Qed.

(** ** Scattering the cells *)

Section ScatterProofs.
Local Open Scope R_scope.
Variables (width height : R) (assets : list image) (rnd : tape).

Lemma conflict_false cells candidate :
  conflict cells candidate = false →
  Forall (λ cell, minSpacing <= P5.dist (Cell.x cell) (Cell.y cell) candidate.1 candidate.2)
    cells.
Proof.
  induction cells as [|cell cells IH]; simpl; intros Hc; [constructor|].
  case_decide as Hd; [done|]. constructor; [|by apply IH].
  by apply Rnot_lt_le.
Qed.

Lemma conflict_true cells candidate cell :
  cell ∈ cells →
  P5.dist (Cell.x cell) (Cell.y cell) candidate.1 candidate.2 < minSpacing →
  conflict cells candidate = true.
Proof.
  induction cells as [|c cells IH]; intros Hin Hd; [by apply elem_of_nil in Hin|].
  simpl. case_decide as Hc; [done|].
  apply elem_of_cons in Hin as [->|Hin]; [done|]. by apply IH.
Qed.

(** The search ends with a candidate; when it ends before the 30 attempts
    are used up, the candidate is in conflict with no cell placed so far. *)
Lemma search_result cells left : ∀ attempts candidate calls,
  (attempts + left = 30)%nat →
  let r := search width height rnd left attempts cells candidate calls in
  (r.1.2 ≤ 30)%nat ∧
  ((0 < left)%nat ∨ is_Some candidate → is_Some r.1.1) ∧
  ((r.1.2 < 30)%nat → ∃ c, r.1.1 = Some c ∧ conflict cells c = false).
Proof.
  induction left as [|left IH]; intros attempts candidate calls Hleft; simpl.
  - split; [lia|]. split; [|lia]. intros [?|?]; [lia|done].
  - destruct (conflict cells _) eqn:Hc.
    + destruct (IH (S attempts)
                  (Some (P5.random2 (rnd calls) (- width / 2 + marginX) (width / 2 - marginX),
                         P5.random2 (rnd (S calls)) (- height / 2 + marginY) (height / 2 - marginY)))
                  (S (S calls))) as (Hle & Hsome & Hfree); [lia|].
      split; [done|]. split; [|done]. intros _. apply Hsome. right. eauto.
    + simpl. split; [lia|]. split; [eauto|]. intros _. eauto.
Qed.

Lemma place_spaced i st :
  spaced st →
  ∃ st', place width height assets rnd i st = Some st' ∧
    length (placed st') = S (length (placed st)) ∧ spaced st' ∧
    placed st `prefix_of` placed st' ∧ attempts_log st `prefix_of` attempts_log st'.
Proof.
  intros [Hlen Hsp]. unfold place.
  pose proof (search_result (placed st) 30 0 None (drawn st) eq_refl) as (_ & Hsome & Hfree).
  destruct (search width height rnd 30 0 (placed st) None (drawn st)) as [[candidate a] n].
  simpl in *. destruct Hsome as [c ->]; [left; lia|]. simpl.
  eexists. split; [done|]. simpl. split; [rewrite length_app; simpl; lia|].
  split; [|split; by apply prefix_app_r].
  split; simpl; [by rewrite !length_app, Hlen|].
  intros i' j ci cj aj Hij Hi Hj Ha Haj.
  apply lookup_snoc_Some in Hj as [[Hjlt Hj]|[Hjlen <-]].
  - rewrite lookup_app_l in Hi by lia. rewrite lookup_app_l in Ha by lia.
    exact (Hsp i' j ci cj aj Hij Hi Hj Ha Haj).
  - rewrite lookup_app_l in Hi by lia.
    rewrite lookup_app_r, Hlen, Hjlen, Nat.sub_diag in Ha by lia.
    injection Ha as <-. destruct (Hfree Haj) as (c' & [= <-] & Hc).
    apply conflict_false in Hc. rewrite Forall_forall in Hc.
    apply (Hc ci). by eapply list_elem_of_lookup_2.
Qed.

Lemma scatter_spaced n :
  ∃ st, scatter width height assets rnd n = Some st ∧
    length (placed st) = n ∧ spaced st.
Proof.
  induction n as [|n (st & Hst & Hlen & Hsp)]; simpl.
  - eexists. split; [done|]. split; [done|]. split; [done|].
    intros i j ci cj aj _ Hi. simpl in Hi. by rewrite lookup_nil in Hi.
  - rewrite Hst. simpl.
    destruct (place_spaced n st Hsp) as (st' & -> & Hlen' & Hsp' & _).
    exists st'. split; [done|]. split; [lia|done].
Qed.

(** Later rounds only append. *)
Lemma scatter_prefix n m st st' :
  (n ≤ m)%nat →
  scatter width height assets rnd n = Some st →
  scatter width height assets rnd m = Some st' →
  placed st `prefix_of` placed st' ∧ attempts_log st `prefix_of` attempts_log st'.
Proof.
  intros Hnm Hst. revert st'. induction Hnm as [|m Hnm IH]; intros st' Hst'.
  - rewrite Hst in Hst'. by injection Hst' as <-.
  - simpl in Hst'. destruct (scatter_spaced m) as (stm & Hm & _ & Hsp).
    rewrite Hm in Hst'. simpl in Hst'.
    destruct (place_spaced m stm Hsp) as (st'' & Hpl & _ & _ & Hp1 & Hp2).
    rewrite Hpl in Hst'. injection Hst' as <-.
    destruct (IH stm Hm) as [Hq1 Hq2].
    split; by etrans.
Qed.
End ScatterProofs.

(** With a generator that always draws the same value every candidate is
    the same point: the first cell takes it at once, the second finds it
    taken 30 times and is put there all the same. *)
Section ConstantTape.
Local Open Scope R_scope.
Variables (width height : R) (assets : list image) (u : R).

Lemma search_always_conflict cells left : ∀ attempts candidate calls,
  conflict cells (only_candidate width height u) = true →
  search width height (λ _, u) left attempts cells candidate calls
  = (match left with O => candidate | S _ => Some (only_candidate width height u) end,
     (attempts + left)%nat, (calls + 2 * left)%nat).
Proof.
  induction left as [|left IH]; intros attempts candidate calls Hc; simpl.
  - f_equal; [f_equal|]; lia.
  - fold (only_candidate width height u). rewrite Hc, IH by done.
    f_equal; [f_equal; [by destruct left|lia]|lia].
Qed.

Lemma search_no_conflict cells left attempts candidate calls :
  conflict cells (only_candidate width height u) = false →
  search width height (λ _, u) (S left) attempts cells candidate calls
  = (Some (only_candidate width height u), attempts, S (S calls)).
Proof. intros Hc. simpl. fold (only_candidate width height u). by rewrite Hc. Qed.

Lemma scatter_constant_tape :
  ∃ st c0 c1,
    scatter width height assets (λ _, u) 2 = Some st ∧
    placed st = [c0; c1] ∧ attempts_log st = [0%nat; 30%nat] ∧
    cell_distance c0 c1 = 0.
Proof.
  assert (H0 : ∃ c0, place width height assets (λ _, u) 0 (Scattered [] 0 [])
                 = Some (Scattered [c0] 7 [0%nat]) ∧
                 (Cell.x c0, Cell.y c0) = (only_candidate width height u)).
  { unfold place. cbn [placed drawn attempts_log].
    rewrite search_no_conflict by done. simpl. eauto. }
  destruct H0 as (c0 & H0 & Hc0).
  assert (Hconflict : conflict [c0] (only_candidate width height u) = true).
  { apply (conflict_true [c0] (only_candidate width height u) c0); [apply list_elem_of_here|].
    rewrite <- Hc0. simpl. rewrite dist_same. unfold minSpacing. lra. }
  assert (H1 : ∃ c1, place width height assets (λ _, u) 1 (Scattered [c0] 7 [0%nat])
                 = Some (Scattered [c0; c1] 72 [0%nat; 30%nat]) ∧
                 (Cell.x c1, Cell.y c1) = (only_candidate width height u)).
  { unfold place. cbn [placed drawn attempts_log].
    rewrite search_always_conflict by done. simpl. eauto. }
  destruct H1 as (c1 & H1 & Hc1).
  exists (Scattered [c0; c1] 72 [0%nat; 30%nat]), c0, c1.
  split; [|split; [done|split; [done|]]].
  - change (scatter width height assets (λ _, u) 2)
      with (place width height assets (λ _, u) 0 (Scattered [] 0 [])
              ≫= place width height assets (λ _, u) 1).
    rewrite H0. simpl. exact H1.
  - unfold cell_distance. injection Hc0 as -> ->. injection Hc1 as -> ->.
    apply dist_same.
Qed.
End ConstantTape.

(** C7: the scattering of [sperm2.js] never fails and places 800 cells;
    any two cells that were both accepted before their 30 attempts were
    used up are at least 50 apart; a cell placed after using up its
    attempts has no such guarantee: with a generator that always draws one
    half, the second cell uses up its attempts and lands on the first. *)
Theorem scatter_spacing (width height : R) (assets : list image) (rnd : tape) :
  (∃ st, setup_cells width height assets rnd = Some st ∧
     length (placed st) = 800%nat ∧ length (attempts_log st) = 800%nat ∧
     ∀ i j ci cj ai aj, i ≠ j →
       placed st !! i = Some ci → placed st !! j = Some cj →
       attempts_log st !! i = Some ai → attempts_log st !! j = Some aj →
       (ai < 30)%nat → (aj < 30)%nat →
       (minSpacing <= cell_distance ci cj)%R) ∧
  (∃ st c0 c1,
     setup_cells width height assets half_tape = Some st ∧
     placed st !! 0%nat = Some c0 ∧ placed st !! 1%nat = Some c1 ∧
     attempts_log st !! 0%nat = Some 0%nat ∧ attempts_log st !! 1%nat = Some 30%nat ∧
     (cell_distance c0 c1 < minSpacing)%R).
Proof.
  split.
  - destruct (scatter_spaced width height assets rnd desiredAssetCount)
      as (st & Hst & Hlen & Hlog & Hsp).
    exists st. split; [done|]. split; [done|]. split; [by rewrite Hlog|].
    intros i j ci cj ai aj Hij Hi Hj Hai Haj Hlti Hltj.
    destruct (decide (i < j)%nat) as [Hlt|Hge].
    + exact (Hsp i j ci cj aj Hlt Hi Hj Haj Hltj).
    + unfold cell_distance. rewrite dist_sym.
      apply (Hsp j i cj ci ai); [lia|done..].
  - destruct (scatter_spaced width height assets half_tape desiredAssetCount)
      as (st & Hst & _).
    destruct (scatter_constant_tape width height assets (1 / 2))
      as (st2 & c0 & c1 & Hst2 & Hplaced & Hlog & Hd).
    destruct (scatter_prefix width height assets half_tape 2 desiredAssetCount st2 st)
      as [[cells Hcells] [log Hlog']]; [unfold desiredAssetCount; lia|done..|].
    exists st, c0, c1. split; [done|].
    rewrite Hcells, Hlog', Hplaced, Hlog. repeat split; try done.
    rewrite Hd. unfold minSpacing. lra.
Qed.

(** ** The free mesh: every node inactive *)

Section Free.
Local Open Scope R_scope.
Variable nodes : list Node.t.
Hypothesis inactive : Forall (λ node, Node.force node = 0) nodes.

Lemma inactive_not_captured p node : node ∈ nodes → ¬ captures p node.
Proof.
  intros Hin [Hf _]. rewrite Forall_forall in inactive.
  rewrite (inactive node Hin) in Hf. lra.
Qed.

Lemma step_point_free k p : step_point k nodes p = step_point k [] p.
Proof.
  rewrite !step_point_force. unfold total_force.
  rewrite filter_none by (intros node Hin; by apply inactive_not_captured).
  done.
Qed.

Lemma iter_step_point_free k n p :
  Nat.iter n (step_point k nodes) p = Nat.iter n (step_point k []) p.
Proof. induction n as [|n IH]; simpl; [done|]. by rewrite step_point_free, IH. Qed.
End Free.

Section Spring.
Local Open Scope R_scope.

Lemma axis_energy_step e v :
  axis_energy (e + (v + - e * 0.08) * 0.88) ((v + - e * 0.08) * 0.88)
  = 0.88 * axis_energy e v.
Proof. unfold axis_energy. lra. Qed.

Lemma axis_energy_bounds e v : 0 <= axis_energy e v ∧ e * e <= 15 * axis_energy e v.
Proof. unfold axis_energy. split; nra. Qed.

Lemma energy_step p : energy (step_point 0.08 [] p) = 0.88 * energy p.
Proof.
  unfold energy at 2.
  rewrite Rmult_plus_distr_l.
  rewrite <- (axis_energy_step (Point.x p - Point.rest_x p) (Point.vx p)).
  rewrite <- (axis_energy_step (Point.y p - Point.rest_y p) (Point.vy p)).
  unfold energy, step_point. simpl. f_equal; f_equal; lra.
Qed.

Lemma step_point_rest k nodes p :
  Point.rest_x (step_point k nodes p) = Point.rest_x p ∧
  Point.rest_y (step_point k nodes p) = Point.rest_y p.
Proof. done. Qed.

Lemma iter_step_point_rest k nodes n p :
  Point.rest_x (Nat.iter n (step_point k nodes) p) = Point.rest_x p ∧
  Point.rest_y (Nat.iter n (step_point k nodes) p) = Point.rest_y p.
Proof. induction n as [|n IH]; simpl; [done|]. apply IH. Qed.

Lemma energy_iter n p :
  energy (Nat.iter n (step_point 0.08 []) p) = 0.88 ^ n * energy p.
Proof.
  induction n as [|n IH]; simpl; [lra|]. rewrite energy_step, IH. lra.
Qed.

Lemma energy_nonneg p : 0 <= energy p.
Proof.
  unfold energy.
  pose proof (axis_energy_bounds (Point.x p - Point.rest_x p) (Point.vx p)).
  pose proof (axis_energy_bounds (Point.y p - Point.rest_y p) (Point.vy p)).
  lra.
Qed.

Lemma rest_distance_energy p :
  rest_distance p * rest_distance p <= 15 * energy p.
Proof.
  unfold rest_distance, energy. rewrite dist_sqr.
  pose proof (axis_energy_bounds (Point.x p - Point.rest_x p) (Point.vx p)).
  pose proof (axis_energy_bounds (Point.y p - Point.rest_y p) (Point.vy p)).
  nra.
Qed.

Lemma free_point_converges p ε :
  0 < ε → ∃ N, ∀ n, (N ≤ n)%nat →
    rest_distance (Nat.iter n (step_point 0.08 []) p) < ε.
Proof.
  intros Hε.
  destruct (pow_lt_1_zero 0.88) with (y := ε * ε / (15 * energy p + 1)) as [N HN].
  - rewrite Rabs_pos_eq; lra.
  - pose proof (energy_nonneg p). apply Rdiv_lt_0_compat; nra.
  - exists N. intros n Hn. specialize (HN n Hn).
    pose proof (energy_nonneg p) as HE.
    assert (Hpow : 0 <= 0.88 ^ n) by (apply pow_le; lra).
    rewrite Rabs_pos_eq in HN by done.
    pose proof (rest_distance_energy (Nat.iter n (step_point 0.08 []) p)) as Hd.
    rewrite energy_iter in Hd.
    assert (Hlt : 0.88 ^ n * (15 * energy p + 1) < ε * ε).
    { apply (Rmult_lt_compat_r (15 * energy p + 1)) in HN; [|lra].
      unfold Rdiv in HN. rewrite Rmult_assoc, Rinv_l, Rmult_1_r in HN by lra. done. }
    pose proof (dist_nonneg (Point.x (Nat.iter n (step_point 0.08 []) p))
                  (Point.y (Nat.iter n (step_point 0.08 []) p))
                  (Point.rest_x (Nat.iter n (step_point 0.08 []) p))
                  (Point.rest_y (Nat.iter n (step_point 0.08 []) p))) as H0.
    fold (rest_distance (Nat.iter n (step_point 0.08 []) p)) in H0.
    nra.
Qed.
End Spring.

Lemma run_physics_iter k_rest nodes n : ∀ mesh : mesh_t,
  grid_shaped mesh →
  run_physics k_rest nodes n mesh = Some (Nat.iter n (simultaneous k_rest nodes) mesh) ∧
  grid_shaped (Nat.iter n (simultaneous k_rest nodes) mesh).
Proof.
  induction n as [|n IH]; intros mesh Hgrid; [done|].
  change (run_physics k_rest nodes (S n) mesh)
    with (mesh_physics k_rest nodes mesh ≫= run_physics k_rest nodes n).
  rewrite mesh_physics_simultaneous by done. simpl.
  destruct (IH (simultaneous k_rest nodes mesh)) as [-> Hgrid'];
    [by apply simultaneous_grid_shaped|].
  change (simultaneous k_rest nodes (Nat.iter n (simultaneous k_rest nodes) mesh))
    with (Nat.iter (S n) (simultaneous k_rest nodes) mesh).
  by rewrite Nat.iter_succ_r.
Qed.

Lemma at2_iter_simultaneous k_rest nodes n : ∀ (mesh : mesh_t) y x,
  at2 (Nat.iter n (simultaneous k_rest nodes) mesh) y x
  = Nat.iter n (step_point k_rest nodes) <$> at2 mesh y x.
Proof.
  induction n as [|n IH]; intros mesh y x; simpl.
  - by destruct (at2 mesh y x).
  - rewrite at2_simultaneous, IH. by destruct (at2 mesh y x).
Qed.

Lemma run_physics_point k_rest nodes n (mesh : mesh_t) y x p :
  grid_shaped mesh → at2 mesh y x = Some p →
  ∃ mesh', run_physics k_rest nodes n mesh = Some mesh' ∧
    at2 mesh' y x = Some (Nat.iter n (step_point k_rest nodes) p).
Proof.
  intros Hgrid Hp. destruct (run_physics_iter k_rest nodes n mesh Hgrid) as [-> _].
  eexists. split; [done|]. by rewrite at2_iter_simultaneous, Hp.
Qed.

(** C8, amended: with every node inactive, repeated passes bring each grid
    point within any epsilon of its rest position after sufficiently many
    passes; the distance to rest need not decrease from pass to pass (a
    moving point overshoots), what decreases is the energy
    [0.0704 e^2 + 0.0496 e v + 0.88 v^2], summed over the two axes ([e] the
    displacement from rest, [v] the velocity): each pass multiplies it by
    0.88, and 15 times the energy bounds the squared distance to rest. *)
Theorem free_mesh_converges (nodes : list Node.t) (mesh : mesh_t) (y x : nat)
    (p : Point.t) :
  grid_shaped mesh →
  Forall (λ node, Node.force node = 0%R) nodes →
  at2 mesh y x = Some p →
  (∀ n, ∃ mesh' p',
     run_physics 0.08 nodes n mesh = Some mesh' ∧ at2 mesh' y x = Some p' ∧
     Point.rest_x p' = Point.rest_x p ∧ Point.rest_y p' = Point.rest_y p ∧
     (energy p' = 0.88 ^ n * energy p)%R ∧
     (rest_distance p' * rest_distance p' <= 15 * energy p')%R) ∧
  (∀ ε, (0 < ε)%R → ∃ N, ∀ n, (N ≤ n)%nat → ∃ mesh' p',
     run_physics 0.08 nodes n mesh = Some mesh' ∧ at2 mesh' y x = Some p' ∧
     (rest_distance p' < ε)%R).
Proof.
  intros Hgrid Hfree Hp. split.
  - intros n. destruct (run_physics_point 0.08 nodes n mesh y x p Hgrid Hp)
      as (mesh' & Hrun & Hat).
    exists mesh', (Nat.iter n (step_point 0.08 nodes) p).
    split; [done|]. split; [done|].
    destruct (iter_step_point_rest 0.08 nodes n p) as [Hx Hy].
    split; [done|]. split; [done|].
    rewrite iter_step_point_free by done.
    split; [apply energy_iter|apply rest_distance_energy].
  - intros ε Hε. destruct (free_point_converges p ε Hε) as [N HN].
    exists N. intros n Hn.
    destruct (run_physics_point 0.08 nodes n mesh y x p Hgrid Hp)
      as (mesh' & Hrun & Hat).
    exists mesh', (Nat.iter n (step_point 0.08 nodes) p).
    split; [done|]. split; [done|].
    rewrite iter_step_point_free by done. by apply HN.
Qed.

(** [setup] leaves every node inactive. *)
Lemma setup_nodes_inactive l r t b :
  Forall (λ node, Node.force node = 0%R) (nodes (setup_nodes l r t b)).
Proof.
  unfold setup_nodes. apply foldl_i_ind; [constructor|].
  intros st row keys Hst. unfold add_row. apply foldl_i_ind; [done|].
  intros st' col key Hst'. unfold add_key. simpl.
  apply Forall_app. split; [done|]. by constructor.
Qed.

Lemma setup_mesh_at2 l r t b y x :
  (y < rows_)%nat → (x < cols)%nat →
  at2 (setup_mesh l r t b) y x = Some (mesh_point l r t b y x).
Proof.
  intros Hy Hx. unfold at2, setup_mesh.
  rewrite list_lookup_fmap, lookup_seq_lt by done. cbn [fmap option_fmap option_map mbind option_bind].
  by rewrite list_lookup_fmap, lookup_seq_lt by done.
Qed.

Lemma free_mesh_converges_witness :
  (∀ n, ∃ mesh' p',
     run_physics 0.08 (nodes mesh_sketch_layout) n mesh_sketch_mesh = Some mesh' ∧
     at2 mesh' 0 1 = Some p' ∧
     Point.rest_x p' = Point.rest_x (mesh_point (-400) 400 (-250) 250 0 1) ∧
     Point.rest_y p' = Point.rest_y (mesh_point (-400) 400 (-250) 250 0 1) ∧
     (energy p' = 0.88 ^ n * energy (mesh_point (-400) 400 (-250) 250 0 1))%R ∧
     (rest_distance p' * rest_distance p' <= 15 * energy p')%R) ∧
  (∀ ε, (0 < ε)%R → ∃ N, ∀ n, (N ≤ n)%nat → ∃ mesh' p',
     run_physics 0.08 (nodes mesh_sketch_layout) n mesh_sketch_mesh = Some mesh' ∧
     at2 mesh' 0 1 = Some p' ∧
     (rest_distance p' < ε)%R).
Proof.
  apply (free_mesh_converges (nodes mesh_sketch_layout) mesh_sketch_mesh 0 1
           (mesh_point (-400) 400 (-250) 250 0 1)).
  - apply setup_mesh_grid_shaped.
  - apply setup_nodes_inactive.
  - apply setup_mesh_at2; unfold rows_, cols; lia.
Defined.

(** ** One frame with "q" held, then released *)

Section HeldThenReleased.
Local Open Scope R_scope.

Lemma dist_on_a_row x1 x2 y : x2 <= x1 → P5.dist x1 y x2 y = x1 - x2.
Proof.
  intros Hx. unfold P5.dist.
  replace ((x2 - x1) * (x2 - x1) + (y - y) * (y - y)) with ((x1 - x2) * (x1 - x2)) by ring.
  apply sqrt_square. lra.
Qed.

Lemma dist_on_a_row_right x1 x2 y : x1 <= x2 → P5.dist x1 y x2 y = x2 - x1.
Proof. intros Hx. rewrite dist_sym. by apply dist_on_a_row. Qed.

Lemma step_point_one_active k p node rest :
  Forall (λ node, Node.force node = 0) rest → captures p node →
  step_point k (node :: rest) p = step_point k [node] p.
Proof.
  intros Hrest Hnode. rewrite !step_point_force. unfold total_force.
  rewrite !filter_cons_True by done.
  rewrite filter_none by (intros n Hin; by apply (inactive_not_captured rest)).
  done.
Qed.

Lemma mesh_point_0_1 :
  mesh_point (-400) 400 (-250) 250 0 1
  = Point.mk (-6800 / 19) (-250) 0 0 (-6800 / 19) (-250).
Proof.
  unfold mesh_point, P5.map. rewrite !INR_IZR_INZ. unfold cols, rows_.
  change (Z.of_nat 1) with 1%Z. change (Z.of_nat 0) with 0%Z.
  change (Z.of_nat 20) with 20%Z. change (Z.of_nat 14) with 14%Z.
  f_equal; lra.
Qed.

Lemma held_step :
  step_point 0.08 [Node.mk (-400) (-250) 1] (Point.mk (-6800 / 19) (-250) 0 0 (-6800 / 19) (-250))
  = released_point.
Proof.
  unfold step_point, released_point. simpl. unfold pull. simpl.
  rewrite dist_on_a_row by lra.
  rewrite decide_True by lra. simpl. f_equal; lra.
Qed.

Lemma released_step :
  step_point 0.08 [] released_point
  = Point.mk (-6800 / 19 - 23056 / 27075 - 0.8096 * (23056 / 27075)) (-250)
      (- (0.8096 * (23056 / 27075))) 0 (-6800 / 19) (-250).
Proof. unfold step_point, released_point. simpl. f_equal; lra. Qed.

Lemma released_overshoots :
  rest_distance released_point < rest_distance (step_point 0.08 [] released_point).
Proof.
  rewrite released_step. unfold rest_distance, released_point. simpl.
  rewrite !dist_on_a_row_right by lra. lra.
Qed.
End HeldThenReleased.

Section OneFrameHeld.
Variables (L : layout) (nq : Node.t).
Hypothesis Hk : keyToNode L !! toLowerCase "q" = Some 0%nat.
Hypothesis Hq : nodes L !! 0%nat = Some nq.
Hypothesis Hqx : Node.x nq = (-400)%R.
Hypothesis Hqy : Node.y nq = (-250)%R.
Hypothesis Hinactive : Forall (λ node, Node.force node = 0%R) (nodes L).

Lemma held_then_released :
  let held := (keyPressed "q" L).2 in
  let idle := (keyReleased "q" held).2 in
  ∃ mesh1 mesh2 p1 p2,
    mesh_physics 0.08 (nodes held) mesh_sketch_mesh = Some mesh1 ∧
    Forall (λ node, Node.force node = 0%R) (nodes idle) ∧
    mesh_physics 0.08 (nodes idle) mesh1 = Some mesh2 ∧
    at2 mesh1 0 1 = Some p1 ∧ at2 mesh2 0 1 = Some p2 ∧
    (rest_distance p1 < rest_distance p2)%R.
Proof.
  intros held idle.
  assert (Hheld : nodes held = alter (set_force 1) 0%nat (nodes L)).
  { unfold held. by rewrite (keyPressed_known L "q" 0 nq Hk Hq). }
  assert (Hidle : nodes idle = alter (set_force 0) 0%nat (nodes L)).
  { unfold idle, held. rewrite (keyPressed_known L "q" 0 nq Hk Hq).
    cbn [snd].
    rewrite (keyReleased_known (Layout (alter (set_force 1) 0%nat (nodes L)) (keyToNode L))
               "q" 0 (set_force 1 nq) Hk).
    - cbn [snd nodes]. by rewrite alter_set_force_twice.
    - cbn [nodes]. by rewrite list_lookup_alter_eq, Hq. }
  assert (Hfree : Forall (λ node, Node.force node = 0%R) (nodes idle)).
  { rewrite Hidle. apply Forall_alter; [done|]. by intros node _ _. }
  destruct (nodes L) as [|nq' rest] eqn:Hnodes; [done|].
  injection Hq as ->. apply Forall_cons in Hinactive as [Hq0 Hrest].
  assert (Hnq : set_force 1 nq = Node.mk (-400) (-250) 1).
  { destruct nq. simpl in *. unfold set_force. simpl. by subst. }
  cbn [alter list_alter] in Hheld. rewrite Hnq in Hheld.
  set (p0 := Point.mk (-6800 / 19) (-250) 0 0 (-6800 / 19) (-250)).
  assert (Hp0 : at2 mesh_sketch_mesh 0 1 = Some p0).
  { unfold mesh_sketch_mesh. rewrite setup_mesh_at2 by (unfold rows_, cols; lia).
    by rewrite mesh_point_0_1. }
  assert (Hstep1 : step_point 0.08 (nodes held) p0 = released_point).
  { rewrite Hheld, step_point_one_active; [apply held_step|done|].
    split; [simpl; lra|]. unfold distance_to. cbn [Point.x Point.y Node.x Node.y p0].
    rewrite dist_on_a_row by lra. lra. }
  exists (simultaneous 0.08 (nodes held) mesh_sketch_mesh),
    (simultaneous 0.08 (nodes idle) (simultaneous 0.08 (nodes held) mesh_sketch_mesh)),
    released_point, (step_point 0.08 [] released_point).
  split; [apply mesh_physics_simultaneous, setup_mesh_grid_shaped|].
  split; [done|].
  split; [apply mesh_physics_simultaneous, simultaneous_grid_shaped,
            setup_mesh_grid_shaped|].
  split; [by rewrite at2_simultaneous, Hp0; cbn [fmap option_fmap option_map]; rewrite Hstep1|].
  split.
  - rewrite !at2_simultaneous, Hp0. cbn [fmap option_fmap option_map]. rewrite Hstep1.
    by rewrite (step_point_free (nodes idle)).
  - apply released_overshoots.
Qed.
End OneFrameHeld.

(** C8 as stated fails on the sketch itself: after one frame with "q" held
    and the key released, every node is inactive again, and the next pass
    takes the grid point right of the "q" node farther from its rest
    position than it was. *)
Lemma free_mesh_overshoots :
  let held := (keyPressed "q" mesh_sketch_layout).2 in
  let idle := (keyReleased "q" held).2 in
  ∃ mesh1 mesh2 p1 p2,
    mesh_physics 0.08 (nodes held) mesh_sketch_mesh = Some mesh1 ∧
    Forall (λ node, Node.force node = 0%R) (nodes idle) ∧
    mesh_physics 0.08 (nodes idle) mesh1 = Some mesh2 ∧
    at2 mesh1 0 1 = Some p1 ∧ at2 mesh2 0 1 = Some p2 ∧
    (rest_distance p1 < rest_distance p2)%R.
Proof.
  destruct sketch_node_q as (nq & Hq & Hqx & Hqy).
  apply (held_then_released mesh_sketch_layout nq);
    [reflexivity|done..|apply setup_nodes_inactive].
Qed.


(** * More of the sketches *)

(** ** Case of the key *)

Lemma lower_idempotent c : lower (lower c) = lower c.
Proof. destruct c as [[] [] [] [] [] [] [] []]; reflexivity. Qed.

Lemma toLowerCase_idempotent s : toLowerCase (toLowerCase s) = toLowerCase s.
Proof. induction s as [|c s IH]; simpl; [done|]. by rewrite lower_idempotent, IH. Qed.

(** X1: the handlers do not see the case of the key: a key and its
    lower-case form act alike, so "Q" (Shift or Caps Lock held) drives the
    node of "q". *)
Theorem key_handlers_ignore_case (key : string) (st : layout) :
  keyPressed (toLowerCase key) st = keyPressed key st ∧
  keyReleased (toLowerCase key) st = keyReleased key st ∧
  keyPressed "Q" st = keyPressed "q" st.
Proof.
  unfold keyPressed, keyReleased. rewrite toLowerCase_idempotent. done.
Qed.

(** ** The key map that setup builds *)

Lemma setup_key_map_letters l r t b :
  map_Forall (λ k i, letters !! i = Some k) (keyToNode (setup_nodes l r t b)) ∧
  Forall (λ ik, keyToNode (setup_nodes l r t b) !! ik.2 = Some ik.1) (imap pair letters).
Proof.
  assert (Hmap : keyToNode (setup_nodes l r t b) = keyToNode (setup_nodes 0 0 0 0))
    by reflexivity.
  rewrite Hmap. split; apply (bool_decide_unpack _); by vm_compute.
Qed.

Lemma setup_key_lookup l r t b k i :
  keyToNode (setup_nodes l r t b) !! k = Some i ↔ letters !! i = Some k.
Proof.
  destruct (setup_key_map_letters l r t b) as [Hto Hfrom]. split.
  - apply Hto.
  - intros Hi. rewrite Forall_forall in Hfrom. apply (Hfrom (i, k)).
    apply list_elem_of_lookup. exists i. by rewrite list_lookup_imap, Hi.
Qed.

Lemma setup_nodes_length l r t b : length (nodes (setup_nodes l r t b)) = 26%nat.
Proof. reflexivity. Qed.

Lemma NoDup_letters : NoDup letters.
Proof. apply (bool_decide_unpack _). by vm_compute. Qed.

Lemma setup_one_key_per_node l r t b : one_key_per_node (setup_nodes l r t b).
Proof.
  intros k1 k2 i H1 H2. apply setup_key_lookup in H1, H2. congruence.
Qed.

(** X2: whatever the bounds, [setup] maps the 26 letters of the keyboard
    rows one to one onto the 26 nodes: the key [k] has the node [i] exactly
    when [k] is the [i]-th letter in reading order, so no two keys share a
    node, every node has a key, and no other key is in the map. *)
Theorem key_map_one_to_one (l r t b : R) :
  (∀ k i, keyToNode (setup_nodes l r t b) !! k = Some i ↔ letters !! i = Some k) ∧
  one_key_per_node (setup_nodes l r t b) ∧
  (∀ i, (i < length (nodes (setup_nodes l r t b)))%nat →
     ∃ k, keyToNode (setup_nodes l r t b) !! k = Some i) ∧
  length (nodes (setup_nodes l r t b)) = 26%nat ∧
  size (keyToNode (setup_nodes l r t b)) = 26%nat.
Proof.
  split; [apply setup_key_lookup|]. split; [apply setup_one_key_per_node|].
  split; [|split; [apply setup_nodes_length|]].
  - rewrite setup_nodes_length. intros i Hi.
    destruct (lookup_lt_is_Some_2 letters i) as [k Hk]; [exact Hi|].
    exists k. by apply setup_key_lookup.
  - assert (Hmap : keyToNode (setup_nodes l r t b) = keyToNode (setup_nodes 0 0 0 0))
      by reflexivity.
    rewrite Hmap. by vm_compute.
Qed.

(** ** One key does not disturb another *)

Lemma keyPressed_nodes st key :
  nodes (keyPressed key st).2 =
  match keyToNode st !! toLowerCase key with
  | Some i => alter (set_force 1) i (nodes st)
  | None => nodes st
  end.
Proof.
  destruct (keyToNode st !! toLowerCase key) as [i|] eqn:Hk.
  - destruct (nodes st !! i) as [node|] eqn:Hi.
    + by rewrite (keyPressed_known st key i node Hk Hi).
    + unfold keyPressed. simpl. rewrite Hk, Hi. simpl.
      apply list_eq. intros j. destruct (decide (i = j)) as [<-|Hj].
      * by rewrite list_lookup_alter_eq, Hi.
      * by rewrite list_lookup_alter_ne.
  - unfold keyPressed. cbv zeta. rewrite Hk. by case_decide.
Qed.

Lemma keyReleased_nodes st key :
  nodes (keyReleased key st).2 =
  match keyToNode st !! toLowerCase key with
  | Some i => alter (set_force 0) i (nodes st)
  | None => nodes st
  end.
Proof.
  destruct (keyToNode st !! toLowerCase key) as [i|] eqn:Hk.
  - destruct (nodes st !! i) as [node|] eqn:Hi.
    + by rewrite (keyReleased_known st key i node Hk Hi).
    + unfold keyReleased. simpl. rewrite Hk, Hi. simpl.
      apply list_eq. intros j. destruct (decide (i = j)) as [<-|Hj].
      * by rewrite list_lookup_alter_eq, Hi.
      * by rewrite list_lookup_alter_ne.
  - unfold keyReleased. cbv zeta. rewrite Hk. by case_decide.
Qed.

Lemma keyPressed_keyToNode st key : keyToNode (keyPressed key st).2 = keyToNode st.
Proof.
  unfold keyPressed. cbv zeta.
  destruct (keyToNode st !! toLowerCase key); [|by case_decide].
  by destruct (nodes st !! n).
Qed.

Lemma keyReleased_keyToNode st key : keyToNode (keyReleased key st).2 = keyToNode st.
Proof.
  unfold keyReleased. cbv zeta.
  destruct (keyToNode st !! toLowerCase key); [|by case_decide].
  by destruct (nodes st !! n).
Qed.

(** X3: in a state where no two keys share a node, pressing or releasing a
    key leaves the activation of the node of every other key as it was: a
    held key stays active while another one is pressed and released. *)
Theorem keys_independent (st : layout) (a b : string) (ib : nat) :
  one_key_per_node st →
  toLowerCase a ≠ toLowerCase b →
  keyToNode st !! toLowerCase b = Some ib →
  activation (keyPressed a st).2 ib = activation st ib ∧
  activation (keyReleased a st).2 ib = activation st ib ∧
  activation (keyReleased a (keyPressed a (keyPressed b st).2).2).2 ib
    = activation (keyPressed b st).2 ib.
Proof.
  intros Hinj Hab Hb.
  assert (Hother : ∀ st', keyToNode st' = keyToNode st →
            activation (keyPressed a st').2 ib = activation st' ib ∧
            activation (keyReleased a st').2 ib = activation st' ib).
  { intros st' Hmap. unfold activation.
    rewrite keyPressed_nodes, keyReleased_nodes, Hmap.
    destruct (keyToNode st !! toLowerCase a) as [ia|] eqn:Ha; [|done].
    assert (ia ≠ ib) by (intros ->; by apply Hab, (Hinj _ _ ib)).
    by rewrite !list_lookup_alter_ne. }
  split; [by apply Hother|]. split; [by apply Hother|].
  destruct (Hother (keyPressed a (keyPressed b st).2).2) as [_ ->];
    [by rewrite !keyPressed_keyToNode|].
  apply Hother. by rewrite keyPressed_keyToNode.
Qed.

Lemma keys_independent_witness :
  activation (keyPressed "q" mesh_sketch_layout).2 1 = activation mesh_sketch_layout 1 ∧
  activation (keyReleased "q" mesh_sketch_layout).2 1 = activation mesh_sketch_layout 1 ∧
  activation (keyReleased "q" (keyPressed "q" (keyPressed "W" mesh_sketch_layout).2).2).2 1
    = activation (keyPressed "W" mesh_sketch_layout).2 1.
Proof.
  apply (keys_independent mesh_sketch_layout "q" "W" 1).
  - apply setup_one_key_per_node.
  - discriminate.
  - reflexivity.
Defined.

(** ** Where setup puts the nodes and the mesh points *)

(** Turn the [INR] of a numeral into the numeral. *)
Ltac inr_numerals :=
  rewrite ?INR_IZR_INZ;
  repeat match goal with
         | |- context [Z.of_nat ?n] =>
           let z := eval vm_compute in (Z.of_nat n) in change (Z.of_nat n) with z
         end.

Section Bounds.
Local Open Scope R_scope.

Lemma map_between n m l r :
  0 <= n <= m → 0 < m → l <= r → l <= P5.map n 0 m l r <= r.
Proof.
  intros [Hn0 Hnm] Hm Hlr. unfold P5.map. rewrite !Rminus_0_r.
  assert (H0 : 0 <= n / m) by (apply Rmult_le_pos; [done|]; left; by apply Rinv_0_lt_compat).
  assert (H1 : n / m <= 1).
  { apply (Rmult_le_reg_r m); [done|]. unfold Rdiv.
    rewrite Rmult_assoc, Rinv_l, Rmult_1_r, Rmult_1_l by lra. done. }
  nra.
Qed.

Lemma map_first m l r : 0 < m → P5.map 0 0 m l r = l.
Proof. intros Hm. unfold P5.map. rewrite !Rminus_0_r. unfold Rdiv. lra. Qed.

Lemma map_last m l r : 0 < m → P5.map m 0 m l r = r.
Proof.
  intros Hm. unfold P5.map. rewrite !Rminus_0_r. unfold Rdiv.
  rewrite Rinv_r by lra. lra.
Qed.

Lemma foldl_i_ind_lookup {A B} (P : A → Prop) (f : A → nat → B → A) (a : A) (l : list B) :
  P a → (∀ a i b, l !! i = Some b → P a → P (f a i b)) → P (foldl_i f a l).
Proof.
  induction l as [|b l IH] using rev_ind; intros Ha Hf; [done|].
  rewrite foldl_i_snoc. apply Hf.
  - by rewrite lookup_app_r, Nat.sub_diag by lia.
  - apply IH; [done|]. intros a' i b' Hi. apply Hf. by apply lookup_app_l_Some.
Qed.

Variables l r t b : R.
Hypothesis Hlr : l <= r.
Hypothesis Htb : t <= b.

Lemma column_inside col keys len :
  list_ascii_of_string keys !! col = Some len →
  (2 ≤ String.length keys)%nat →
  l <= P5.map (INR col) 0 (INR (String.length keys) - 1) l r <= r.
Proof.
  intros Hcol Hlen. apply lookup_lt_Some in Hcol.
  assert (Hl : length (list_ascii_of_string keys) = String.length keys).
  { clear. induction keys; simpl; [done|]. by rewrite IHkeys. }
  rewrite Hl in Hcol.
  assert (H2 : INR 2 <= INR (String.length keys)) by (by apply le_INR).
  assert (Hc : INR col <= INR (String.length keys) - 1).
  { apply (le_INR (S col)) in Hcol. rewrite S_INR in Hcol. lra. }
  simpl in H2. apply map_between; [|lra|done]. split; [apply pos_INR|done].
Qed.

Lemma setup_nodes_inside :
  Forall (λ node, inside l r t b (Node.x node) (Node.y node)) (nodes (setup_nodes l r t b)).
Proof.
  unfold setup_nodes. apply foldl_i_ind_lookup; [constructor|].
  intros st row keys Hrow Hst. unfold add_row.
  assert (Hy : t <= P5.map (INR row) 0 (INR (length keyboardRows) - 1) t b <= b).
  { apply lookup_lt_Some in Hrow as Hlt. simpl in Hlt.
    apply map_between; [|simpl; lra|done]. split; [apply pos_INR|].
    apply (le_INR (S row)) in Hlt. rewrite S_INR in Hlt. simpl in *. lra. }
  assert (Hkeys : (2 ≤ String.length keys)%nat).
  { destruct row as [|[|[|row]]]; simpl in Hrow; [injection Hrow as <-; simpl; lia..|done]. }
  apply foldl_i_ind_lookup; [done|].
  intros st' col key Hcol Hst'. unfold add_key. simpl.
  apply Forall_app. split; [done|]. constructor; [|constructor].
  split; [by eapply column_inside|done].
Qed.

Lemma mesh_point_inside y x :
  (y < rows_)%nat → (x < cols)%nat →
  inside l r t b (Point.x (mesh_point l r t b y x)) (Point.y (mesh_point l r t b y x)) ∧
  at_rest (mesh_point l r t b y x).
Proof.
  intros Hy Hx. split; [|done]. unfold mesh_point, inside. simpl.
  split; (apply map_between; [|simpl; lra|done]); (split; [apply pos_INR|]).
  - apply (le_INR (S x)) in Hx. rewrite S_INR in Hx. simpl in *. lra.
  - apply (le_INR (S y)) in Hy. rewrite S_INR in Hy. simpl in *. lra.
Qed.

Lemma mesh_corners :
  (Point.x (mesh_point l r t b 0 0), Point.y (mesh_point l r t b 0 0)) = (l, t) ∧
  (Point.x (mesh_point l r t b 13 19), Point.y (mesh_point l r t b 13 19)) = (r, b).
Proof.
  unfold mesh_point. cbn [Point.x Point.y].
  assert (Hc : INR cols - 1 = INR 19) by (unfold cols; inr_numerals; lra).
  assert (Hr : INR rows_ - 1 = INR 13) by (unfold rows_; inr_numerals; lra).
  assert (H19 : 0 < INR 19) by (apply lt_0_INR; lia).
  assert (H13 : 0 < INR 13) by (apply lt_0_INR; lia).
  rewrite Hc, Hr. change (INR 0) with 0.
  by rewrite !map_first, !map_last.
Qed.
End Bounds.

(** X4: for bounds with [left <= right] and [top <= bottom], [setup] puts
    every node and every mesh point inside the bounds; the nodes start
    inactive and every mesh point starts at its rest position with no
    velocity; the first and the last mesh point sit on two opposite corners
    of the bounds. *)
Theorem setup_inside_bounds (l r t b : R) :
  (l <= r)%R → (t <= b)%R →
  Forall (λ node, inside l r t b (Node.x node) (Node.y node) ∧ Node.force node = 0%R)
    (nodes (setup_nodes l r t b)) ∧
  (∀ y x p, at2 (setup_mesh l r t b) y x = Some p →
     inside l r t b (Point.x p) (Point.y p) ∧ at_rest p) ∧
  (∃ p q, at2 (setup_mesh l r t b) 0 0 = Some p ∧
     at2 (setup_mesh l r t b) 13 19 = Some q ∧
     (Point.x p, Point.y p) = (l, t) ∧ (Point.x q, Point.y q) = (r, b)).
Proof.
  intros Hlr Htb. split; [|split].
  - pose proof (setup_nodes_inside l r t b Hlr Htb) as Hin.
    pose proof (setup_nodes_inactive l r t b) as Hzero.
    rewrite Forall_forall in *. intros node Hnode. split; [by apply Hin|by apply Hzero].
  - intros y x p Hp.
    assert (Hyx : (y < rows_ ∧ x < cols)%nat).
    { apply (grid_shaped_at2 (setup_mesh l r t b) y x (setup_mesh_grid_shaped l r t b)).
      by rewrite Hp. }
    destruct Hyx as [Hy Hx]. rewrite setup_mesh_at2 in Hp by done.
    injection Hp as <-. by apply mesh_point_inside.
  - exists (mesh_point l r t b 0 0), (mesh_point l r t b 13 19).
    split; [apply setup_mesh_at2; unfold rows_, cols; lia|].
    split; [apply setup_mesh_at2; unfold rows_, cols; lia|].
    apply mesh_corners.
Qed.

Lemma setup_inside_bounds_witness :
  Forall (λ node, inside (-400) 400 (-250) 250 (Node.x node) (Node.y node) ∧
                  Node.force node = 0%R)
    (nodes mesh_sketch_layout) ∧
  (∀ y x p, at2 mesh_sketch_mesh y x = Some p →
     inside (-400) 400 (-250) 250 (Point.x p) (Point.y p) ∧ at_rest p) ∧
  (∃ p q, at2 mesh_sketch_mesh 0 0 = Some p ∧
     at2 mesh_sketch_mesh 13 19 = Some q ∧
     (Point.x p, Point.y p) = ((-400)%R, (-250)%R) ∧
     (Point.x q, Point.y q) = (400%R, 250%R)).
Proof. apply (setup_inside_bounds (-400) 400 (-250) 250); lra. Defined.

(** ** anyNodeActive, and the mesh while no node is active *)

Lemma anyNodeActive_false nodes :
  anyNodeActive nodes = false ↔ Forall (λ node, ¬ (Node.force node > 0)%R) nodes.
Proof.
  unfold anyNodeActive. induction nodes as [|node nodes IH]; simpl.
  - split; [constructor|done].
  - rewrite orb_false_iff, IH, Forall_cons, bool_decide_eq_false. done.
Qed.

Lemma anyNodeActive_true nodes :
  anyNodeActive nodes = true ↔ ∃ node, node ∈ nodes ∧ (Node.force node > 0)%R.
Proof.
  unfold anyNodeActive. rewrite existsb_exists. split.
  - intros (node & Hin & Hf). exists node. split; [by apply list_elem_of_In|].
    by apply bool_decide_eq_true in Hf.
  - intros (node & Hin & Hf). exists node. split; [by apply list_elem_of_In|].
    by apply bool_decide_eq_true.
Qed.

Lemma step_point_no_active k nodes p :
  anyNodeActive nodes = false → step_point k nodes p = step_point k [] p.
Proof.
  intros Hnone. apply anyNodeActive_false in Hnone. rewrite Forall_forall in Hnone.
  rewrite !step_point_force. unfold total_force.
  rewrite filter_none; [done|]. intros node Hin [Hf _]. by apply (Hnone node).
Qed.

Lemma step_point_at_rest k nodes p :
  anyNodeActive nodes = false → at_rest p → step_point k nodes p = p.
Proof.
  intros Hnone (Hx & Hy & Hvx & Hvy). rewrite step_point_no_active by done.
  destruct p as [x y vx vy rx ry]. simpl in *. subst.
  unfold step_point. simpl. f_equal; lra.
Qed.

Lemma simultaneous_at_rest k nodes (mesh : mesh_t) :
  anyNodeActive nodes = false → Forall (Forall at_rest) mesh →
  simultaneous k nodes mesh = mesh.
Proof.
  intros Hnone Hrest. unfold simultaneous. apply list_eq. intros y.
  rewrite list_lookup_fmap. destruct (mesh !! y) as [row|] eqn:Hrow; [simpl|done].
  f_equal. apply list_eq. intros x. rewrite list_lookup_fmap.
  destruct (row !! x) as [p|] eqn:Hp; [simpl|done]. f_equal.
  apply step_point_at_rest; [done|].
  rewrite Forall_forall in Hrest. specialize (Hrest row (list_elem_of_lookup_2 _ _ _ Hrow)).
  rewrite Forall_forall in Hrest. apply Hrest. by eapply list_elem_of_lookup_2.
Qed.

Lemma setup_mesh_at_rest l r t b : Forall (Forall at_rest) (setup_mesh l r t b).
Proof.
  unfold setup_mesh. apply Forall_fmap, Forall_forall. intros y _.
  apply Forall_fmap, Forall_forall. intros x _. done.
Qed.

Lemma setup_nodes_none_active l r t b : anyNodeActive (nodes (setup_nodes l r t b)) = false.
Proof.
  apply anyNodeActive_false. eapply Forall_impl; [apply setup_nodes_inactive|].
  intros node Hf. simpl in Hf. rewrite Hf. lra.
Qed.

(** X5: [anyNodeActive] is false right after [setup], true after a key of
    the map has been pressed, and false again once that key is released in
    a state where no other node was active; while it is false, the mesh
    physics pass moves every point by its spring alone, as if there were no
    node. *)
Theorem any_node_active_gate (l r t b : R) (key : string) (i : nat) :
  keyToNode (setup_nodes l r t b) !! toLowerCase key = Some i →
  anyNodeActive (nodes (setup_nodes l r t b)) = false ∧
  anyNodeActive (nodes (keyPressed key (setup_nodes l r t b)).2) = true ∧
  anyNodeActive (nodes (keyReleased key (keyPressed key (setup_nodes l r t b)).2).2) = false ∧
  (∀ nodes k p, anyNodeActive nodes = false →
     step_point k nodes p = step_point k [] p).
Proof.
  intros Hk. split; [apply setup_nodes_none_active|].
  destruct (lookup_lt_is_Some_2 (nodes (setup_nodes l r t b)) i) as [node Hi];
    [by apply (setup_nodes_indexed l r t b (toLowerCase key))|].
  split; [|split; [|intros; by apply step_point_no_active]].
  - apply anyNodeActive_true. rewrite keyPressed_nodes, Hk.
    exists (set_force 1 node). split; [|simpl; lra].
    apply (list_elem_of_lookup_2 _ i). by rewrite list_lookup_alter_eq, Hi.
  - rewrite keyReleased_nodes, keyPressed_keyToNode, Hk, keyPressed_nodes, Hk.
    rewrite alter_set_force_twice. apply anyNodeActive_false.
    apply Forall_alter.
    + eapply Forall_impl; [apply setup_nodes_inactive|].
      intros n Hf. simpl in Hf. rewrite Hf. lra.
    + intros n _ _. simpl. lra.
Qed.

Lemma any_node_active_gate_witness :
  anyNodeActive (nodes mesh_sketch_layout) = false ∧
  anyNodeActive (nodes (keyPressed "M" mesh_sketch_layout).2) = true ∧
  anyNodeActive (nodes (keyReleased "M" (keyPressed "M" mesh_sketch_layout).2).2) = false ∧
  (∀ nodes k p, anyNodeActive nodes = false →
     step_point k nodes p = step_point k [] p).
Proof. apply (any_node_active_gate (-400) 400 (-250) 250 "M" 25). reflexivity. Defined.

Lemma run_physics_at_rest k nodes n (mesh : mesh_t) :
  grid_shaped mesh → anyNodeActive nodes = false → Forall (Forall at_rest) mesh →
  run_physics k nodes n mesh = Some mesh.
Proof.
  intros Hgrid Hnone Hrest. destruct (run_physics_iter k nodes n mesh Hgrid) as [-> _].
  f_equal. induction n as [|n IH]; simpl; [done|].
  by rewrite IH, simultaneous_at_rest.
Qed.

(** X6: a mesh whose points all rest and whose nodes are all inactive does
    not move: any number of passes, with any stiffness, returns the very
    same mesh.  This is the state [setup] leaves, so the mesh stands still
    until a key of the map is pressed. *)
Theorem mesh_at_rest_stays (k : R) (nodes : list Node.t) (n : nat) (mesh : mesh_t) :
  grid_shaped mesh → anyNodeActive nodes = false → Forall (Forall at_rest) mesh →
  run_physics k nodes n mesh = Some mesh.
Proof. apply run_physics_at_rest. Qed.

Lemma mesh_at_rest_stays_witness :
  run_physics 0.08 (nodes mesh_sketch_layout) 60 mesh_sketch_mesh = Some mesh_sketch_mesh.
Proof.
  apply (mesh_at_rest_stays 0.08 (nodes mesh_sketch_layout) 60 mesh_sketch_mesh).
  - apply setup_mesh_grid_shaped.
  - apply setup_nodes_none_active.
  - apply setup_mesh_at_rest.
Defined.

(** ** When the mesh sketch throws *)

Lemma keyPressed_returns st key :
  indexed st → plain_key key → (keyPressed key st).1 = Returned.
Proof.
  intros Hst Hplain. unfold keyPressed. cbv zeta.
  destruct (keyToNode st !! toLowerCase key) as [i|] eqn:Hk;
    [|by rewrite decide_False].
  by destruct (lookup_lt_is_Some_2 (nodes st) i (Hst _ _ Hk)) as [node ->].
Qed.

Lemma keyReleased_returns st key :
  indexed st → plain_key key → (keyReleased key st).1 = Returned.
Proof.
  intros Hst Hplain. unfold keyReleased. cbv zeta.
  destruct (keyToNode st !! toLowerCase key) as [i|] eqn:Hk;
    [|by rewrite decide_False].
  by destruct (lookup_lt_is_Some_2 (nodes st) i (Hst _ _ Hk)) as [node ->].
Qed.

Lemma keyPressed_indexed key st :
  indexed st → plain_key key →
  ∃ st', keyPressed key st = (Returned, st') ∧ indexed st'.
Proof.
  intros Hidx Hplain.
  pose proof (keyPressed_returns st key Hidx Hplain) as Hret.
  pose proof (keyPressed_nodes st key) as Hnodes.
  pose proof (keyPressed_keyToNode st key) as Hkeys.
  destruct (keyPressed key st) as [o l']. cbn [fst snd] in *. subst o.
  exists l'. split; [done|]. intros k i Hk. rewrite Hkeys in Hk. apply Hidx in Hk.
  rewrite Hnodes. destruct (keyToNode _ !! toLowerCase key); by rewrite ?length_alter.
Qed.

Lemma keyReleased_indexed key st :
  indexed st → plain_key key →
  ∃ st', keyReleased key st = (Returned, st') ∧ indexed st'.
Proof.
  intros Hidx Hplain.
  pose proof (keyReleased_returns st key Hidx Hplain) as Hret.
  pose proof (keyReleased_nodes st key) as Hnodes.
  pose proof (keyReleased_keyToNode st key) as Hkeys.
  destruct (keyReleased key st) as [o l']. cbn [fst snd] in *. subst o.
  exists l'. split; [done|]. intros k i Hk. rewrite Hkeys in Hk. apply Hidx in Hk.
  rewrite Hnodes. destruct (keyToNode _ !! toLowerCase key); by rewrite ?length_alter.
Qed.

Lemma voronoiSites_alter_set_force v i nodes :
  voronoiSites (alter (set_force v) i nodes) = voronoiSites nodes.
Proof.
  unfold voronoiSites. apply list_eq. intros j. rewrite !list_lookup_fmap.
  destruct (decide (i = j)) as [<-|Hj].
  - rewrite list_lookup_alter_eq. by destruct (nodes !! i).
  - by rewrite list_lookup_alter_ne.
Qed.

Lemma rest_positions_simultaneous k nodes (mesh : mesh_t) :
  rest_positions (simultaneous k nodes mesh) = rest_positions mesh.
Proof.
  unfold rest_positions, simultaneous. rewrite <- list_fmap_compose.
  apply list_fmap_ext. intros _ row _. simpl. rewrite <- list_fmap_compose.
  by apply list_fmap_ext.
Qed.

Lemma handle_kept st0 ev st :
  plain_event ev → kept st0 st → ∃ st', handle ev st = Some st' ∧ kept st0 st'.
Proof.
  intros Hplain (Hidx & Hmap & Hsites & Hbin & Hgrid & Hrest).
  destruct ev as [key|key|]; simpl.
  - pose proof (keyPressed_returns (sketch_layout st) key Hidx Hplain) as Hret.
    pose proof (keyPressed_nodes (sketch_layout st) key) as Hnodes.
    pose proof (keyPressed_keyToNode (sketch_layout st) key) as Hkeys.
    destruct (keyPressed key (sketch_layout st)) as [o l']. simpl in *. subst o.
    eexists. split; [done|]. unfold kept. simpl. rewrite Hkeys.
    split; [|split; [done|split; [|split; [|done]]]].
    + intros k i Hk. rewrite Hkeys in Hk. apply Hidx in Hk. rewrite Hnodes.
      destruct (keyToNode _ !! toLowerCase key); by rewrite ?length_alter.
    + rewrite Hnodes. destruct (keyToNode _ !! toLowerCase key); [|done].
      by rewrite voronoiSites_alter_set_force.
    + rewrite Hnodes. destruct (keyToNode _ !! toLowerCase key); [|done].
      apply Forall_alter; [done|]. intros node _ _. by right.
  - pose proof (keyReleased_returns (sketch_layout st) key Hidx Hplain) as Hret.
    pose proof (keyReleased_nodes (sketch_layout st) key) as Hnodes.
    pose proof (keyReleased_keyToNode (sketch_layout st) key) as Hkeys.
    destruct (keyReleased key (sketch_layout st)) as [o l']. simpl in *. subst o.
    eexists. split; [done|]. unfold kept. simpl. rewrite Hkeys.
    split; [|split; [done|split; [|split; [|done]]]].
    + intros k i Hk. rewrite Hkeys in Hk. apply Hidx in Hk. rewrite Hnodes.
      destruct (keyToNode _ !! toLowerCase key); by rewrite ?length_alter.
    + rewrite Hnodes. destruct (keyToNode _ !! toLowerCase key); [|done].
      by rewrite voronoiSites_alter_set_force.
    + rewrite Hnodes. destruct (keyToNode _ !! toLowerCase key); [|done].
      apply Forall_alter; [done|]. intros node _ _. by left.
  - rewrite mesh_physics_simultaneous by done. simpl.
    eexists. split; [done|]. unfold kept. simpl.
    split; [done|]. split; [done|]. split; [done|]. split; [done|].
    split; [by apply simultaneous_grid_shaped|].
    by rewrite rest_positions_simultaneous.
Qed.

Lemma run_sketch_kept st0 events : ∀ st,
  Forall plain_event events → kept st0 st →
  ∃ st', run_sketch events st = Some st' ∧ kept st0 st'.
Proof.
  induction events as [|ev events IH]; intros st Hplain Hst; simpl; [eauto|].
  apply Forall_cons in Hplain as [Hev Hplain].
  destruct (handle_kept st0 ev st Hev Hst) as (st1 & -> & Hst1). simpl. by apply IH.
Qed.

Lemma run_sketch_app events1 events2 st :
  run_sketch (events1 ++ events2) st = run_sketch events1 st ≫= run_sketch events2.
Proof.
  revert st. induction events1 as [|ev events1 IH]; intros st; cbn [app run_sketch];
    [done|].
  destruct (handle ev st) as [st1|]; cbn [mbind option_bind]; [apply IH|done].
Qed.

Lemma inherited_not_own k :
  k ∈ inherited_names → keyToNode mesh_sketch_layout !! k = None.
Proof.
  intros Hin. unfold inherited_names in Hin.
  repeat (apply elem_of_cons in Hin as [->|Hin]; [reflexivity|]).
  by apply elem_of_nil in Hin.
Qed.

Lemma kept_refl l (m : mesh_t) :
  indexed l → Forall (λ node, Node.force node = 0%R) (nodes l) → grid_shaped m →
  kept (Sketch l m) (Sketch l m).
Proof.
  intros Hidx Hzero Hgrid. unfold kept. cbn [sketch_layout sketch_mesh].
  split; [exact Hidx|]. split; [reflexivity|]. split; [reflexivity|].
  split; [|split; [exact Hgrid|reflexivity]].
  eapply Forall_impl; [exact Hzero|]. intros node Hf. by left.
Qed.

Lemma mesh_sketch_start_kept : kept mesh_sketch_start mesh_sketch_start.
Proof.
  apply kept_refl.
  - apply setup_nodes_indexed.
  - apply setup_nodes_inactive.
  - apply setup_mesh_grid_shaped.
Qed.

Lemma voronoi_sites nodes nodes' :
  voronoiSites nodes = voronoiSites nodes' → voronoi nodes = voronoi nodes'.
Proof. intros H. unfold voronoi. by rewrite H. Qed.

(** X7: in the mesh sketch after [setup], key events and frames throw
    exactly when a key whose lower-case form is an inherited property name
    ([constructor], [__proto__]) is pressed or released.  While every key is
    plain no handler and no [draw] throws; the mesh keeps its 14 rows of 20
    points and the rest position of every point; the key map and the
    position of every node stay as [setup] made them, every activation is 0
    or 1, and the Voronoi pass computes the same cells at every frame.
    After such a run, pressing or releasing a key that is not plain
    throws. *)
Theorem mesh_sketch_plain_events_return (events : list event) :
  Forall plain_event events →
  (∃ st, run_sketch events mesh_sketch_start = Some st ∧
     grid_shaped (sketch_mesh st) ∧
     rest_positions (sketch_mesh st) = rest_positions mesh_sketch_mesh ∧
     keyToNode (sketch_layout st) = keyToNode mesh_sketch_layout ∧
     voronoiSites (nodes (sketch_layout st)) = voronoiSites (nodes mesh_sketch_layout) ∧
     Forall (λ node, Node.force node = 0%R ∨ Node.force node = 1%R)
       (nodes (sketch_layout st)) ∧
     voronoi (nodes (sketch_layout st)) = voronoi (nodes mesh_sketch_layout)) ∧
  (∀ key events', ¬ plain_key key →
     run_sketch (events ++ KeyDown key :: events') mesh_sketch_start = None ∧
     run_sketch (events ++ KeyUp key :: events') mesh_sketch_start = None).
Proof.
  intros Hplain.
  destruct (run_sketch_kept mesh_sketch_start events mesh_sketch_start Hplain
              mesh_sketch_start_kept)
    as (st & Hrun & Hidx & Hmap & Hsites & Hbin & Hgrid & Hrest).
  split.
  - exists st. split; [exact Hrun|]. split; [exact Hgrid|]. split; [exact Hrest|].
    split; [exact Hmap|]. split; [exact Hsites|]. split; [exact Hbin|].
    apply voronoi_sites, Hsites.
  - intros key events' Hkey.
    assert (Hown : keyToNode (sketch_layout st) !! toLowerCase key = None).
    { rewrite Hmap. apply inherited_not_own. by apply dec_stable. }
    rewrite !run_sketch_app, Hrun. cbn [mbind option_bind run_sketch handle].
    rewrite (keyPressed_inherited _ key Hown Hkey).
    rewrite (keyReleased_inherited _ key Hown Hkey). done.
Qed.

Lemma mesh_sketch_plain_events_return_witness :
  Forall plain_event [KeyDown "Q"; Frame; KeyUp "q"; Frame] ∧
  (∃ st, run_sketch [KeyDown "Q"; Frame; KeyUp "q"; Frame] mesh_sketch_start = Some st ∧
     grid_shaped (sketch_mesh st) ∧
     rest_positions (sketch_mesh st) = rest_positions mesh_sketch_mesh ∧
     keyToNode (sketch_layout st) = keyToNode mesh_sketch_layout ∧
     voronoiSites (nodes (sketch_layout st)) = voronoiSites (nodes mesh_sketch_layout) ∧
     Forall (λ node, Node.force node = 0%R ∨ Node.force node = 1%R)
       (nodes (sketch_layout st)) ∧
     voronoi (nodes (sketch_layout st)) = voronoi (nodes mesh_sketch_layout)) ∧
  (∀ key events', ¬ plain_key key →
     run_sketch ([KeyDown "Q"; Frame; KeyUp "q"; Frame] ++ KeyDown key :: events')
       mesh_sketch_start = None ∧
     run_sketch ([KeyDown "Q"; Frame; KeyUp "q"; Frame] ++ KeyUp key :: events')
       mesh_sketch_start = None).
Proof.
  assert (Hplain : Forall plain_event [KeyDown "Q"; Frame; KeyUp "q"; Frame]).
  { repeat constructor; apply (bool_decide_unpack _); by vm_compute. }
  split; [exact Hplain|].
  exact (mesh_sketch_plain_events_return [KeyDown "Q"; Frame; KeyUp "q"; Frame] Hplain).
Defined.

(** ** The first frame of a pull *)

Section FirstPull.
Local Open Scope R_scope.

Lemma dist_toward x y nx ny c :
  c <= 1 →
  P5.dist (x + c * (nx - x)) (y + c * (ny - y)) nx ny = (1 - c) * P5.dist x y nx ny.
Proof.
  intros Hc. unfold P5.dist.
  replace ((nx - (x + c * (nx - x))) * (nx - (x + c * (nx - x)))
           + (ny - (y + c * (ny - y))) * (ny - (y + c * (ny - y))))
    with ((1 - c) * (1 - c) * ((nx - x) * (nx - x) + (ny - y) * (ny - y))) by ring.
  rewrite sqrt_mult_alt by nra. rewrite sqrt_square by lra. done.
Qed.

Lemma filter_only_active p before node after :
  anyNodeActive (before ++ after) = false → captures p node →
  filter (captures p) (before ++ node :: after) = [node].
Proof.
  intros Hnone Hnode. apply anyNodeActive_false in Hnone.
  apply Forall_app in Hnone as [Hb Ha]. rewrite Forall_forall in Hb, Ha.
  rewrite filter_app, filter_cons_True by done.
  rewrite !filter_none; [done|..].
  - intros n Hin [Hf _]. by apply (Ha n).
  - intros n Hin [Hf _]. by apply (Hb n).
Qed.

Lemma first_pull_position k before node after p :
  at_rest p → Node.force node = 1 →
  anyNodeActive (before ++ after) = false → captures p node →
  let c := 0.0264 * (180 - distance_to p node) / 180 in
  Point.x (step_point k (before ++ node :: after) p)
    = Point.x p + c * (Node.x node - Point.x p) ∧
  Point.y (step_point k (before ++ node :: after) p)
    = Point.y p + c * (Node.y node - Point.y p).
Proof.
  intros (Hx & Hy & Hvx & Hvy) Hf Hnone Hnode c. subst c.
  rewrite step_point_force. unfold total_force.
  rewrite filter_only_active by done. simpl. unfold pull_term. simpl.
  rewrite Hf, Hvx, Hvy, <- Hx, <- Hy. split; lra.
Qed.
End FirstPull.

(** X8: a point that rests and is within reach (distance [0 < d < 180]) of
    the only active node, of activation 1, is taken by one pass straight
    towards that node, to the distance [d (1 - 0.0264 (180 - d) / 180)]:
    nearer than before, and never past the node (it covers less than 2.64%
    of the way), whatever the stiffness. *)
Theorem first_pull_toward_node (k : R) (before after : list Node.t) (node : Node.t)
    (p : Point.t) :
  at_rest p → Node.force node = 1%R →
  anyNodeActive (before ++ after) = false →
  (0 < distance_to p node < 180)%R →
  (distance_to (step_point k (before ++ node :: after) p) node
   = distance_to p node * (1 - 0.0264 * (180 - distance_to p node) / 180))%R ∧
  (0.9736 * distance_to p node
   < distance_to (step_point k (before ++ node :: after) p) node
   < distance_to p node)%R.
Proof.
  intros Hrest Hf Hnone [Hd0 Hd].
  assert (Hnode : captures p node) by (split; [rewrite Hf|]; lra).
  destruct (first_pull_position k before node after p Hrest Hf Hnone Hnode) as [Hx Hy].
  assert (Heq : (distance_to (step_point k (before ++ node :: after) p) node
                 = distance_to p node * (1 - 0.0264 * (180 - distance_to p node) / 180))%R).
  { unfold distance_to at 1. rewrite Hx, Hy, dist_toward by lra.
    fold (distance_to p node). lra. }
  split; [exact Heq|]. rewrite Heq. split; nra.
Qed.

Lemma first_pull_toward_node_witness :
  (distance_to (step_point 0.08 ([] ++ Node.mk 0 0 1 :: []) scenario_point) (Node.mk 0 0 1)
   = distance_to scenario_point (Node.mk 0 0 1)
     * (1 - 0.0264 * (180 - distance_to scenario_point (Node.mk 0 0 1)) / 180))%R ∧
  (0.9736 * distance_to scenario_point (Node.mk 0 0 1)
   < distance_to (step_point 0.08 ([] ++ Node.mk 0 0 1 :: []) scenario_point) (Node.mk 0 0 1)
   < distance_to scenario_point (Node.mk 0 0 1))%R.
Proof.
  apply (first_pull_toward_node 0.08 [] [] (Node.mk 0 0 1) scenario_point).
  - done.
  - done.
  - done.
  - unfold distance_to, scenario_point. simpl. rewrite dist_on_a_row by lra. lra.
Defined.

(** ** The cells of the Voronoi pass *)

Lemma NoDup_samples : NoDup samples.
Proof. apply (bool_decide_unpack _). by vm_compute. Qed.

Lemma voronoi_cell_filter nodes i cell :
  voronoi nodes !! i = Some cell →
  cell = filter (λ s, assigned nodes s = i) samples ∧ cell ≠ [].
Proof.
  rewrite voronoi_lookup. intros Hcell.
  destruct (filter _ samples) as [|s cell'] eqn:Hf; [done|].
  injection Hcell as <-. done.
Qed.

Lemma assigned_range nodes s :
  assigned nodes s = (-1)%Z ∨ (0 ≤ assigned nodes s < Z.of_nat (length nodes))%Z.
Proof.
  destruct s as [x y].
  destruct (assigned_cases nodes x y) as [[-> _]|(i & node & -> & Hi & _)]; [by left|].
  right. apply lookup_lt_Some in Hi. lia.
Qed.

(** X9: for every set of nodes the cells of [cellMap] split the 1600
    samples: each sample is in the cell of its [minIdx] and in no other;
    a cell is never empty, lists its samples once each and in scan order,
    and its key is -1 or the index of a node; the cells do not depend on
    which nodes are active. *)
Theorem voronoi_cells_split_samples (nodes : list Node.t) :
  (∀ s, s ∈ samples →
     ∃ cell, voronoi nodes !! assigned nodes s = Some cell ∧ s ∈ cell) ∧
  (∀ i cell, voronoi nodes !! i = Some cell →
     cell ≠ [] ∧ NoDup cell ∧
     cell = filter (λ s, assigned nodes s = i) samples ∧
     (i = (-1)%Z ∨ (0 ≤ i < Z.of_nat (length nodes))%Z)) ∧
  (∀ i j ci cj s, voronoi nodes !! i = Some ci → voronoi nodes !! j = Some cj →
     s ∈ ci → s ∈ cj → i = j) ∧
  (∀ v i, voronoi (alter (set_force v) i nodes) = voronoi nodes).
Proof.
  split; [apply voronoi_assigned|]. split; [|split].
  - intros i cell Hcell. destruct (voronoi_cell_filter nodes i cell Hcell) as [Hf Hne].
    split; [done|]. split; [rewrite Hf; apply NoDup_filter, NoDup_samples|].
    split; [done|].
    destruct cell as [|s cell]; [exfalso; apply Hne; reflexivity|].
    assert (Hs : s ∈ filter (λ s, assigned nodes s = i) samples)
      by (rewrite <- Hf; apply list_elem_of_here).
    apply list_elem_of_filter in Hs as [<- _]. apply assigned_range.
  - intros i j ci cj s Hi Hj Hsi Hsj.
    apply (voronoi_cell nodes i ci s Hi) in Hsi as [_ <-].
    apply (voronoi_cell nodes j cj s Hj) in Hsj as [_ <-]. done.
  - intros v i. apply voronoi_sites, voronoiSites_alter_set_force.
Qed.

(** ** The cells of sperm.js *)

Lemma raster_lookup k :
  (k < 280)%nat → raster !! k = Some ((k / 20)%nat, (k mod 20)%nat).
Proof.
  intros Hk.
  assert (H : Forall (λ k, raster !! k = Some ((k / 20)%nat, (k mod 20)%nat)) (seq 0 280)).
  { apply (bool_decide_unpack _). by vm_compute. }
  rewrite Forall_forall in H. apply H, elem_of_seq. lia.
Qed.

Lemma raster_length : length raster = 280%nat.
Proof. reflexivity. Qed.

Lemma random2_between u lo hi :
  (0 <= u < 1)%R → (lo <= hi)%R → (lo <= P5.random2 u lo hi <= hi)%R.
Proof.
  intros [Hu0 Hu1] Hlh. unfold P5.random2. rewrite decide_False by lra. nra.
Qed.

Lemma random2_below u lo hi :
  (0 <= u < 1)%R → (lo < hi)%R → (lo <= P5.random2 u lo hi < hi)%R.
Proof.
  intros [Hu0 Hu1] Hlh. unfold P5.random2. rewrite decide_False by lra. nra.
Qed.

Section AnchoredProofs.
Variables (mesh : mesh_t) (assets : list image) (rnd : tape).
Hypothesis Hgrid : grid_shaped mesh.

Lemma add_cells_so_far rest : ∀ pre st,
  pre ++ rest = raster → anchored_so_far mesh assets rnd (length pre) st →
  ∃ st', add_cells mesh assets rnd rest st = Some st' ∧
    anchored_so_far mesh assets rnd (length raster) st'.
Proof.
  induction rest as [|[y x] rest IH]; intros pre st Hsplit (Hidx & Hlen & Hcells);
    cbn [add_cells].
  - exists st. split; [done|]. rewrite <- Hsplit, app_nil_r. done.
  - assert (Hn : raster !! length pre = Some (y, x)).
    { rewrite <- Hsplit. by rewrite lookup_app_r, Nat.sub_diag by lia. }
    assert (Hlt : (length pre < 280)%nat).
    { apply lookup_lt_Some in Hn. by rewrite raster_length in Hn. }
    assert (Hin : (y, x) ∈ raster) by (by eapply list_elem_of_lookup_2).
    rewrite raster_lookup in Hn by done.
    assert (Hy : y = (length pre / 20)%nat) by congruence.
    assert (Hx : x = (length pre mod 20)%nat) by congruence.
    clear Hn.
    assert (Hnext : (pre ++ [(y, x)]) ++ rest = raster) by (by rewrite <- app_assoc).
    assert (Hlen' : length (pre ++ [(y, x)]) = S (length pre))
      by (rewrite length_app; simpl; lia).
    unfold add_cell. case_decide as Hroom.
    + assert (Hidx' : idx st = length pre) by lia.
      destruct (proj2 (grid_shaped_at2 mesh y x Hgrid)) as [p Hp];
        [by apply elem_of_raster|].
      cbn [fst snd]. rewrite Hp. cbn [mbind option_bind].
      apply (IH (pre ++ [(y, x)])); [done|]. rewrite Hlen'.
      unfold anchored_so_far. cbn [idx anchored jitters].
      split; [lia|]. split; [rewrite length_app; simpl; lia|].
      intros k cell Hk. apply lookup_snoc_Some in Hk as [[Hklt Hk]|[Hklen <-]].
      * by apply Hcells.
      * cbn [Cell.img Cell.meshIdx Cell.x Cell.y].
        assert (Hk : k = length pre) by lia. clear Hklen. subst k.
        rewrite Hidx', <- Hx, <- Hy.
        split; [done|]. split; [lia|]. split; [done|].
        exists p, (jitters st). done.
    + apply (IH (pre ++ [(y, x)])); [done|]. rewrite Hlen'.
      unfold anchored_so_far. split; [lia|]. split; [done|]. done.
Qed.

Lemma setup_anchored_cells :
  ∃ st, setup_anchored mesh assets rnd = Some st ∧
    anchored_so_far mesh assets rnd (length raster) st.
Proof.
  apply (add_cells_so_far raster []); [done|].
  split; [done|]. split; [done|]. intros k cell Hk. cbn [anchored] in Hk.
  by rewrite lookup_nil in Hk.
Qed.
End AnchoredProofs.

(** X10: on a mesh of 14 rows of 20 points, part 3 of [setup] of
    [sperm.js] never throws and makes one cell per asset up to the 280 mesh
    points: the cell [k] shows the asset [k], is anchored to the mesh point
    of column [k mod 20] in row [k / 20], and, with draws in [0, 1), starts
    less than 30 away from that point along each axis. *)
Theorem anchored_setup_cells (mesh : mesh_t) (assets : list image) (rnd : tape) :
  grid_shaped mesh →
  ∃ st, setup_anchored mesh assets rnd = Some st ∧
    length (anchored st) = (length assets `min` 280)%nat ∧
    ∀ k cell, anchored st !! k = Some cell →
      Cell.img cell = assets !! k ∧ is_Some (Cell.img cell) ∧
      Cell.meshIdx cell = Some ((k mod 20)%nat, (k / 20)%nat) ∧
      ∃ p, at2 mesh (k / 20) (k mod 20) = Some p ∧
        (fair rnd →
         (-30 <= Cell.x cell - Point.x p < 30)%R ∧
         (-30 <= Cell.y cell - Point.y p < 30)%R).
Proof.
  intros Hgrid.
  destruct (setup_anchored_cells mesh assets rnd Hgrid) as (st & Hst & Hidx & Hlen & Hcells).
  exists st. split; [done|]. rewrite raster_length in Hidx. split; [lia|].
  intros k cell Hk.
  destruct (Hcells k cell Hk) as (Himg & Hklt & Hanchor & p & j & Hp & Hx & Hy).
  split; [done|]. split; [rewrite Himg; by apply lookup_lt_is_Some|].
  split; [done|]. exists p. split; [done|]. intros Hfair.
  pose proof (random2_below (rnd j) (- (30)) 30 (Hfair j)).
  pose proof (random2_below (rnd (j + 1)%nat) (- (30)) 30 (Hfair (j + 1)%nat)).
  rewrite Hx, Hy. split; lra.
Qed.

Lemma anchored_setup_cells_witness :
  ∃ st, setup_anchored (sperm_mesh 900 600) [0; 1; 2]%nat half_tape = Some st ∧
    length (anchored st) = (length [0; 1; 2]%nat `min` 280)%nat ∧
    ∀ k cell, anchored st !! k = Some cell →
      Cell.img cell = [0; 1; 2]%nat !! k ∧ is_Some (Cell.img cell) ∧
      Cell.meshIdx cell = Some ((k mod 20)%nat, (k / 20)%nat) ∧
      ∃ p, at2 (sperm_mesh 900 600) (k / 20) (k mod 20) = Some p ∧
        (fair half_tape →
         (-30 <= Cell.x cell - Point.x p < 30)%R ∧
         (-30 <= Cell.y cell - Point.y p < 30)%R).
Proof.
  apply (anchored_setup_cells (sperm_mesh 900 600) [0; 1; 2]%nat half_tape).
  apply setup_mesh_grid_shaped.
Defined.

(** ** sperm.js on plain keys *)

Lemma follow_anchor_ready (mesh : mesh_t) cell :
  grid_shaped mesh → is_Some (Cell.img cell) → on_mesh (Cell.meshIdx cell) →
  ∃ cell', follow_anchor mesh cell = Some cell' ∧
    Cell.img cell' = Cell.img cell ∧ Cell.meshIdx cell' = Cell.meshIdx cell ∧
    Cell.scale cell' = Cell.scale cell ∧
    Cell.angleSpeed cell' = Cell.angleSpeed cell ∧
    Cell.angle cell' = (Cell.angle cell + Cell.angleSpeed cell)%R.
Proof.
  intros Hgrid [img Himg] (x & y & Hanchor & Hx & Hy). unfold follow_anchor.
  rewrite Hanchor, Himg. cbn [mbind option_bind fst snd].
  destruct (proj2 (grid_shaped_at2 mesh y x Hgrid)) as [p ->]; [done|].
  cbn [mbind option_bind]. eexists. split; [reflexivity|]. done.
Qed.

Lemma follow_anchors_ready (mesh : mesh_t) cells :
  grid_shaped mesh →
  Forall is_Some (Cell.img <$> cells) → Forall on_mesh (Cell.meshIdx <$> cells) →
  ∃ cells', mapM (follow_anchor mesh) cells = Some cells' ∧
    Cell.img <$> cells' = Cell.img <$> cells ∧
    Cell.meshIdx <$> cells' = Cell.meshIdx <$> cells.
Proof.
  intros Hgrid. induction cells as [|cell cells IH]; intros Himg Hanchor.
  - by exists [].
  - rewrite fmap_cons in Himg. rewrite fmap_cons in Hanchor.
    apply Forall_cons in Himg as [Hi Himg], Hanchor as [Ha Hanchor].
    destruct (follow_anchor_ready mesh cell Hgrid Hi Ha) as (cell' & Hc & Hci & Hca & _).
    destruct (IH Himg Hanchor) as (cells' & Hcs & Hcsi & Hcsa).
    exists (cell' :: cells'). cbn [mapM]. rewrite Hc. cbn [mbind option_bind].
    rewrite Hcs. cbn [fmap option_fmap option_map mret option_ret].
    rewrite !fmap_cons, Hci, Hca, Hcsi, Hcsa. done.
Qed.

Lemma shuffle_returns rnd now now' st :
  fair rnd → spermCells st ≠ [] → (shuffle rnd now now' st).1 = Returned.
Proof.
  intros Hfair Hne. unfold shuffle. case_decide; [|done].
  by destruct (swaps_returns rnd swapsPerInterval (calls st) (spermCells st) Hfair Hne)
    as [cells' ->].
Qed.

Lemma meshIdx_of_motion (cells cells' : list Cell.t) :
  Cell.motion <$> cells' = Cell.motion <$> cells →
  Cell.meshIdx <$> cells' = Cell.meshIdx <$> cells.
Proof.
  intros Hm.
  assert (H : ∀ l : list Cell.t,
            Cell.meshIdx <$> l = (λ m, m.1.1.1.2) <$> (Cell.motion <$> l)).
  { intros l. rewrite <- list_fmap_compose. by apply list_fmap_ext. }
  by rewrite !H, Hm.
Qed.

Section SpermRun.
Variables (rnd : tape) (cells0 : list Cell.t).
Hypothesis Hfair : fair rnd.
Hypothesis Hne : cells0 ≠ [].
Hypothesis Himg0 : Forall is_Some (Cell.img <$> cells0).
Hypothesis Hanchor0 : Forall on_mesh (Cell.meshIdx <$> cells0).

Lemma sperm_handle_kept ev st :
  plain_sperm_event ev → sperm_kept cells0 st →
  ∃ st', sperm_handle rnd ev st = Some st' ∧ sperm_kept cells0 st'.
Proof.
  intros Hplain (Hidx & Hgrid & Hlen & Himg & Hanchor).
  destruct ev as [key|key|now now']; cbn [sperm_handle].
  - destruct (keyPressed_indexed key (sperm_layout_of st) Hidx Hplain)
      as (l' & -> & Hidx').
    eexists. split; [reflexivity|]. done.
  - destruct (keyReleased_indexed key (sperm_layout_of st) Hidx Hplain)
      as (l' & -> & Hidx').
    eexists. split; [reflexivity|]. done.
  - unfold draw_sperm.
    assert (Hcells : spermCells (sperm_swarm st) ≠ []).
    { intros Hnil. rewrite Hnil in Hlen. destruct cells0; [done|discriminate]. }
    pose proof (shuffle_returns rnd now now' (sperm_swarm st) Hfair Hcells) as Hret.
    pose proof (shuffle_preserve rnd now now' (sperm_swarm st)) as (Hl & Hi & Hm).
    destruct (shuffle rnd now now' (sperm_swarm st)) as [o sw]. cbn [fst snd] in *.
    subst o. rewrite mesh_physics_simultaneous by done. cbn [mbind option_bind].
    apply meshIdx_of_motion in Hm.
    destruct (follow_anchors_ready
                (simultaneous 0.04 (nodes (sperm_layout_of st)) (sperm_mesh_of st))
                (spermCells sw)) as (cells' & -> & Hci & Hca).
    + by apply simultaneous_grid_shaped.
    + rewrite Hi, Himg. exact Himg0.
    + rewrite Hm, Hanchor. exact Hanchor0.
    + cbn [mbind option_bind]. eexists. split; [reflexivity|]. unfold sperm_kept.
      cbn [sperm_layout_of sperm_mesh_of sperm_swarm spermCells].
      split; [done|]. split; [by apply simultaneous_grid_shaped|].
      split; [|split].
      * rewrite <- Hlen, <- Hl. by rewrite <- (length_fmap Cell.img), Hci, length_fmap.
      * by rewrite Hci, Hi.
      * by rewrite Hca, Hm.
Qed.

Lemma run_sperm_kept events : ∀ st,
  Forall plain_sperm_event events → sperm_kept cells0 st →
  ∃ st', run_sperm rnd events st = Some st' ∧ sperm_kept cells0 st'.
Proof.
  induction events as [|ev events IH]; intros st Hplain Hst; cbn [run_sperm]; [eauto|].
  apply Forall_cons in Hplain as [Hev Hplain].
  destruct (sperm_handle_kept ev st Hev Hst) as (st1 & -> & Hst1).
  cbn [mbind option_bind]. by apply IH.
Qed.
End SpermRun.

Lemma anchored_fields mesh assets rnd st :
  anchored_so_far mesh assets rnd (length raster) st →
  Cell.img <$> anchored st = Some <$> take 280 assets ∧
  Cell.meshIdx <$> anchored st =
    (λ k, Some ((k mod 20)%nat, (k / 20)%nat)) <$> seq 0 (length assets `min` 280).
Proof.
  intros (Hidx & Hlen & Hcells). rewrite raster_length in Hidx. split.
  - apply list_eq. intros k. rewrite !list_lookup_fmap.
    destruct (anchored st !! k) as [cell|] eqn:Hk; cbn [fmap option_fmap option_map].
    + destruct (Hcells k cell Hk) as (Himg & Hklt & _).
      apply lookup_lt_Some in Hk. rewrite lookup_take_lt by lia.
      rewrite Himg. destruct (lookup_lt_is_Some_2 assets k Hklt) as [img ->]. done.
    + apply lookup_ge_None in Hk.
      destruct (decide (k < 280)%nat).
      * rewrite lookup_take_lt by lia. rewrite (proj2 (lookup_ge_None assets k)); [done|lia].
      * by rewrite lookup_take_ge by lia.
  - apply list_eq. intros k. rewrite !list_lookup_fmap.
    destruct (anchored st !! k) as [cell|] eqn:Hk; cbn [fmap option_fmap option_map].
    + destruct (Hcells k cell Hk) as (_ & _ & Hanchor & _).
      apply lookup_lt_Some in Hk. rewrite lookup_seq_lt by lia.
      cbn [fmap option_fmap option_map]. by rewrite Hanchor.
    + apply lookup_ge_None in Hk. rewrite lookup_seq_ge by lia. done.
Qed.

(** X11: with draws in [0, 1) and at least one asset, [setup] of [sperm.js]
    returns, and after it no sequence of frames and of presses and releases
    of plain keys (keys whose lower-case form is no inherited property
    name) throws, whatever the clock readings.  The swarm keeps one cell per
    asset up to the 280 mesh points, its images stay a permutation of those
    assets, each cell stays anchored to the mesh point it was given, and the
    mesh keeps its 14 rows of 20 points. *)
Theorem sperm_plain_events_return (width height : R) (assets : list image) (rnd : tape)
    (events : list sperm_event) :
  fair rnd → assets ≠ [] → Forall plain_sperm_event events →
  ∃ st0 st, sperm_start width height assets rnd = Some st0 ∧
    run_sperm rnd events st0 = Some st ∧
    length (spermCells (sperm_swarm st)) = (length assets `min` 280)%nat ∧
    Cell.img <$> spermCells (sperm_swarm st) ≡ₚ Some <$> take 280 assets ∧
    Cell.meshIdx <$> spermCells (sperm_swarm st) =
      (λ k, Some ((k mod 20)%nat, (k / 20)%nat)) <$> seq 0 (length assets `min` 280) ∧
    grid_shaped (sperm_mesh_of st).
Proof.
  intros Hfair Hne Hplain. unfold sperm_start.
  destruct (setup_anchored_cells (sperm_mesh width height) assets rnd
              (setup_mesh_grid_shaped _ _ _ _)) as (a & -> & Ha).
  cbn [mbind option_bind]. eexists.
  destruct (anchored_fields _ _ _ _ Ha) as [Himg Hanchor].
  assert (Hlen : length (anchored a) = (length assets `min` 280)%nat).
  { destruct Ha as (Hidx & Hl & _). rewrite raster_length in Hidx. lia. }
  destruct (run_sperm_kept rnd (anchored a)) with (events := events)
    (st := Sperm (sperm_layout width height) (sperm_mesh width height)
             (Swarm (anchored a) 0 (jitters a)))
    as (st & Hrun & Hidx & Hgrid & Hl & Hi & Hm).
  - done.
  - intros Hnil. rewrite Hnil in Hlen. destruct assets; [done|]. simpl in Hlen. lia.
  - rewrite Himg. apply Forall_fmap, Forall_true. intros img. by eexists.
  - rewrite Hanchor. apply Forall_fmap, Forall_forall. intros k Hk.
    apply elem_of_seq in Hk. exists (k mod 20)%nat, (k / 20)%nat.
    split; [done|]. split.
    + apply Nat.mod_upper_bound. done.
    + apply Nat.Div0.div_lt_upper_bound. unfold rows_. lia.
  - exact Hplain.
  - unfold sperm_kept. cbn [sperm_layout_of sperm_mesh_of sperm_swarm spermCells].
    split; [exact (setup_nodes_indexed _ _ _ _)|].
    split; [exact (setup_mesh_grid_shaped _ _ _ _)|].
    split; [reflexivity|]. split; reflexivity.
  - exists st. split; [reflexivity|]. split; [exact Hrun|].
    split; [lia|]. split; [by rewrite Hi, Himg|]. split; [by rewrite Hm, Hanchor|]. done.
Qed.

Lemma sperm_plain_events_return_witness :
  Forall plain_sperm_event [SpermFrame 200 201; SpermKeyDown "q"; SpermFrame 400 401] ∧
  ∃ st0 st, sperm_start 900 600 [0; 1; 2]%nat half_tape = Some st0 ∧
    run_sperm half_tape [SpermFrame 200 201; SpermKeyDown "q"; SpermFrame 400 401] st0
      = Some st ∧
    length (spermCells (sperm_swarm st)) = (length [0; 1; 2]%nat `min` 280)%nat ∧
    Cell.img <$> spermCells (sperm_swarm st) ≡ₚ Some <$> take 280 [0; 1; 2]%nat ∧
    Cell.meshIdx <$> spermCells (sperm_swarm st) =
      (λ k, Some ((k mod 20)%nat, (k / 20)%nat))
        <$> seq 0 (length [0; 1; 2]%nat `min` 280) ∧
    grid_shaped (sperm_mesh_of st).
Proof.
  assert (Hplain : Forall plain_sperm_event
                     [SpermFrame 200 201; SpermKeyDown "q"; SpermFrame 400 401]).
  { repeat constructor; apply (bool_decide_unpack _); by vm_compute. }
  split; [exact Hplain|].
  apply (sperm_plain_events_return 900 600 [0; 1; 2]%nat half_tape
           [SpermFrame 200 201; SpermKeyDown "q"; SpermFrame 400 401]).
  - apply half_tape_fair.
  - discriminate.
  - exact Hplain.
Defined.

(** ** sperm.js with no key pressed: the cells home in on their mesh points *)

Section Homing.
Local Open Scope R_scope.

Lemma cell_axis_energy_step e v :
  cell_axis_energy (e + (v + - e * 0.01) * 0.96) ((v + - e * 0.01) * 0.96)
  = 0.96 * cell_axis_energy e v.
Proof. unfold cell_axis_energy. lra. Qed.

Lemma cell_axis_energy_bounds e v :
  0 <= cell_axis_energy e v ∧ e * e <= 110 * cell_axis_energy e v.
Proof. unfold cell_axis_energy. split; nra. Qed.

Lemma anchor_energy_nonneg p cell : 0 <= anchor_energy p cell.
Proof.
  unfold anchor_energy.
  pose proof (cell_axis_energy_bounds (Cell.x cell - Point.x p) (Cell.vx cell)).
  pose proof (cell_axis_energy_bounds (Cell.y cell - Point.y p) (Cell.vy cell)).
  lra.
Qed.

Lemma anchor_distance_energy p cell :
  anchor_distance p cell * anchor_distance p cell <= 110 * anchor_energy p cell.
Proof.
  unfold anchor_distance, anchor_energy. rewrite dist_sqr.
  pose proof (cell_axis_energy_bounds (Cell.x cell - Point.x p) (Cell.vx cell)).
  pose proof (cell_axis_energy_bounds (Cell.y cell - Point.y p) (Cell.vy cell)).
  nra.
Qed.

Lemma follow_anchor_energy (mesh : mesh_t) cell cell' x y p :
  Cell.meshIdx cell = Some (x, y) → at2 mesh y x = Some p →
  follow_anchor mesh cell = Some cell' →
  Cell.meshIdx cell' = Some (x, y) ∧
  anchor_energy p cell' = 0.96 * anchor_energy p cell.
Proof.
  intros Hanchor Hp. unfold follow_anchor. rewrite Hanchor.
  cbn [mbind option_bind fst snd]. rewrite Hp. cbn [mbind option_bind].
  destruct (Cell.img cell) as [img|]; [|done]. cbn [mbind option_bind].
  intros [= <-]. split; [done|].
  unfold anchor_energy.
  cbn [Cell.x Cell.y Cell.vx Cell.vy]. rewrite Rmult_plus_distr_l.
  rewrite <- (cell_axis_energy_step (Cell.x cell - Point.x p) (Cell.vx cell)).
  rewrite <- (cell_axis_energy_step (Cell.y cell - Point.y p) (Cell.vy cell)).
  f_equal; f_equal; lra.
Qed.

Lemma anchor_energy_motion p c1 c2 :
  Cell.motion c1 = Cell.motion c2 →
  Cell.meshIdx c1 = Cell.meshIdx c2 ∧ anchor_energy p c1 = anchor_energy p c2.
Proof.
  unfold Cell.motion. intros [= Hx Hy Hvx Hvy Hi _ _ _].
  unfold anchor_energy. by rewrite Hx, Hy, Hvx, Hvy.
Qed.
End Homing.

(** What one call of [draw] that returns has done. *)
Lemma draw_sperm_returned rnd now now' st st' :
  grid_shaped (sperm_mesh_of st) → draw_sperm rnd now now' st = Some st' →
  sperm_layout_of st' = sperm_layout_of st ∧
  sperm_mesh_of st' = simultaneous 0.04 (nodes (sperm_layout_of st)) (sperm_mesh_of st) ∧
  ∃ cells1, Cell.motion <$> cells1 = Cell.motion <$> spermCells (sperm_swarm st) ∧
    Forall2 (λ c c', follow_anchor (sperm_mesh_of st') c = Some c')
      cells1 (spermCells (sperm_swarm st')).
Proof.
  intros Hgrid. unfold draw_sperm.
  pose proof (shuffle_preserve rnd now now' (sperm_swarm st)) as (_ & _ & Hm).
  destruct (shuffle rnd now now' (sperm_swarm st)) as [[] sw]; [|done].
  cbn [fst snd] in Hm. rewrite mesh_physics_simultaneous by done.
  cbn [mbind option_bind].
  destruct (mapM _ (spermCells sw)) as [cells'|] eqn:Hcells; [|done].
  cbn [mbind option_bind]. intros [= <-].
  cbn [sperm_layout_of sperm_mesh_of sperm_swarm spermCells].
  split; [done|]. split; [done|]. exists (spermCells sw). split; [done|].
  by apply mapM_Some.
Qed.

Section Idle.
Local Open Scope R_scope.
Variables (rnd : tape) (l0 : layout) (mesh0 : mesh_t) (cells0 : list Cell.t).
Variables (k : nat) (p : Point.t).
Hypothesis Hfair : fair rnd.
Hypothesis Hnone : anyNodeActive (nodes l0) = false.
Hypothesis Hrest : Forall (Forall at_rest) mesh0.
Hypothesis Hne : cells0 ≠ [].
Hypothesis Himg0 : Forall is_Some (Cell.img <$> cells0).
Hypothesis Hanchor0 : Forall on_mesh (Cell.meshIdx <$> cells0).

Lemma draw_sperm_idle now now' E st :
  idle_with l0 mesh0 cells0 k p E st →
  ∃ st', draw_sperm rnd now now' st = Some st' ∧
    idle_with l0 mesh0 cells0 k p (0.96 * E) st'.
Proof.
  intros (Hkept & Hl & Hmesh & cell & x & y & Hk & Hanchor & Hp & HE).
  destruct (sperm_handle_kept rnd cells0 Hfair Hne Himg0 Hanchor0
              (SpermFrame now now') st I Hkept) as (st' & Hdraw & Hkept').
  cbn [sperm_handle] in Hdraw. exists st'. split; [done|].
  destruct (draw_sperm_returned rnd now now' st st') as (Hl' & Hmesh' & cells1 & Hm & Hall);
    [apply Hkept|done|].
  rewrite Hl, Hmesh, simultaneous_at_rest in Hmesh' by done.
  split; [done|]. split; [congruence|]. split; [done|].
  assert (Hk1 : Cell.motion <$> cells1 !! k = Some (Cell.motion cell)).
  { by rewrite <- list_lookup_fmap, Hm, list_lookup_fmap, Hk. }
  destruct (cells1 !! k) as [c1|] eqn:Hc1; [|done].
  cbn [fmap option_fmap option_map] in Hk1.
  assert (Hmc : Cell.motion c1 = Cell.motion cell) by congruence.
  destruct (anchor_energy_motion p c1 cell Hmc) as [Hi1 HE1].
  destruct (Forall2_lookup_l _ _ _ k c1 Hall Hc1) as (cell' & Hk' & Hfollow).
  rewrite Hmesh' in Hfollow.
  destruct (follow_anchor_energy mesh0 c1 cell' x y p) as [Hi' HE']; [congruence|done|done|].
  exists cell', x, y. split; [done|]. split; [done|]. split; [done|].
  rewrite HE', HE1, HE. done.
Qed.

Lemma run_frames_idle clock : ∀ E st,
  idle_with l0 mesh0 cells0 k p E st →
  ∃ st', run_sperm rnd (frames clock) st = Some st' ∧
    idle_with l0 mesh0 cells0 k p (0.96 ^ length clock * E) st'.
Proof.
  induction clock as [|[now now'] clock IH]; intros E st Hst.
  - exists st. split; [done|]. cbn [length pow]. by rewrite Rmult_1_l.
  - destruct (draw_sperm_idle now now' E st Hst) as (st1 & Hdraw & Hst1).
    destruct (IH _ st1 Hst1) as (st' & Hrun & Hst').
    exists st'. split.
    + unfold frames. rewrite fmap_cons. cbn [run_sperm sperm_handle fst snd].
      rewrite Hdraw. exact Hrun.
    + cbn [length pow].
      replace (0.96 * 0.96 ^ length clock * E)%R
        with (0.96 ^ length clock * (0.96 * E))%R by lra.
      exact Hst'.
Qed.
End Idle.

Lemma sperm_start_idle width height assets rnd k :
  (k < length assets `min` 280)%nat →
  ∃ a cell0 p, setup_anchored (sperm_mesh width height) assets rnd = Some a ∧
    anchored a !! k = Some cell0 ∧
    at2 (sperm_mesh width height) (k / 20) (k mod 20) = Some p ∧
    anchored a ≠ [] ∧
    Forall is_Some (Cell.img <$> anchored a) ∧
    Forall on_mesh (Cell.meshIdx <$> anchored a) ∧
    idle_with (sperm_layout width height) (sperm_mesh width height) (anchored a)
      k p (anchor_energy p cell0)
      (Sperm (sperm_layout width height) (sperm_mesh width height)
         (Swarm (anchored a) 0 (jitters a))).
Proof.
  intros Hk.
  destruct (setup_anchored_cells (sperm_mesh width height) assets rnd
              (setup_mesh_grid_shaped _ _ _ _)) as (a & Hsetup & Ha).
  destruct (anchored_fields _ _ _ _ Ha) as [Himg Hanchor].
  destruct Ha as (Hidx & Hlen & Hcells). rewrite raster_length in Hidx.
  destruct (lookup_lt_is_Some_2 (anchored a) k) as [cell0 Hcell0]; [lia|].
  destruct (Hcells k cell0 Hcell0) as (_ & _ & Hi & p & _ & Hp & _).
  exists a, cell0, p. split; [done|]. split; [done|]. split; [done|].
  split; [intros Hnil; by rewrite Hnil in Hcell0|].
  split; [rewrite Himg; apply Forall_fmap, Forall_true; intros img; by eexists|].
  split.
  { rewrite Hanchor. apply Forall_fmap, Forall_forall. intros j Hj.
    apply elem_of_seq in Hj. exists (j mod 20)%nat, (j / 20)%nat.
    split; [done|]. split.
    - by apply Nat.mod_upper_bound.
    - apply Nat.Div0.div_lt_upper_bound. unfold rows_. lia. }
  unfold idle_with, sperm_kept.
  cbn [sperm_layout_of sperm_mesh_of sperm_swarm spermCells].
  split.
  { split; [exact (setup_nodes_indexed _ _ _ _)|].
    split; [exact (setup_mesh_grid_shaped _ _ _ _)|].
    split; [reflexivity|]. split; reflexivity. }
  split; [reflexivity|]. split; [reflexivity|].
  exists cell0, (k mod 20)%nat, (k / 20)%nat.
  split; [exact Hcell0|]. split; [exact Hi|]. split; [exact Hp|]. reflexivity.
Qed.

(** X12: in [sperm.js] after [setup], as long as no key is pressed, every
    frame returns, the mesh stays as [setup] made it, and each cell spirals
    in on its mesh point: every frame multiplies the cell's energy
    [0.0096 e^2 + 0.0304 e v + 0.96 v^2] (summed over the two axes, [e] the
    displacement from the point, [v] the velocity) by 0.96, 110 times the
    energy bounds the squared distance to the point, and so the cell is
    within any epsilon of its point after sufficiently many frames, whatever
    the clock readings and the image swaps. *)
Theorem anchored_cells_home_in (width height : R) (assets : list image) (rnd : tape)
    (k : nat) :
  fair rnd → (k < length assets `min` 280)%nat →
  ∃ st0 cell0 p, sperm_start width height assets rnd = Some st0 ∧
    spermCells (sperm_swarm st0) !! k = Some cell0 ∧
    at2 (sperm_mesh width height) (k / 20) (k mod 20) = Some p ∧
    (∀ clock, ∃ st cell, run_sperm rnd (frames clock) st0 = Some st ∧
       sperm_mesh_of st = sperm_mesh width height ∧
       spermCells (sperm_swarm st) !! k = Some cell ∧
       (anchor_energy p cell = 0.96 ^ length clock * anchor_energy p cell0)%R ∧
       (anchor_distance p cell * anchor_distance p cell
        <= 110 * anchor_energy p cell)%R) ∧
    (∀ ε, (0 < ε)%R → ∃ N, ∀ clock, (N ≤ length clock)%nat →
       ∃ st cell, run_sperm rnd (frames clock) st0 = Some st ∧
         spermCells (sperm_swarm st) !! k = Some cell ∧
         (anchor_distance p cell < ε)%R).
Proof.
  intros Hfair Hk.
  destruct (sperm_start_idle width height assets rnd k Hk)
    as (a & cell0 & p & Hsetup & Hcell0 & Hp & Hne & Himg & Hanchor & Hidle).
  unfold sperm_start. rewrite Hsetup. cbn [mbind option_bind].
  eexists. exists cell0, p. split; [reflexivity|].
  cbn [sperm_swarm spermCells]. split; [exact Hcell0|]. split; [exact Hp|].
  pose proof (run_frames_idle rnd (sperm_layout width height) (sperm_mesh width height)
                (anchored a) k p Hfair (setup_nodes_none_active _ _ _ _)
                (setup_mesh_at_rest _ _ _ _) Hne Himg Hanchor) as Hrun.
  assert (Hframes : ∀ clock, ∃ st cell,
    run_sperm rnd (frames clock)
      (Sperm (sperm_layout width height) (sperm_mesh width height)
         (Swarm (anchored a) 0 (jitters a))) = Some st ∧
    sperm_mesh_of st = sperm_mesh width height ∧
    spermCells (sperm_swarm st) !! k = Some cell ∧
    (anchor_energy p cell = 0.96 ^ length clock * anchor_energy p cell0)%R).
  { intros clock.
    destruct (Hrun clock _ _ Hidle)
      as (st & Hst & _ & _ & Hmesh & cell & x & y & Hcell & _ & _ & HE).
    exists st, cell. split; [exact Hst|]. split; [exact Hmesh|]. split; [exact Hcell|].
    exact HE. }
  split.
  - intros clock. destruct (Hframes clock) as (st & cell & Hst & Hmesh & Hcell & HE).
    exists st, cell. split; [exact Hst|]. split; [exact Hmesh|]. split; [exact Hcell|].
    split; [exact HE|]. apply anchor_distance_energy.
  - intros ε Hε.
    pose proof (anchor_energy_nonneg p cell0) as HE0.
    destruct (pow_lt_1_zero 0.96) with (y := (ε * ε / (110 * anchor_energy p cell0 + 1))%R)
      as [N HN].
    + rewrite Rabs_pos_eq; lra.
    + apply Rdiv_lt_0_compat; nra.
    + exists N. intros clock Hlen. specialize (HN (length clock) Hlen).
      destruct (Hframes clock) as (st & cell & Hst & _ & Hcell & HE).
      exists st, cell. split; [exact Hst|]. split; [exact Hcell|].
      assert (Hpow : (0 <= 0.96 ^ length clock)%R) by (apply pow_le; lra).
      rewrite Rabs_pos_eq in HN by done.
      pose proof (anchor_distance_energy p cell) as Hd. rewrite HE in Hd.
      assert (Hlt : (0.96 ^ length clock * (110 * anchor_energy p cell0 + 1) < ε * ε)%R).
      { apply (Rmult_lt_compat_r (110 * anchor_energy p cell0 + 1)) in HN; [|lra].
        unfold Rdiv in HN. rewrite Rmult_assoc, Rinv_l, Rmult_1_r in HN by lra. done. }
      pose proof (dist_nonneg (Cell.x cell) (Cell.y cell) (Point.x p) (Point.y p)) as H0.
      fold (anchor_distance p cell) in H0.
      nra.
Qed.

Lemma anchored_cells_home_in_witness :
  ∃ st0 cell0 p, sperm_start 900 600 [0; 1; 2]%nat half_tape = Some st0 ∧
    spermCells (sperm_swarm st0) !! 1%nat = Some cell0 ∧
    at2 (sperm_mesh 900 600) (1 / 20) (1 mod 20) = Some p ∧
    (∀ clock, ∃ st cell, run_sperm half_tape (frames clock) st0 = Some st ∧
       sperm_mesh_of st = sperm_mesh 900 600 ∧
       spermCells (sperm_swarm st) !! 1%nat = Some cell ∧
       (anchor_energy p cell = 0.96 ^ length clock * anchor_energy p cell0)%R ∧
       (anchor_distance p cell * anchor_distance p cell
        <= 110 * anchor_energy p cell)%R) ∧
    (∀ ε, (0 < ε)%R → ∃ N, ∀ clock, (N ≤ length clock)%nat →
       ∃ st cell, run_sperm half_tape (frames clock) st0 = Some st ∧
         spermCells (sperm_swarm st) !! 1%nat = Some cell ∧
         (anchor_distance p cell < ε)%R).
Proof.
  apply (anchored_cells_home_in 900 600 [0; 1; 2]%nat half_tape 1).
  - apply half_tape_fair.
  - cbn [length]. lia.
Defined.

(** ** setup of sperm2.js: what the scattered cells look like *)

Section ScatteredCells.
Local Open Scope R_scope.
Variables (width height : R) (assets : list image) (rnd : tape).

Lemma search_candidate_inside cells left : ∀ attempts candidate calls c,
  fair rnd → 2 * marginX <= width → 2 * marginY <= height →
  (∀ c0, candidate = Some c0 →
     inside (- width / 2 + marginX) (width / 2 - marginX)
       (- height / 2 + marginY) (height / 2 - marginY) c0.1 c0.2) →
  (search width height rnd left attempts cells candidate calls).1.1 = Some c →
  inside (- width / 2 + marginX) (width / 2 - marginX)
    (- height / 2 + marginY) (height / 2 - marginY) c.1 c.2.
Proof.
  induction left as [|left IH]; intros attempts candidate calls c Hfair Hw Hh Hcand;
    cbn [search].
  - cbn [fst]. apply Hcand.
  - assert (Hnew : inside (- width / 2 + marginX) (width / 2 - marginX)
                     (- height / 2 + marginY) (height / 2 - marginY)
                     (P5.random2 (rnd calls) (- width / 2 + marginX) (width / 2 - marginX))
                     (P5.random2 (rnd (S calls)) (- height / 2 + marginY)
                        (height / 2 - marginY))).
    { split; apply random2_between; try apply Hfair; lra. }
    destruct (conflict cells _).
    + apply IH; [done..|]. intros c0 [= <-]. exact Hnew.
    + cbn [fst]. intros [= <-]. exact Hnew.
Qed.

(** What one round of the scattering loop appends. *)
Lemma place_appends i st st' :
  place width height assets rnd i st = Some st' →
  ∃ cell, placed st' = placed st ++ [cell] ∧
    Cell.img cell = assets !! (i mod length assets)%nat ∧
    Cell.meshIdx cell = None ∧
    (fair rnd → drawn_fields cell) ∧
    (fair rnd → 2 * marginX <= width → 2 * marginY <= height →
     inside (- width / 2 + marginX) (width / 2 - marginX)
       (- height / 2 + marginY) (height / 2 - marginY) (Cell.x cell) (Cell.y cell)).
Proof.
  unfold place.
  pose proof (search_candidate_inside (placed st) 30 0 None (drawn st)) as Hin.
  destruct (search width height rnd 30 0 (placed st) None (drawn st))
    as [[candidate a] n].
  cbn [fst snd] in Hin. destruct candidate as [c|]; [|done].
  cbn [mbind option_bind]. intros [= <-]. eexists. cbn [placed].
  split; [reflexivity|]. cbn [Cell.img Cell.meshIdx Cell.x Cell.y].
  split; [done|]. split; [done|]. split.
  - intros Hfair. unfold drawn_fields.
    cbn [Cell.vx Cell.vy Cell.scale Cell.angle Cell.angleSpeed].
    split; [apply random2_below; [apply Hfair|lra]|].
    split; [apply random2_below; [apply Hfair|lra]|].
    split; [apply random2_below; [apply Hfair|lra]|].
    split; [|apply random2_below; [apply Hfair|lra]].
    unfold P5.random1, P5.TWO_PI. pose proof PI_RGT_0.
    pose proof (Hfair (n + 3)%nat). nra.
  - intros Hfair Hw Hh. by apply Hin.
Qed.

Lemma scatter_cells n : ∀ st,
  scatter width height assets rnd n = Some st →
  length (placed st) = n ∧
  ∀ i cell, placed st !! i = Some cell →
    Cell.img cell = assets !! (i mod length assets)%nat ∧
    Cell.meshIdx cell = None ∧
    (fair rnd → drawn_fields cell) ∧
    (fair rnd → 2 * marginX <= width → 2 * marginY <= height →
     inside (- width / 2 + marginX) (width / 2 - marginX)
       (- height / 2 + marginY) (height / 2 - marginY) (Cell.x cell) (Cell.y cell)).
Proof.
  induction n as [|n IH]; intros st; cbn [scatter].
  - intros [= <-]. split; [done|]. intros i cell Hi. cbn [placed] in Hi.
    by rewrite lookup_nil in Hi.
  - destruct (scatter width height assets rnd n) as [st1|]; [|done].
    cbn [mbind option_bind]. intros Hplace.
    destruct (IH st1 eq_refl) as [Hlen Hcells].
    destruct (place_appends n st1 st Hplace) as (cell & -> & Hcell).
    split; [rewrite length_app; cbn [length]; lia|].
    intros i c Hi. apply lookup_snoc_Some in Hi as [[_ Hi]|[Hi <-]].
    + by apply Hcells.
    + rewrite Hi, Hlen. exact Hcell.
Qed.
End ScatteredCells.

(** X13: [setup] of [sperm2.js] always returns 800 cells; the cell [i]
    shows the asset [i mod assets.length] and has no mesh point.  With draws
    in [0, 1) its velocity components lie in [-1, 1), its scale in
    [0.3, 0.5), its angle in [0, 2 pi) and its angle speed in [-0.02, 0.02);
    with a window at least as wide and as high as twice the margin, the cell
    lies in the window inset by the margins; with an asset list that is not
    empty the image of the cell is there. *)
Theorem scattered_cells_in_window (width height : R) (assets : list image) (rnd : tape) :
  ∃ st, setup_cells width height assets rnd = Some st ∧
    length (placed st) = 800%nat ∧
    ∀ i cell, placed st !! i = Some cell →
      Cell.img cell = assets !! (i mod length assets)%nat ∧
      Cell.meshIdx cell = None ∧
      (assets ≠ [] → is_Some (Cell.img cell)) ∧
      (fair rnd → drawn_fields cell) ∧
      (fair rnd → (2 * marginX <= width)%R → (2 * marginY <= height)%R →
       inside (- width / 2 + marginX) (width / 2 - marginX)
         (- height / 2 + marginY) (height / 2 - marginY) (Cell.x cell) (Cell.y cell)).
Proof.
  destruct (scatter_spaced width height assets rnd desiredAssetCount) as (st & Hst & _).
  exists st. split; [exact Hst|].
  destruct (scatter_cells width height assets rnd desiredAssetCount st Hst) as [Hlen Hcells].
  split; [exact Hlen|]. intros i cell Hi.
  destruct (Hcells i cell Hi) as (Himg & Hidx & Hfields & Hin).
  split; [exact Himg|]. split; [exact Hidx|]. split; [|by split].
  intros Hne. rewrite Himg. apply lookup_lt_is_Some_2, Nat.mod_upper_bound.
  destruct assets; [done|]. cbn [length]. lia.
Qed.

(** ** sperm2.js on plain keys *)

Lemma follow_nodes_ready nodes cell :
  is_Some (Cell.img cell) →
  ∃ cell', follow_nodes nodes cell = Some cell' ∧ Cell.img cell' = Cell.img cell.
Proof.
  intros [img Himg]. unfold follow_nodes. rewrite Himg. cbn [mbind option_bind].
  eexists. split; [reflexivity|]. done.
Qed.

Lemma follow_all_nodes_ready nodes cells :
  Forall is_Some (Cell.img <$> cells) →
  ∃ cells', mapM (follow_nodes nodes) cells = Some cells' ∧
    Cell.img <$> cells' = Cell.img <$> cells.
Proof.
  induction cells as [|cell cells IH]; intros Himg.
  - by exists [].
  - rewrite fmap_cons in Himg. apply Forall_cons in Himg as [Hi Himg].
    destruct (follow_nodes_ready nodes cell Hi) as (cell' & Hc & Hci).
    destruct (IH Himg) as (cells' & Hcs & Hcsi).
    exists (cell' :: cells'). cbn [mapM]. rewrite Hc. cbn [mbind option_bind].
    rewrite Hcs. cbn [fmap option_fmap option_map mret option_ret].
    rewrite !fmap_cons, Hci, Hcsi. done.
Qed.

Lemma Forall_is_Some_Permutation {A} (l1 l2 : list (option A)) :
  l1 ≡ₚ l2 → Forall is_Some l2 → Forall is_Some l1.
Proof. intros Hp H2. by rewrite Hp. Qed.

Section Sperm2Run.
Variables (rnd : tape) (cells0 : list Cell.t).
Hypothesis Hfair : fair rnd.
Hypothesis Hne : cells0 ≠ [].
Hypothesis Himg0 : Forall is_Some (Cell.img <$> cells0).

Lemma sperm2_handle_kept ev st :
  plain_sperm_event ev → sperm2_kept cells0 st →
  ∃ st', sperm2_handle rnd ev st = Some st' ∧ sperm2_kept cells0 st'.
Proof.
  intros Hplain (Hidx & Hgrid & Hlen & Himg).
  destruct ev as [key|key|now now']; cbn [sperm2_handle].
  - destruct (keyPressed_indexed key (sperm_layout_of st) Hidx Hplain)
      as (l' & -> & Hidx').
    eexists. split; [reflexivity|]. done.
  - destruct (keyReleased_indexed key (sperm_layout_of st) Hidx Hplain)
      as (l' & -> & Hidx').
    eexists. split; [reflexivity|]. done.
  - unfold draw_sperm2.
    assert (Hcells : spermCells (sperm_swarm st) ≠ []).
    { intros Hnil. rewrite Hnil in Hlen. destruct cells0; [done|discriminate]. }
    pose proof (shuffle_returns rnd now now' (sperm_swarm st) Hfair Hcells) as Hret.
    pose proof (shuffle_preserve rnd now now' (sperm_swarm st)) as (Hl & Hi & Hm).
    destruct (shuffle rnd now now' (sperm_swarm st)) as [o sw]. cbn [fst snd] in *.
    subst o. rewrite mesh_physics_simultaneous by done. cbn [mbind option_bind].
    destruct (follow_all_nodes_ready (nodes (sperm_layout_of st)) (spermCells sw))
      as (cells' & -> & Hci).
    + rewrite Hi, Himg. exact Himg0.
    + cbn [mbind option_bind]. eexists. split; [reflexivity|]. unfold sperm2_kept.
      cbn [sperm_layout_of sperm_mesh_of sperm_swarm spermCells].
      split; [done|]. split; [by apply simultaneous_grid_shaped|]. split.
      * rewrite <- Hlen, <- Hl. by rewrite <- (length_fmap Cell.img), Hci, length_fmap.
      * by rewrite Hci, Hi.
Qed.

Lemma run_sperm2_kept events : ∀ st,
  Forall plain_sperm_event events → sperm2_kept cells0 st →
  ∃ st', run_sperm2 rnd events st = Some st' ∧ sperm2_kept cells0 st'.
Proof.
  induction events as [|ev events IH]; intros st Hplain Hst; cbn [run_sperm2]; [eauto|].
  apply Forall_cons in Hplain as [Hev Hplain].
  destruct (sperm2_handle_kept ev st Hev Hst) as (st1 & -> & Hst1).
  cbn [mbind option_bind]. by apply IH.
Qed.
End Sperm2Run.

Lemma sperm2_start_kept width height assets rnd :
  assets ≠ [] →
  ∃ s, setup_cells width height assets rnd = Some s ∧
    length (placed s) = 800%nat ∧
    Cell.img <$> placed s = (λ i, assets !! (i mod length assets)%nat) <$> seq 0 800 ∧
    Forall is_Some (Cell.img <$> placed s) ∧
    sperm2_kept (placed s)
      (Sperm (sperm_layout width height) (sperm_mesh width height)
         (Swarm (placed s) 0 (drawn s))).
Proof.
  intros Hne.
  destruct (scatter_spaced width height assets rnd desiredAssetCount) as (s & Hs & _).
  exists s. split; [exact Hs|].
  destruct (scatter_cells width height assets rnd desiredAssetCount s Hs) as [Hlen Hcells].
  change desiredAssetCount with 800%nat in Hlen.
  split; [exact Hlen|].
  assert (Himg : Cell.img <$> placed s
                 = (λ i, assets !! (i mod length assets)%nat) <$> seq 0 800).
  { apply list_eq. intros i. rewrite !list_lookup_fmap.
    destruct (placed s !! i) as [cell|] eqn:Hi; cbn [fmap option_fmap option_map].
    - destruct (Hcells i cell Hi) as (Hc & _).
      apply lookup_lt_Some in Hi. rewrite lookup_seq_lt by lia.
      cbn [fmap option_fmap option_map]. by rewrite Hc.
    - apply lookup_ge_None in Hi. rewrite lookup_seq_ge by lia. done. }
  split; [exact Himg|].
  assert (Hsome : Forall is_Some (Cell.img <$> placed s)).
  { rewrite Himg. apply Forall_fmap, Forall_forall. intros i _.
    apply lookup_lt_is_Some_2, Nat.mod_upper_bound.
    destruct assets; [done|]. cbn [length]. lia. }
  split; [exact Hsome|].
  unfold sperm2_kept. cbn [sperm_layout_of sperm_mesh_of sperm_swarm spermCells].
  split; [exact (setup_nodes_indexed _ _ _ _)|].
  split; [exact (setup_mesh_grid_shaped _ _ _ _)|].
  split; reflexivity.
Qed.

(** X14: with draws in [0, 1) and at least one asset, [setup] of
    [sperm2.js] returns, and after it no sequence of frames and of presses
    and releases of plain keys (keys whose lower-case form is no inherited
    property name) throws, whatever the clock readings.  The swarm keeps its
    800 cells, and the images on them stay a permutation of the images
    [setup] gave them, asset [i mod assets.length] for each [i] below 800. *)
Theorem sperm2_plain_events_return (width height : R) (assets : list image) (rnd : tape)
    (events : list sperm_event) :
  fair rnd → assets ≠ [] → Forall plain_sperm_event events →
  ∃ st0 st, sperm2_start width height assets rnd = Some st0 ∧
    run_sperm2 rnd events st0 = Some st ∧
    length (spermCells (sperm_swarm st)) = 800%nat ∧
    Cell.img <$> spermCells (sperm_swarm st)
      ≡ₚ (λ i, assets !! (i mod length assets)%nat) <$> seq 0 800 ∧
    Forall is_Some (Cell.img <$> spermCells (sperm_swarm st)) ∧
    grid_shaped (sperm_mesh_of st).
Proof.
  intros Hfair Hne Hplain. unfold sperm2_start.
  destruct (sperm2_start_kept width height assets rnd Hne)
    as (s & -> & Hlen & Himg & Hsome & Hkept).
  cbn [mbind option_bind]. eexists.
  destruct (run_sperm2_kept rnd (placed s)) with (events := events)
    (st := Sperm (sperm_layout width height) (sperm_mesh width height)
             (Swarm (placed s) 0 (drawn s)))
    as (st & Hrun & Hidx & Hgrid & Hl & Hi).
  - exact Hfair.
  - intros Hnil. by rewrite Hnil in Hlen.
  - exact Hsome.
  - exact Hplain.
  - exact Hkept.
  - exists st. split; [reflexivity|]. split; [exact Hrun|].
    split; [lia|]. split; [by rewrite Hi, Himg|]. split; [|exact Hgrid].
    by apply (Forall_is_Some_Permutation _ _ Hi).
Qed.

Lemma sperm2_plain_events_return_witness :
  Forall plain_sperm_event [SpermFrame 200 201; SpermKeyDown "q"; SpermFrame 400 401] ∧
  ∃ st0 st, sperm2_start 900 600 [0; 1; 2]%nat half_tape = Some st0 ∧
    run_sperm2 half_tape [SpermFrame 200 201; SpermKeyDown "q"; SpermFrame 400 401] st0
      = Some st ∧
    length (spermCells (sperm_swarm st)) = 800%nat ∧
    Cell.img <$> spermCells (sperm_swarm st)
      ≡ₚ (λ i, [0; 1; 2]%nat !! (i mod length [0; 1; 2]%nat)%nat) <$> seq 0 800 ∧
    Forall is_Some (Cell.img <$> spermCells (sperm_swarm st)) ∧
    grid_shaped (sperm_mesh_of st).
Proof.
  assert (Hplain : Forall plain_sperm_event
                     [SpermFrame 200 201; SpermKeyDown "q"; SpermFrame 400 401]).
  { repeat constructor; apply (bool_decide_unpack _); by vm_compute. }
  split; [exact Hplain|].
  apply (sperm2_plain_events_return 900 600 [0; 1; 2]%nat half_tape
           [SpermFrame 200 201; SpermKeyDown "q"; SpermFrame 400 401]).
  - apply half_tape_fair.
  - discriminate.
  - exact Hplain.
Defined.

(** ** sperm2.js with no key pressed: the cells coast *)

Section Coasting.
Local Open Scope R_scope.

Lemma pull_cells_idle nodes cell : ∀ f,
  anyNodeActive nodes = false → foldl (pull_cell cell) f nodes = f.
Proof.
  induction nodes as [|node nodes IH]; intros f Hnone; [done|].
  apply anyNodeActive_false in Hnone. apply Forall_cons in Hnone as [Hnode Hnone].
  cbn [foldl]. unfold pull_cell at 2. rewrite decide_False by (intros [Hf _]; done).
  apply IH. by apply anyNodeActive_false.
Qed.

Lemma follow_nodes_idle nodes cell cell' :
  anyNodeActive nodes = false → follow_nodes nodes cell = Some cell' →
  Cell.vx cell' = Cell.vx cell * 0.96 ∧ Cell.vy cell' = Cell.vy cell * 0.96 ∧
  Cell.x cell' = Cell.x cell + Cell.vx cell * 0.96 ∧
  Cell.y cell' = Cell.y cell + Cell.vy cell * 0.96.
Proof.
  intros Hnone. unfold follow_nodes. rewrite pull_cells_idle by done.
  destruct (Cell.img cell) as [img|]; [|done]. cbn [mbind option_bind fst snd].
  intros [= <-]. cbn [Cell.x Cell.y Cell.vx Cell.vy].
  split; [lra|]. split; [lra|]. split; lra.
Qed.

Lemma coasted_step cell0 n c1 cell' :
  coasted cell0 n c1 →
  Cell.vx cell' = Cell.vx c1 * 0.96 ∧ Cell.vy cell' = Cell.vy c1 * 0.96 ∧
  Cell.x cell' = Cell.x c1 + Cell.vx c1 * 0.96 ∧
  Cell.y cell' = Cell.y c1 + Cell.vy c1 * 0.96 →
  coasted cell0 (S n) cell'.
Proof.
  intros (Hvx & Hvy & Hx & Hy) (Hvx' & Hvy' & Hx' & Hy'). unfold coasted.
  rewrite Hvx', Hvy', Hx', Hy', Hvx, Hvy, Hx, Hy. cbn [pow].
  split; [lra|]. split; [lra|]. split; lra.
Qed.

Lemma coasted_motion cell0 n c1 c2 :
  Cell.motion c1 = Cell.motion c2 → coasted cell0 n c2 → coasted cell0 n c1.
Proof.
  unfold Cell.motion, coasted. intros [= Hx Hy Hvx Hvy _ _ _ _].
  by rewrite Hx, Hy, Hvx, Hvy.
Qed.

Lemma coasted_near cell0 n cell :
  -1 <= Cell.vx cell0 < 1 → -1 <= Cell.vy cell0 < 1 → coasted cell0 n cell →
  -24 <= Cell.x cell - Cell.x cell0 <= 24 ∧ -24 <= Cell.y cell - Cell.y cell0 <= 24.
Proof.
  intros Hvx Hvy (_ & _ & Hx & Hy). rewrite Hx, Hy.
  assert (H0 : 0 <= 0.96 ^ n) by (apply pow_le; lra).
  assert (H1 : 0.96 ^ n <= 1).
  { rewrite <- (pow1 n). apply pow_incr. lra. }
  split; nra.
Qed.
End Coasting.

(** What one call of [draw] of [sperm2.js] that returns has done. *)
Lemma draw_sperm2_returned rnd now now' st st' :
  grid_shaped (sperm_mesh_of st) → draw_sperm2 rnd now now' st = Some st' →
  sperm_layout_of st' = sperm_layout_of st ∧
  ∃ cells1, Cell.motion <$> cells1 = Cell.motion <$> spermCells (sperm_swarm st) ∧
    Forall2 (λ c c', follow_nodes (nodes (sperm_layout_of st)) c = Some c')
      cells1 (spermCells (sperm_swarm st')).
Proof.
  intros Hgrid. unfold draw_sperm2.
  pose proof (shuffle_preserve rnd now now' (sperm_swarm st)) as (_ & _ & Hm).
  destruct (shuffle rnd now now' (sperm_swarm st)) as [[] sw]; [|done].
  cbn [fst snd] in Hm. rewrite mesh_physics_simultaneous by done.
  cbn [mbind option_bind].
  destruct (mapM _ (spermCells sw)) as [cells'|] eqn:Hcells; [|done].
  cbn [mbind option_bind]. intros [= <-].
  cbn [sperm_layout_of sperm_mesh_of sperm_swarm spermCells].
  split; [done|]. exists (spermCells sw). split; [done|].
  by apply mapM_Some.
Qed.

Section Coast.
Variables (rnd : tape) (l0 : layout) (cells0 : list Cell.t).
Variables (k : nat) (cell0 : Cell.t).
Hypothesis Hfair : fair rnd.
Hypothesis Hnone : anyNodeActive (nodes l0) = false.
Hypothesis Hne : cells0 ≠ [].
Hypothesis Himg0 : Forall is_Some (Cell.img <$> cells0).

Lemma draw_sperm2_coasting now now' n st :
  coasting l0 cells0 k cell0 n st →
  ∃ st', draw_sperm2 rnd now now' st = Some st' ∧ coasting l0 cells0 k cell0 (S n) st'.
Proof.
  intros (Hkept & Hl & cell & Hk & Hcoast).
  destruct (sperm2_handle_kept rnd cells0 Hfair Hne Himg0
              (SpermFrame now now') st I Hkept) as (st' & Hdraw & Hkept').
  cbn [sperm2_handle] in Hdraw. exists st'. split; [done|].
  destruct (draw_sperm2_returned rnd now now' st st') as (Hl' & cells1 & Hm & Hall);
    [apply Hkept|done|].
  split; [done|]. split; [congruence|].
  assert (Hk1 : Cell.motion <$> cells1 !! k = Some (Cell.motion cell)).
  { by rewrite <- list_lookup_fmap, Hm, list_lookup_fmap, Hk. }
  destruct (cells1 !! k) as [c1|] eqn:Hc1; [|done].
  cbn [fmap option_fmap option_map] in Hk1.
  assert (Hmc : Cell.motion c1 = Cell.motion cell) by congruence.
  destruct (Forall2_lookup_l _ _ _ k c1 Hall Hc1) as (cell' & Hk' & Hfollow).
  rewrite Hl in Hfollow.
  exists cell'. split; [done|].
  apply (coasted_step cell0 n c1 cell'); [by apply (coasted_motion cell0 n c1 cell)|].
  by apply (follow_nodes_idle (nodes l0)).
Qed.

Lemma run_frames_coasting clock : ∀ n st,
  coasting l0 cells0 k cell0 n st →
  ∃ st', run_sperm2 rnd (frames clock) st = Some st' ∧
    coasting l0 cells0 k cell0 (length clock + n) st'.
Proof.
  induction clock as [|[now now'] clock IH]; intros n st Hst.
  - exists st. split; [done|]. exact Hst.
  - destruct (draw_sperm2_coasting now now' n st Hst) as (st1 & Hdraw & Hst1).
    destruct (IH _ st1 Hst1) as (st' & Hrun & Hst').
    exists st'. split.
    + unfold frames. rewrite fmap_cons. cbn [run_sperm2 sperm2_handle fst snd].
      rewrite Hdraw. exact Hrun.
    + cbn [length]. by replace (S (length clock) + n)%nat with (length clock + S n)%nat by lia.
Qed.
End Coast.

(** X15: in [sperm2.js] after [setup], as long as no key is pressed, every
    frame returns and each cell coasts: after [n] frames its velocity is
    [0.96^n] times the velocity [setup] drew, and it has moved by 24 times
    that velocity times [1 - 0.96^n] along each axis, so it never gets
    further than 24 from where [setup] put it, whatever the clock readings
    and the image swaps. *)
Theorem scattered_cells_coast (width height : R) (assets : list image) (rnd : tape)
    (k : nat) :
  fair rnd → assets ≠ [] → (k < 800)%nat →
  ∃ st0 cell0, sperm2_start width height assets rnd = Some st0 ∧
    spermCells (sperm_swarm st0) !! k = Some cell0 ∧
    ∀ clock, ∃ st cell, run_sperm2 rnd (frames clock) st0 = Some st ∧
      spermCells (sperm_swarm st) !! k = Some cell ∧
      coasted cell0 (length clock) cell ∧
      (-24 <= Cell.x cell - Cell.x cell0 <= 24)%R ∧
      (-24 <= Cell.y cell - Cell.y cell0 <= 24)%R.
Proof.
  intros Hfair Hne Hk. unfold sperm2_start.
  destruct (sperm2_start_kept width height assets rnd Hne)
    as (s & Hs & Hlen & Himg & Hsome & Hkept).
  rewrite Hs. cbn [mbind option_bind].
  destruct (lookup_lt_is_Some_2 (placed s) k) as [cell0 Hcell0]; [lia|].
  eexists. exists cell0. split; [reflexivity|]. cbn [sperm_swarm spermCells].
  split; [exact Hcell0|]. intros clock.
  destruct (scatter_cells width height assets rnd desiredAssetCount s Hs) as [_ Hcells].
  destruct (Hcells k cell0 Hcell0) as (_ & _ & Hfields & _).
  destruct (Hfields Hfair) as (Hvx & Hvy & _).
  destruct (run_frames_coasting rnd (sperm_layout width height) (placed s) k cell0
              Hfair (setup_nodes_none_active _ _ _ _)) with (clock := clock) (n := 0%nat)
    (st := Sperm (sperm_layout width height) (sperm_mesh width height)
             (Swarm (placed s) 0 (drawn s)))
    as (st & Hrun & _ & _ & cell & Hcell & Hcoast).
  - intros Hnil. by rewrite Hnil in Hcell0.
  - exact Hsome.
  - split; [exact Hkept|]. split; [reflexivity|]. exists cell0.
    cbn [sperm_swarm spermCells]. split; [exact Hcell0|].
    unfold coasted. cbn [pow]. split; [lra|]. split; [lra|]. split; lra.
  - rewrite Nat.add_0_r in Hcoast. exists st, cell.
    split; [exact Hrun|]. split; [exact Hcell|]. split; [exact Hcoast|].
    by apply (coasted_near cell0 (length clock) cell).
Qed.

Lemma scattered_cells_coast_witness :
  ∃ st0 cell0, sperm2_start 900 600 [0; 1; 2]%nat half_tape = Some st0 ∧
    spermCells (sperm_swarm st0) !! 5%nat = Some cell0 ∧
    ∀ clock, ∃ st cell, run_sperm2 half_tape (frames clock) st0 = Some st ∧
      spermCells (sperm_swarm st) !! 5%nat = Some cell ∧
      coasted cell0 (length clock) cell ∧
      (-24 <= Cell.x cell - Cell.x cell0 <= 24)%R ∧
      (-24 <= Cell.y cell - Cell.y cell0 <= 24)%R.
Proof.
  apply (scattered_cells_coast 900 600 [0; 1; 2]%nat half_tape 5).
  - apply half_tape_fair.
  - discriminate.
  - lia.
Defined.

(** ** The shuffle block is rate limited *)

Lemma shuffle_cases rnd now now' st :
  fair rnd → spermCells st ≠ [] →
  ∃ st', shuffle rnd now now' st = (Returned, st') ∧ spermCells st' ≠ [] ∧
    ((¬ (now - lastShuffle st > shuffleInterval)%R ∧ st' = st) ∨
     ((now - lastShuffle st > shuffleInterval)%R ∧ lastShuffle st' = now' ∧
      calls st' = (calls st + 72)%nat)).
Proof.
  intros Hfair Hne.
  pose proof (shuffle_preserve rnd now now' st) as (Hlen & _).
  unfold shuffle in *. case_decide as Hdue.
  - destruct (swaps_returns rnd swapsPerInterval (calls st) (spermCells st) Hfair Hne)
      as [cells' Hswaps].
    rewrite Hswaps in *. cbn [snd spermCells] in Hlen.
    eexists. split; [reflexivity|]. cbn [spermCells lastShuffle calls]. split.
    + intros Hnil. rewrite Hnil in Hlen. destruct (spermCells st); [done|discriminate].
    + right. split; [done|]. split; [done|]. unfold swapsPerInterval. lia.
  - exists st. split; [done|]. split; [done|]. by left.
Qed.

Lemma shuffles_rate rnd clock : ∀ t0 st,
  fair rnd → spermCells st ≠ [] → (lastShuffle st <= t0)%R → monotone_clock t0 clock →
  ∃ st' m, shuffles rnd clock st = (Returned, st') ∧
    calls st' = (calls st + 72 * m)%nat ∧ (m ≤ length clock)%nat ∧
    (lastShuffle st' <= clock_end t0 clock)%R ∧
    (shuffleInterval * INR m <= lastShuffle st' - lastShuffle st)%R.
Proof.
  induction clock as [|[now now'] clock IH]; intros t0 st Hfair Hne Hlast Hclock.
  - exists st, 0%nat. cbn [shuffles clock_end length INR]. split; [done|].
    split; [lia|]. split; [lia|]. split; [done|]. lra.
  - cbn [monotone_clock] in Hclock. destruct Hclock as [[Ht0 Hnow] Hclock].
    destruct (shuffle_cases rnd now now' st Hfair Hne) as (st1 & Hshuffle & Hne1 & Hcase).
    cbn [shuffles clock_end length]. rewrite Hshuffle.
    destruct Hcase as [[Hnot ->]|(Hdue & Hlast1 & Hcalls1)].
    + destruct (IH now' st Hfair Hne) as (st' & m & Hrun & Hcalls & Hm & Hend & Hrate);
        [lra|done|].
      exists st', m. split; [done|]. split; [done|]. split; [lia|]. done.
    + destruct (IH now' st1 Hfair Hne1) as (st' & m & Hrun & Hcalls & Hm & Hend & Hrate);
        [lra|done|].
      exists st', (S m). split; [done|]. split; [lia|]. split; [lia|]. split; [done|].
      rewrite S_INR. unfold shuffleInterval in *. lra.
Qed.

(** X16: when the clock never goes back, the draws are in [0, 1) and the
    swarm is not empty, the shuffle blocks of any run of frames return, and
    they have swapped images at most once for every 111 milliseconds gone by:
    the block has run its 36 swaps [m] times (the generator was called 72
    times each), with 111 times [m] at most the advance of [lastShuffle],
    which is at most the time from the first [lastShuffle] to the last
    reading of the clock. *)
Theorem shuffle_rate_limited (rnd : tape) (clock : list (R * R)) (t0 : R) (st : swarm) :
  fair rnd → spermCells st ≠ [] → (lastShuffle st <= t0)%R → monotone_clock t0 clock →
  ∃ st' m, shuffles rnd clock st = (Returned, st') ∧
    calls st' = (calls st + 72 * m)%nat ∧ (m ≤ length clock)%nat ∧
    (shuffleInterval * INR m <= lastShuffle st' - lastShuffle st)%R ∧
    (shuffleInterval * INR m <= clock_end t0 clock - lastShuffle st)%R.
Proof.
  intros Hfair Hne Hlast Hclock.
  destruct (shuffles_rate rnd clock t0 st Hfair Hne Hlast Hclock)
    as (st' & m & Hrun & Hcalls & Hm & Hend & Hrate).
  exists st', m. split; [done|]. split; [done|]. split; [done|]. split; [done|]. lra.
Qed.

Lemma shuffle_rate_limited_witness :
  ∃ st' m, shuffles half_tape [(100, 101); (200, 201); (300, 301)]%R
             (Swarm two_cells 0 0) = (Returned, st') ∧
    calls st' = (calls (Swarm two_cells 0 0) + 72 * m)%nat ∧
    (m ≤ length [(100, 101); (200, 201); (300, 301)]%R)%nat ∧
    (shuffleInterval * INR m <= lastShuffle st' - lastShuffle (Swarm two_cells 0 0))%R ∧
    (shuffleInterval * INR m
     <= clock_end 0 [(100, 101); (200, 201); (300, 301)]%R
        - lastShuffle (Swarm two_cells 0 0))%R.
Proof.
  apply (shuffle_rate_limited half_tape [(100, 101); (200, 201); (300, 301)]%R 0
           (Swarm two_cells 0 0)).
  - apply half_tape_fair.
  - discriminate.
  - cbn [lastShuffle]. lra.
  - cbn [monotone_clock]. repeat split; lra.
Defined.

(** ** sperm.js with every key released: the cells return to the grid *)

Section Returning.
Local Open Scope R_scope.

Lemma mesh_axis_energy_step e v :
  mesh_axis_energy (e + (v + - e * 0.04) * 0.88) ((v + - e * 0.04) * 0.88)
  = 0.88 * mesh_axis_energy e v.
Proof. unfold mesh_axis_energy. lra. Qed.

Lemma mesh_axis_energy_bounds e v :
  0 <= mesh_axis_energy e v ∧ e * e <= 31 * mesh_axis_energy e v.
Proof.
  unfold mesh_axis_energy.
  pose proof (Rle_0_sqr (v + 0.0848 / 1.76 * e)) as H1.
  pose proof (Rle_0_sqr e) as H2. unfold Rsqr in *.
  split; lra.
Qed.

(** One frame on one axis: the mesh point, at [u] from rest with velocity
    [w], steps first; the cell, at [e] from that rest position with velocity
    [v], then follows the point where it now is. *)
Lemma joint_axis_step e v u w :
  let w' := (w + - u * 0.04) * 0.88 in
  let u' := u + w' in
  let v' := (v + (u' - e) * 0.01) * 0.96 in
  let e' := e + v' in
  cell_axis_energy e' v' + 2 * mesh_axis_energy u' w'
  <= 0.98 * (cell_axis_energy e v + 2 * mesh_axis_energy u w).
Proof.
  intros w' u' v' e'.
  pose proof (mesh_axis_energy_step u w) as Hm. fold w' in Hm. fold u' in Hm.
  pose proof (mesh_axis_energy_bounds u' w') as [_ Hb].
  rewrite Hm in Hb |- *.
  pose proof (Rle_0_sqr (v + 0.0304 / 1.92 * e - 50 * (0.0096 * u'))) as Hs.
  pose proof (Rle_0_sqr e) as He.
  unfold Rsqr in *. subst e' v'. unfold cell_axis_energy.
  generalize dependent u'. intros u' Hm Hb Hs.
  generalize dependent (mesh_axis_energy u w). intros M _ Hb.
  nra.
Qed.

Lemma loose_energy_nonneg p : 0 <= loose_energy p.
Proof.
  unfold loose_energy.
  pose proof (mesh_axis_energy_bounds (Point.x p - Point.rest_x p) (Point.vx p)).
  pose proof (mesh_axis_energy_bounds (Point.y p - Point.rest_y p) (Point.vy p)).
  lra.
Qed.

Lemma home_energy_nonneg p cell : 0 <= home_energy p cell.
Proof.
  unfold home_energy.
  pose proof (cell_axis_energy_bounds (Cell.x cell - Point.rest_x p) (Cell.vx cell)).
  pose proof (cell_axis_energy_bounds (Cell.y cell - Point.rest_y p) (Cell.vy cell)).
  lra.
Qed.

Lemma joint_energy_nonneg p cell : 0 <= joint_energy p cell.
Proof.
  unfold joint_energy. pose proof (loose_energy_nonneg p).
  pose proof (home_energy_nonneg p cell). lra.
Qed.

Lemma distances_joint_energy p cell :
  home_distance p cell * home_distance p cell <= 110 * joint_energy p cell ∧
  rest_distance p * rest_distance p <= 15.5 * joint_energy p cell.
Proof.
  unfold joint_energy. pose proof (loose_energy_nonneg p) as Hl.
  pose proof (home_energy_nonneg p cell) as Hh. split.
  - assert (home_distance p cell * home_distance p cell <= 110 * home_energy p cell);
      [|lra].
    unfold home_distance, home_energy. rewrite dist_sqr.
    pose proof (cell_axis_energy_bounds (Cell.x cell - Point.rest_x p) (Cell.vx cell)).
    pose proof (cell_axis_energy_bounds (Cell.y cell - Point.rest_y p) (Cell.vy cell)).
    nra.
  - assert (rest_distance p * rest_distance p <= 31 * loose_energy p); [|lra].
    unfold rest_distance, loose_energy. rewrite dist_sqr.
    pose proof (mesh_axis_energy_bounds (Point.x p - Point.rest_x p) (Point.vx p)).
    pose proof (mesh_axis_energy_bounds (Point.y p - Point.rest_y p) (Point.vy p)).
    nra.
Qed.

Lemma follow_anchor_fields (mesh : mesh_t) cell cell' x y p :
  Cell.meshIdx cell = Some (x, y) → at2 mesh y x = Some p →
  follow_anchor mesh cell = Some cell' →
  Cell.meshIdx cell' = Some (x, y) ∧
  Cell.vx cell' = (Cell.vx cell + (Point.x p - Cell.x cell) * 0.01) * 0.96 ∧
  Cell.vy cell' = (Cell.vy cell + (Point.y p - Cell.y cell) * 0.01) * 0.96 ∧
  Cell.x cell' = Cell.x cell + (Cell.vx cell + (Point.x p - Cell.x cell) * 0.01) * 0.96 ∧
  Cell.y cell' = Cell.y cell + (Cell.vy cell + (Point.y p - Cell.y cell) * 0.01) * 0.96.
Proof.
  intros Hanchor Hp. unfold follow_anchor. rewrite Hanchor.
  cbn [mbind option_bind fst snd]. rewrite Hp. cbn [mbind option_bind].
  destruct (Cell.img cell) as [img|]; [|done]. cbn [mbind option_bind].
  intros [= <-]. done.
Qed.

(** One frame, every node inactive: the point steps by its spring, the cell
    follows the point where it now is. *)
Lemma joint_energy_step p cell cell' :
  Cell.vx cell' = (Cell.vx cell + (Point.x (step_point 0.04 [] p) - Cell.x cell) * 0.01) * 0.96 →
  Cell.vy cell' = (Cell.vy cell + (Point.y (step_point 0.04 [] p) - Cell.y cell) * 0.01) * 0.96 →
  Cell.x cell' = Cell.x cell + Cell.vx cell' →
  Cell.y cell' = Cell.y cell + Cell.vy cell' →
  joint_energy (step_point 0.04 [] p) cell' <= 0.98 * joint_energy p cell.
Proof.
  intros Hvx Hvy Hx Hy.
  pose proof (joint_axis_step (Cell.x cell - Point.rest_x p) (Cell.vx cell)
                (Point.x p - Point.rest_x p) (Point.vx p)) as Hax.
  pose proof (joint_axis_step (Cell.y cell - Point.rest_y p) (Cell.vy cell)
                (Point.y p - Point.rest_y p) (Point.vy p)) as Hay.
  cbv zeta in Hax, Hay.
  unfold joint_energy, home_energy, loose_energy.
  rewrite Hx, Hy, Hvx, Hvy. unfold step_point.
  cbn [foldl fst snd Point.x Point.y Point.vx Point.vy Point.rest_x Point.rest_y].
  match goal with
  | |- ?a + ?b + 2 * (?c + ?d) <= _ =>
    assert (Ha : a + 2 * c <= 0.98 * (cell_axis_energy (Cell.x cell - Point.rest_x p) (Cell.vx cell)
                               + 2 * mesh_axis_energy (Point.x p - Point.rest_x p) (Point.vx p)));
    [|assert (Hb : b + 2 * d <= 0.98 * (cell_axis_energy (Cell.y cell - Point.rest_y p) (Cell.vy cell)
                               + 2 * mesh_axis_energy (Point.y p - Point.rest_y p) (Point.vy p)));
      [|lra]]
  end.
  - etrans; [|exact Hax]. apply Req_le. f_equal; [f_equal; lra|]. f_equal. f_equal; lra.
  - etrans; [|exact Hay]. apply Req_le. f_equal; [f_equal; lra|]. f_equal. f_equal; lra.
Qed.
End Returning.

Lemma joint_energy_motion p c1 c2 :
  Cell.motion c1 = Cell.motion c2 →
  Cell.meshIdx c1 = Cell.meshIdx c2 ∧ joint_energy p c1 = joint_energy p c2.
Proof.
  unfold Cell.motion. intros [= Hx Hy Hvx Hvy Hi _ _ _].
  unfold joint_energy, home_energy. by rewrite Hx, Hy, Hvx, Hvy.
Qed.

Lemma rest_positions_at2 (mesh1 mesh2 : mesh_t) y x p1 p2 :
  rest_positions mesh1 = rest_positions mesh2 →
  at2 mesh1 y x = Some p1 → at2 mesh2 y x = Some p2 →
  Point.rest_x p1 = Point.rest_x p2 ∧ Point.rest_y p1 = Point.rest_y p2.
Proof.
  unfold rest_positions, at2. intros Hrest H1 H2.
  apply (f_equal (λ m, m !! y)) in Hrest. rewrite !list_lookup_fmap in Hrest.
  destruct (mesh1 !! y) as [row1|]; [|done]. destruct (mesh2 !! y) as [row2|]; [|done].
  cbn [fmap option_fmap option_map mbind option_bind] in *.
  assert (Hrow : (λ p, (Point.rest_x p, Point.rest_y p)) <$> row1
                 = (λ p, (Point.rest_x p, Point.rest_y p)) <$> row2) by congruence.
  apply (f_equal (λ r, r !! x)) in Hrow. rewrite !list_lookup_fmap, H1, H2 in Hrow.
  cbn [fmap option_fmap option_map] in Hrow. split; congruence.
Qed.

(** Key events and frames keep the rest positions of the mesh. *)
Lemma sperm_handle_rest_positions rnd ev st st' :
  grid_shaped (sperm_mesh_of st) → sperm_handle rnd ev st = Some st' →
  rest_positions (sperm_mesh_of st') = rest_positions (sperm_mesh_of st).
Proof.
  intros Hgrid. destruct ev as [key|key|now now']; cbn [sperm_handle].
  - destruct (keyPressed key (sperm_layout_of st)) as [[] l']; [|done]. by intros [= <-].
  - destruct (keyReleased key (sperm_layout_of st)) as [[] l']; [|done]. by intros [= <-].
  - intros Hdraw.
    destruct (draw_sperm_returned rnd now now' st st' Hgrid Hdraw) as (_ & -> & _).
    apply rest_positions_simultaneous.
Qed.

Section Return.
Local Open Scope R_scope.
Variables (rnd : tape) (cells0 : list Cell.t).
Hypothesis Hfair : fair rnd.
Hypothesis Hne : cells0 ≠ [].
Hypothesis Himg0 : Forall is_Some (Cell.img <$> cells0).
Hypothesis Hanchor0 : Forall on_mesh (Cell.meshIdx <$> cells0).

Lemma run_sperm_rest_positions events : ∀ st st',
  Forall plain_sperm_event events →
  sperm_kept cells0 st → run_sperm rnd events st = Some st' →
  rest_positions (sperm_mesh_of st') = rest_positions (sperm_mesh_of st).
Proof.
  induction events as [|ev events IH]; intros st st' Hplain Hkept; cbn [run_sperm].
  - by intros [= <-].
  - apply Forall_cons in Hplain as [Hplain_ev Hplain].
    destruct (sperm_handle_kept rnd cells0 Hfair Hne Himg0 Hanchor0 ev st Hplain_ev Hkept)
      as (st1 & Hev & Hkept1).
    rewrite Hev. cbn [mbind option_bind]. intros Hrun.
    rewrite (IH st1 st' Hplain Hkept1 Hrun).
    apply (sperm_handle_rest_positions rnd ev st st1); [apply Hkept|done].
Qed.

Variables (l0 : layout) (k x y : nat) (rx ry : R).
Hypothesis Hnone : anyNodeActive (nodes l0) = false.

Lemma draw_sperm_returning now now' E st :
  returning l0 cells0 k x y rx ry E st →
  ∃ st', draw_sperm rnd now now' st = Some st' ∧
    returning l0 cells0 k x y rx ry (0.98 * E) st'.
Proof.
  intros (Hkept & Hl & cell & p & Hk & Hanchor & Hp & Hrx & Hry & HE).
  destruct (sperm_handle_kept rnd cells0 Hfair Hne Himg0 Hanchor0
              (SpermFrame now now') st I Hkept) as (st' & Hdraw & Hkept').
  cbn [sperm_handle] in Hdraw. exists st'. split; [done|].
  destruct (draw_sperm_returned rnd now now' st st') as (Hl' & Hmesh' & cells1 & Hm & Hall);
    [apply Hkept|done|].
  rewrite Hl in Hmesh'.
  split; [done|]. split; [congruence|].
  assert (Hp' : at2 (sperm_mesh_of st') y x = Some (step_point 0.04 [] p)).
  { rewrite Hmesh', at2_simultaneous, Hp. cbn [fmap option_fmap option_map].
    by rewrite step_point_no_active. }
  assert (Hk1 : Cell.motion <$> cells1 !! k = Some (Cell.motion cell)).
  { by rewrite <- list_lookup_fmap, Hm, list_lookup_fmap, Hk. }
  destruct (cells1 !! k) as [c1|] eqn:Hc1; [|done].
  cbn [fmap option_fmap option_map] in Hk1.
  assert (Hmc : Cell.motion c1 = Cell.motion cell) by congruence.
  destruct (joint_energy_motion p c1 cell Hmc) as [Hi1 HE1].
  destruct (Forall2_lookup_l _ _ _ k c1 Hall Hc1) as (cell' & Hk' & Hfollow).
  destruct (follow_anchor_fields (sperm_mesh_of st') c1 cell' x y (step_point 0.04 [] p))
    as (Hi' & Hvx & Hvy & Hx & Hy); [congruence|done|done|].
  exists cell', (step_point 0.04 [] p).
  split; [done|]. split; [done|]. split; [done|].
  split; [done|]. split; [done|].
  etrans; [apply (joint_energy_step p c1 cell')|].
  - exact Hvx.
  - exact Hvy.
  - by rewrite Hx, Hvx.
  - by rewrite Hy, Hvy.
  - rewrite HE1. lra.
Qed.

Lemma run_frames_returning clock : ∀ E st,
  returning l0 cells0 k x y rx ry E st →
  ∃ st', run_sperm rnd (frames clock) st = Some st' ∧
    returning l0 cells0 k x y rx ry (0.98 ^ length clock * E) st'.
Proof.
  induction clock as [|[now now'] clock IH]; intros E st Hst.
  - exists st. split; [done|]. cbn [length pow]. by rewrite Rmult_1_l.
  - destruct (draw_sperm_returning now now' E st Hst) as (st1 & Hdraw & Hst1).
    destruct (IH _ st1 Hst1) as (st' & Hrun & Hst').
    exists st'. split.
    + unfold frames. rewrite fmap_cons. cbn [run_sperm sperm_handle fst snd].
      rewrite Hdraw. exact Hrun.
    + cbn [length pow].
      replace (0.98 * 0.98 ^ length clock * E)%R
        with (0.98 ^ length clock * (0.98 * E))%R by lra.
      exact Hst'.
Qed.
End Return.

(** X17: in [sperm.js], after [setup] and any frames and presses and
    releases of plain keys (keys whose lower-case form is no inherited
    property name), once no node is active (every key has been released)
    the cells return to the grid [setup] made: every further frame returns, and it
    brings the joint energy of a cell and its mesh point (the energy
    [0.0096 e^2 + 0.0304 e v + 0.96 v^2] of the cell about the rest position
    of the point plus twice the energy [0.0352 u^2 + 0.0848 u w + 0.88 w^2]
    of the point, over both axes) down by the factor 0.98 at least; 110 times
    it bounds the squared distance of the cell from that rest position and
    15.5 times it the squared distance of the point from it, so after
    sufficiently many frames the cell and its mesh point are both within any
    epsilon of the place [setup] gave the point. *)
Theorem released_cells_return (width height : R) (assets : list image) (rnd : tape)
    (k : nat) (events : list sperm_event) :
  fair rnd → (k < length assets `min` 280)%nat → Forall plain_sperm_event events →
  ∃ st0 st1 p0 cell1 p1, sperm_start width height assets rnd = Some st0 ∧
    run_sperm rnd events st0 = Some st1 ∧
    at2 (sperm_mesh width height) (k / 20) (k mod 20) = Some p0 ∧
    spermCells (sperm_swarm st1) !! k = Some cell1 ∧
    at2 (sperm_mesh_of st1) (k / 20) (k mod 20) = Some p1 ∧
    Point.rest_x p1 = Point.x p0 ∧ Point.rest_y p1 = Point.y p0 ∧
    (anyNodeActive (nodes (sperm_layout_of st1)) = false →
     (∀ clock, ∃ st cell p, run_sperm rnd (frames clock) st1 = Some st ∧
        spermCells (sperm_swarm st) !! k = Some cell ∧
        at2 (sperm_mesh_of st) (k / 20) (k mod 20) = Some p ∧
        (joint_energy p cell <= 0.98 ^ length clock * joint_energy p1 cell1)%R ∧
        (home_distance p cell * home_distance p cell <= 110 * joint_energy p cell)%R ∧
        (rest_distance p * rest_distance p <= 15.5 * joint_energy p cell)%R) ∧
     (∀ ε, (0 < ε)%R → ∃ N, ∀ clock, (N ≤ length clock)%nat →
        ∃ st cell p, run_sperm rnd (frames clock) st1 = Some st ∧
          spermCells (sperm_swarm st) !! k = Some cell ∧
          at2 (sperm_mesh_of st) (k / 20) (k mod 20) = Some p ∧
          (P5.dist (Cell.x cell) (Cell.y cell) (Point.x p0) (Point.y p0) < ε)%R ∧
          (P5.dist (Point.x p) (Point.y p) (Point.x p0) (Point.y p0) < ε)%R)).
Proof.
  intros Hfair Hk Hplain.
  destruct (sperm_start_idle width height assets rnd k Hk)
    as (a & cell0 & p0 & Hsetup & Hcell0 & Hp0 & Hne & Himg & Hanchor & Hidle).
  destruct Hidle as (Hkept0 & _ & _ & c & x0 & y0 & Hc & Hci & _).
  cbn [sperm_swarm spermCells] in Hc.
  assert (Hcc : c = cell0) by congruence. subst c.
  assert (Hrest0 : Point.rest_x p0 = Point.x p0 ∧ Point.rest_y p0 = Point.y p0).
  { assert (Hin : (k / 20 < rows_)%nat ∧ (k mod 20 < cols)%nat).
    { apply (grid_shaped_at2 (sperm_mesh width height) (k / 20) (k mod 20)
               (setup_mesh_grid_shaped _ _ _ _)). by eexists. }
    unfold sperm_mesh in Hp0. rewrite setup_mesh_at2 in Hp0 by apply Hin.
    injection Hp0 as <-. done. }
  assert (Hi0 : Cell.meshIdx cell0 = Some ((k mod 20)%nat, (k / 20)%nat)).
  { destruct (setup_anchored_cells (sperm_mesh width height) assets rnd
                (setup_mesh_grid_shaped _ _ _ _)) as (a' & Ha' & _ & _ & Hcells).
    assert (a' = a) by congruence. subst a'.
    by destruct (Hcells k cell0 Hcell0) as (_ & _ & Hi & _). }
  unfold sperm_start. rewrite Hsetup. cbn [mbind option_bind].
  destruct (run_sperm_kept rnd (anchored a) Hfair Hne Himg Hanchor events _
              Hplain Hkept0) as (st1 & Hrun & Hkept1).
  pose proof (run_sperm_rest_positions rnd (anchored a) Hfair Hne Himg Hanchor
                events _ st1 Hplain Hkept0 Hrun) as Hrest.
  cbn [sperm_mesh_of] in Hrest.
  destruct Hkept1 as (Hidx1 & Hgrid1 & Hlen1 & Himg1 & Hanchor1).
  assert (Hcell1 : ∃ cell1, spermCells (sperm_swarm st1) !! k = Some cell1 ∧
                     Cell.meshIdx cell1 = Some ((k mod 20)%nat, (k / 20)%nat)).
  { apply (f_equal (λ l, l !! k)) in Hanchor1.
    rewrite !list_lookup_fmap, Hcell0 in Hanchor1.
    destruct (spermCells (sperm_swarm st1) !! k) as [cell1|]; [|done].
    cbn [fmap option_fmap option_map] in Hanchor1. exists cell1. split; [done|].
    congruence. }
  destruct Hcell1 as (cell1 & Hcell1 & Hi1).
  destruct (proj2 (grid_shaped_at2 (sperm_mesh_of st1) (k / 20) (k mod 20) Hgrid1))
    as [p1 Hp1].
  { apply (grid_shaped_at2 (sperm_mesh width height) (k / 20) (k mod 20)
             (setup_mesh_grid_shaped _ _ _ _)). by eexists. }
  destruct (rest_positions_at2 _ _ _ _ p1 p0 Hrest Hp1 Hp0) as [Hrx Hry].
  eexists. exists st1, p0, cell1, p1. split; [reflexivity|].
  split; [exact Hrun|]. split; [exact Hp0|]. split; [exact Hcell1|].
  split; [exact Hp1|]. split; [lra|]. split; [lra|]. intros Hnone.
  assert (Hframes : ∀ clock, ∃ st cell p,
    run_sperm rnd (frames clock) st1 = Some st ∧
    spermCells (sperm_swarm st) !! k = Some cell ∧
    at2 (sperm_mesh_of st) (k / 20) (k mod 20) = Some p ∧
    Point.rest_x p = Point.x p0 ∧ Point.rest_y p = Point.y p0 ∧
    (joint_energy p cell <= 0.98 ^ length clock * joint_energy p1 cell1)%R).
  { intros clock.
    destruct (run_frames_returning rnd (anchored a) Hfair Hne Himg Hanchor
                (sperm_layout_of st1) k (k mod 20)%nat (k / 20)%nat
                (Point.x p0) (Point.y p0) Hnone clock (joint_energy p1 cell1) st1)
      as (st & Hst & _ & _ & cell & p & Hcell & _ & Hp & Hprx & Hpry & HE).
    - split; [done|]. split; [done|]. exists cell1, p1.
      split; [done|]. split; [done|]. split; [done|].
      split; [lra|]. split; [lra|]. lra.
    - exists st, cell, p. done. }
  split.
  - intros clock.
    destruct (Hframes clock) as (st & cell & p & Hst & Hcell & Hp & _ & _ & HE).
    exists st, cell, p. split; [exact Hst|]. split; [exact Hcell|]. split; [exact Hp|].
    split; [exact HE|]. apply distances_joint_energy.
  - intros ε Hε.
    pose proof (joint_energy_nonneg p1 cell1) as HE1.
    destruct (pow_lt_1_zero 0.98) with (y := (ε * ε / (110 * joint_energy p1 cell1 + 1))%R)
      as [N HN].
    + rewrite Rabs_pos_eq; lra.
    + apply Rdiv_lt_0_compat; nra.
    + exists N. intros clock Hlen. specialize (HN (length clock) Hlen).
      destruct (Hframes clock) as (st & cell & p & Hst & Hcell & Hp & Hprx & Hpry & HE).
      exists st, cell, p. split; [exact Hst|]. split; [exact Hcell|]. split; [exact Hp|].
      assert (Hpow : (0 <= 0.98 ^ length clock)%R) by (apply pow_le; lra).
      rewrite Rabs_pos_eq in HN by done.
      assert (Hlt : (0.98 ^ length clock * (110 * joint_energy p1 cell1 + 1) < ε * ε)%R).
      { apply (Rmult_lt_compat_r (110 * joint_energy p1 cell1 + 1)) in HN; [|lra].
        unfold Rdiv in HN. rewrite Rmult_assoc, Rinv_l, Rmult_1_r in HN by lra. done. }
      destruct (distances_joint_energy p cell) as [Hd1 Hd2].
      pose proof (joint_energy_nonneg p cell) as HEn.
      rewrite <- Hprx, <- Hpry.
      fold (home_distance p cell). fold (rest_distance p).
      pose proof (dist_nonneg (Cell.x cell) (Cell.y cell) (Point.rest_x p) (Point.rest_y p))
        as H0.
      fold (home_distance p cell) in H0.
      pose proof (dist_nonneg (Point.x p) (Point.y p) (Point.rest_x p) (Point.rest_y p))
        as H1.
      fold (rest_distance p) in H1.
      split; nra.
Qed.

Lemma released_cells_return_witness :
  Forall plain_sperm_event [SpermKeyDown "q"; SpermFrame 200 201; SpermKeyUp "q"] ∧
  ∃ st0 st1 p0 cell1 p1, sperm_start 900 600 [0; 1; 2]%nat half_tape = Some st0 ∧
    run_sperm half_tape [SpermKeyDown "q"; SpermFrame 200 201; SpermKeyUp "q"] st0
      = Some st1 ∧
    at2 (sperm_mesh 900 600) (1 / 20) (1 mod 20) = Some p0 ∧
    spermCells (sperm_swarm st1) !! 1%nat = Some cell1 ∧
    at2 (sperm_mesh_of st1) (1 / 20) (1 mod 20) = Some p1 ∧
    Point.rest_x p1 = Point.x p0 ∧ Point.rest_y p1 = Point.y p0 ∧
    (anyNodeActive (nodes (sperm_layout_of st1)) = false →
     (∀ clock, ∃ st cell p, run_sperm half_tape (frames clock) st1 = Some st ∧
        spermCells (sperm_swarm st) !! 1%nat = Some cell ∧
        at2 (sperm_mesh_of st) (1 / 20) (1 mod 20) = Some p ∧
        (joint_energy p cell <= 0.98 ^ length clock * joint_energy p1 cell1)%R ∧
        (home_distance p cell * home_distance p cell <= 110 * joint_energy p cell)%R ∧
        (rest_distance p * rest_distance p <= 15.5 * joint_energy p cell)%R) ∧
     (∀ ε, (0 < ε)%R → ∃ N, ∀ clock, (N ≤ length clock)%nat →
        ∃ st cell p, run_sperm half_tape (frames clock) st1 = Some st ∧
          spermCells (sperm_swarm st) !! 1%nat = Some cell ∧
          at2 (sperm_mesh_of st) (1 / 20) (1 mod 20) = Some p ∧
          (P5.dist (Cell.x cell) (Cell.y cell) (Point.x p0) (Point.y p0) < ε)%R ∧
          (P5.dist (Point.x p) (Point.y p) (Point.x p0) (Point.y p0) < ε)%R)).
Proof.
  assert (Hplain : Forall plain_sperm_event
                     [SpermKeyDown "q"; SpermFrame 200 201; SpermKeyUp "q"]).
  { repeat constructor; apply (bool_decide_unpack _); by vm_compute. }
  split; [exact Hplain|].
  apply (released_cells_return 900 600 [0; 1; 2]%nat half_tape 1
           [SpermKeyDown "q"; SpermFrame 200 201; SpermKeyUp "q"]).
  - apply half_tape_fair.
  - cbn [length]. lia.
  - exact Hplain.
Defined.

(** ** The drifting sketch *)

Section PlainProofs.
Variables (mesh : mesh_t) (assets : list image) (rnd : tape).
Hypothesis Hgrid : grid_shaped mesh.

Lemma add_plain_cells_so_far rest : ∀ pre st,
  pre ++ rest = raster → plain_so_far mesh assets rnd (length pre) st →
  ∃ st', add_plain_cells mesh assets rnd rest st = Some st' ∧
    plain_so_far mesh assets rnd (length raster) st'.
Proof.
  induction rest as [|[y x] rest IH]; intros pre st Hsplit (Hidx & Hlen & Hcells);
    cbn [add_plain_cells].
  - exists st. split; [done|]. rewrite <- Hsplit, app_nil_r. done.
  - assert (Hn : raster !! length pre = Some (y, x)).
    { rewrite <- Hsplit. by rewrite lookup_app_r, Nat.sub_diag by lia. }
    assert (Hlt : (length pre < 280)%nat).
    { apply lookup_lt_Some in Hn. by rewrite raster_length in Hn. }
    assert (Hin : (y, x) ∈ raster) by (by eapply list_elem_of_lookup_2).
    rewrite raster_lookup in Hn by done.
    assert (Hy : y = (length pre / 20)%nat) by congruence.
    assert (Hx : x = (length pre mod 20)%nat) by congruence.
    clear Hn.
    assert (Hnext : (pre ++ [(y, x)]) ++ rest = raster) by (by rewrite <- app_assoc).
    assert (Hlen' : length (pre ++ [(y, x)]) = S (length pre))
      by (rewrite length_app; simpl; lia).
    unfold add_plain_cell. case_decide as Hroom.
    + assert (Hidx' : idx st = length pre) by lia.
      destruct (proj2 (grid_shaped_at2 mesh y x Hgrid)) as [p Hp];
        [by apply elem_of_raster|].
      cbn [fst snd]. rewrite Hp. cbn [mbind option_bind].
      apply (IH (pre ++ [(y, x)])); [done|]. rewrite Hlen'.
      unfold plain_so_far. cbn [idx anchored jitters].
      split; [lia|]. split; [rewrite length_app; simpl; lia|].
      intros k cell Hk. apply lookup_snoc_Some in Hk as [[Hklt Hk]|[Hklen <-]].
      * by apply Hcells.
      * cbn [Cell.img Cell.meshIdx Cell.x Cell.y Cell.vx Cell.vy].
        assert (Hk : k = length pre) by lia. clear Hklen. subst k.
        rewrite Hidx', <- Hx, <- Hy.
        split; [done|]. split; [lia|]. split; [done|].
        exists p, (jitters st). done.
    + apply (IH (pre ++ [(y, x)])); [done|]. rewrite Hlen'.
      unfold plain_so_far. split; [lia|]. split; [done|]. done.
Qed.

Lemma setup_plain_cells :
  ∃ st, setup_plain mesh assets rnd = Some st ∧
    plain_so_far mesh assets rnd (length raster) st.
Proof.
  apply (add_plain_cells_so_far raster []); [done|].
  split; [done|]. split; [done|]. intros k cell Hk. cbn [anchored] in Hk.
  by rewrite lookup_nil in Hk.
Qed.
End PlainProofs.

Lemma plain_fields mesh assets rnd st :
  plain_so_far mesh assets rnd (length raster) st →
  length (anchored st) = (length assets `min` 280)%nat ∧
  Cell.img <$> anchored st = Some <$> take 280 assets ∧
  Cell.meshIdx <$> anchored st =
    (λ k, Some ((k mod 20)%nat, (k / 20)%nat)) <$> seq 0 (length assets `min` 280).
Proof.
  intros (Hidx & Hlen & Hcells). rewrite raster_length in Hidx.
  split; [lia|]. split.
  - apply list_eq. intros k. rewrite !list_lookup_fmap.
    destruct (anchored st !! k) as [cell|] eqn:Hk; cbn [fmap option_fmap option_map].
    + destruct (Hcells k cell Hk) as (Himg & Hklt & _).
      apply lookup_lt_Some in Hk. rewrite lookup_take_lt by lia.
      rewrite Himg. destruct (lookup_lt_is_Some_2 assets k Hklt) as [img ->]. done.
    + apply lookup_ge_None in Hk.
      destruct (decide (k < 280)%nat).
      * rewrite lookup_take_lt by lia. rewrite (proj2 (lookup_ge_None assets k)); [done|lia].
      * by rewrite lookup_take_ge by lia.
  - apply list_eq. intros k. rewrite !list_lookup_fmap.
    destruct (anchored st !! k) as [cell|] eqn:Hk; cbn [fmap option_fmap option_map].
    + destruct (Hcells k cell Hk) as (_ & _ & Hanchor & _).
      apply lookup_lt_Some in Hk. rewrite lookup_seq_lt by lia.
      cbn [fmap option_fmap option_map]. by rewrite Hanchor.
    + apply lookup_ge_None in Hk. rewrite lookup_seq_ge by lia. done.
Qed.

Lemma Forall_on_mesh_raster n :
  Forall on_mesh ((λ k, Some ((k mod 20)%nat, (k / 20)%nat)) <$> seq 0 (n `min` 280)).
Proof.
  apply Forall_fmap, Forall_forall. intros j Hj.
  apply elem_of_seq in Hj. exists (j mod 20)%nat, (j / 20)%nat.
  split; [done|]. split.
  - by apply Nat.mod_upper_bound.
  - apply Nat.Div0.div_lt_upper_bound. unfold rows_. lia.
Qed.

Lemma Forall_is_Some_fmap_Some {A} (l : list A) : Forall is_Some (Some <$> l).
Proof. apply Forall_fmap, Forall_true. intros a. by eexists. Qed.

Section DriftRun.
Variable noise : R → R → R.

Lemma drift_anchor_ready (mesh : mesh_t) n cell :
  grid_shaped mesh → is_Some (Cell.img cell) → on_mesh (Cell.meshIdx cell) →
  ∃ cell', drift_anchor noise mesh n cell = Some cell' ∧
    Cell.img cell' = Cell.img cell ∧ Cell.meshIdx cell' = Cell.meshIdx cell.
Proof.
  intros Hgrid [img Himg] (x & y & Hanchor & Hx & Hy). unfold drift_anchor.
  rewrite Hanchor, Himg. cbn [mbind option_bind fst snd].
  destruct (proj2 (grid_shaped_at2 mesh y x Hgrid)) as [p ->]; [done|].
  cbn [mbind option_bind]. eexists. split; [reflexivity|]. done.
Qed.

Lemma drift_anchors_ready (mesh : mesh_t) n cells :
  grid_shaped mesh →
  Forall is_Some (Cell.img <$> cells) → Forall on_mesh (Cell.meshIdx <$> cells) →
  ∃ cells', mapM (drift_anchor noise mesh n) cells = Some cells' ∧
    Cell.img <$> cells' = Cell.img <$> cells ∧
    Cell.meshIdx <$> cells' = Cell.meshIdx <$> cells.
Proof.
  intros Hgrid. induction cells as [|cell cells IH]; intros Himg Hanchor.
  - by exists [].
  - rewrite fmap_cons in Himg. rewrite fmap_cons in Hanchor.
    apply Forall_cons in Himg as [Hi Himg], Hanchor as [Ha Hanchor].
    destruct (drift_anchor_ready mesh n cell Hgrid Hi Ha) as (cell' & Hc & Hci & Hca).
    destruct (IH Himg Hanchor) as (cells' & Hcs & Hcsi & Hcsa).
    exists (cell' :: cells'). cbn [mapM]. rewrite Hc. cbn [mbind option_bind].
    rewrite Hcs. cbn [fmap option_fmap option_map mret option_ret].
    rewrite !fmap_cons, Hci, Hca, Hcsi, Hcsa. done.
Qed.

Variable cells0 : list Cell.t.
Hypothesis Himg0 : Forall is_Some (Cell.img <$> cells0).
Hypothesis Hanchor0 : Forall on_mesh (Cell.meshIdx <$> cells0).

Lemma drift_handle_kept ev st :
  plain_event ev → drift_kept cells0 st →
  ∃ st', drift_handle noise ev st = Some st' ∧ drift_kept cells0 st' ∧
    frameCount st' = (frameCount st + count_frames [ev])%nat.
Proof.
  intros Hplain (Hidx & Hgrid & Himg & Hanchor). destruct ev as [key|key|];
    cbn [drift_handle count_frames].
  - destruct (keyPressed_indexed key (drift_layout st) Hidx Hplain)
      as (l' & -> & Hidx').
    eexists. split; [reflexivity|]. cbn [frameCount]. split; [done|lia].
  - destruct (keyReleased_indexed key (drift_layout st) Hidx Hplain)
      as (l' & -> & Hidx').
    eexists. split; [reflexivity|]. cbn [frameCount]. split; [done|lia].
  - rewrite mesh_physics_simultaneous by done. cbn [mbind option_bind].
    destruct (drift_anchors_ready
                (simultaneous 0.08 (nodes (drift_layout st)) (drift_mesh st))
                (S (frameCount st)) (drift_cells st)) as (cells' & -> & Hci & Hca).
    + by apply simultaneous_grid_shaped.
    + rewrite Himg. exact Himg0.
    + rewrite Hanchor. exact Hanchor0.
    + cbn [mbind option_bind]. eexists. split; [reflexivity|].
      cbn [frameCount]. split; [|lia]. unfold drift_kept.
      cbn [drift_layout drift_mesh drift_cells].
      split; [done|]. split; [by apply simultaneous_grid_shaped|].
      split; congruence.
Qed.

Lemma run_drift_kept events : ∀ st,
  Forall plain_event events → drift_kept cells0 st →
  ∃ st', run_drift noise events st = Some st' ∧ drift_kept cells0 st' ∧
    frameCount st' = (frameCount st + count_frames events)%nat.
Proof.
  induction events as [|ev events IH]; intros st Hplain Hst; cbn [run_drift].
  - exists st. split; [done|]. split; [done|]. cbn [count_frames]. lia.
  - apply Forall_cons in Hplain as [Hev Hplain].
    destruct (drift_handle_kept ev st Hev Hst) as (st1 & -> & Hst1 & Hn1).
    cbn [mbind option_bind].
    destruct (IH st1 Hplain Hst1) as (st' & Hrun & Hst' & Hn').
    exists st'. split; [done|]. split; [done|]. rewrite Hn', Hn1.
    destruct ev; cbn [count_frames]; lia.
Qed.
End DriftRun.

Lemma drift_start_kept assets rnd :
  ∃ a, setup_plain mesh_sketch_mesh assets rnd = Some a ∧
    plain_so_far mesh_sketch_mesh assets rnd (length raster) a ∧
    Forall is_Some (Cell.img <$> anchored a) ∧
    Forall on_mesh (Cell.meshIdx <$> anchored a) ∧
    drift_kept (anchored a) (Drifter mesh_sketch_layout mesh_sketch_mesh (anchored a) 0).
Proof.
  destruct (setup_plain_cells mesh_sketch_mesh assets rnd
              (setup_mesh_grid_shaped _ _ _ _)) as (a & Hsetup & Ha).
  exists a. split; [exact Hsetup|]. split; [exact Ha|].
  destruct (plain_fields _ _ _ _ Ha) as (_ & Himg & Hanchor).
  split; [rewrite Himg; apply Forall_is_Some_fmap_Some|].
  split; [rewrite Hanchor; apply Forall_on_mesh_raster|].
  unfold drift_kept. cbn [drift_layout drift_mesh drift_cells].
  split; [exact (setup_nodes_indexed _ _ _ _)|].
  split; [exact (setup_mesh_grid_shaped _ _ _ _)|].
  split; reflexivity.
Qed.

(** X18: in the drifting sketch, [setup] returns and no sequence of frames
    and of presses and releases of plain keys (keys whose lower-case form is
    no inherited property name) after it throws, whatever the noise
    function, the draws and the asset list.  There is one cell per asset up
    to the 280 mesh points, the cell [k] keeps the asset [k] and stays
    anchored to the mesh point of column [k mod 20] in row [k / 20]; the
    mesh keeps its 14 rows of 20 points and [frameCount] counts the
    frames. *)
Theorem drift_plain_events_return (noise : R → R → R) (assets : list image)
    (rnd : tape) (events : list event) :
  Forall plain_event events →
  ∃ st0 st, drift_start assets rnd = Some st0 ∧
    run_drift noise events st0 = Some st ∧
    length (drift_cells st) = (length assets `min` 280)%nat ∧
    Cell.img <$> drift_cells st = Some <$> take 280 assets ∧
    Cell.meshIdx <$> drift_cells st =
      (λ k, Some ((k mod 20)%nat, (k / 20)%nat)) <$> seq 0 (length assets `min` 280) ∧
    grid_shaped (drift_mesh st) ∧
    frameCount st = count_frames events.
Proof.
  intros Hplain. unfold drift_start.
  destruct (drift_start_kept assets rnd) as (a & -> & Ha & Hsome & Hon & Hkept).
  cbn [mbind option_bind].
  destruct (plain_fields _ _ _ _ Ha) as (Hlen & Himg & Hanchor).
  destruct (run_drift_kept noise (anchored a) Hsome Hon events _ Hplain Hkept)
    as (st & Hrun & (Hidx & Hgrid & Hi & Hm) & Hn).
  eexists. exists st. split; [reflexivity|]. split; [exact Hrun|].
  split.
  { rewrite <- Hlen. by rewrite <- (length_fmap Cell.img), Hi, length_fmap. }
  split; [by rewrite Hi, Himg|]. split; [by rewrite Hm, Hanchor|].
  split; [exact Hgrid|]. exact Hn.
Qed.

Lemma drift_plain_events_return_witness :
  Forall plain_event [KeyDown "Q"; Frame; KeyUp "q"; Frame] ∧
  ∃ st0 st, drift_start [0; 1; 2]%nat half_tape = Some st0 ∧
    run_drift (λ _ _, 1 / 2)%R [KeyDown "Q"; Frame; KeyUp "q"; Frame] st0 = Some st ∧
    length (drift_cells st) = (length [0; 1; 2]%nat `min` 280)%nat ∧
    Cell.img <$> drift_cells st = Some <$> take 280 [0; 1; 2]%nat ∧
    Cell.meshIdx <$> drift_cells st =
      (λ k, Some ((k mod 20)%nat, (k / 20)%nat))
        <$> seq 0 (length [0; 1; 2]%nat `min` 280) ∧
    grid_shaped (drift_mesh st) ∧
    frameCount st = count_frames [KeyDown "Q"; Frame; KeyUp "q"; Frame].
Proof.
  assert (Hplain : Forall plain_event [KeyDown "Q"; Frame; KeyUp "q"; Frame]).
  { repeat constructor; apply (bool_decide_unpack _); by vm_compute. }
  split; [exact Hplain|].
  exact (drift_plain_events_return (λ _ _, 1 / 2)%R [0; 1; 2]%nat half_tape
           [KeyDown "Q"; Frame; KeyUp "q"; Frame] Hplain).
Defined.

Section DriftBound.
Local Open Scope R_scope.

(** One frame on one axis under a drift [f] of at most a quarter. *)
Lemma drift_axis_step e v f :
  -0.25 <= f <= 0.25 →
  cell_axis_energy (e + (v + (- e * 0.01 + f)) * 0.96) ((v + (- e * 0.01 + f)) * 0.96)
  <= 0.98 * cell_axis_energy e v + 2.8224.
Proof.
  intros Hf. unfold cell_axis_energy.
  pose proof (Rle_0_sqr (v + 0.0304 / 1.92 * e - 50 * (0.96 * f))) as Hs.
  pose proof (Rle_0_sqr e) as He.
  assert (Hff : f * f <= 0.0625) by nra.
  unfold Rsqr in *. nra.
Qed.

Lemma cell_axis_energy_near e v :
  cell_axis_energy e v <= 141.12 → -125 <= e <= 125.
Proof.
  intros HE. pose proof (cell_axis_energy_bounds e v) as [_ Hb].
  assert (He : e * e <= 125 * 125) by lra. split; nra.
Qed.

Variable noise : R → R → R.
Hypothesis Hnoise : unit_noise noise.

Lemma drift_anchor_energy (mesh : mesh_t) n cell cell' x y p :
  Cell.meshIdx cell = Some (x, y) → at2 mesh y x = Some p →
  drift_anchor noise mesh n cell = Some cell' →
  cell_axis_energy (Cell.x cell - Point.x p) (Cell.vx cell) <= 141.12 →
  cell_axis_energy (Cell.y cell - Point.y p) (Cell.vy cell) <= 141.12 →
  Cell.meshIdx cell' = Some (x, y) ∧
  cell_axis_energy (Cell.x cell' - Point.x p) (Cell.vx cell') <= 141.12 ∧
  cell_axis_energy (Cell.y cell' - Point.y p) (Cell.vy cell') <= 141.12.
Proof.
  intros Hanchor Hp. unfold drift_anchor. rewrite Hanchor.
  cbn [mbind option_bind fst snd]. rewrite Hp. cbn [mbind option_bind].
  destruct (Cell.img cell) as [img|]; [|done]. cbn [mbind option_bind].
  intros [= <-] Hx Hy. split; [done|].
  cbn [Cell.x Cell.y Cell.vx Cell.vy].
  pose proof (Hnoise (Cell.x cell * 0.01) (INR n * 0.01)) as Hnx.
  pose proof (Hnoise (Cell.y cell * 0.01) (INR n * 0.01)) as Hny.
  pose proof (drift_axis_step (Cell.x cell - Point.x p) (Cell.vx cell)
                ((noise (Cell.x cell * 0.01) (INR n * 0.01) - 0.5) * 0.5)) as Hsx.
  pose proof (drift_axis_step (Cell.y cell - Point.y p) (Cell.vy cell)
                ((noise (Cell.y cell * 0.01) (INR n * 0.01) - 0.5) * 0.5)) as Hsy.
  split.
  - etrans; [|etrans; [apply Hsx; lra|lra]].
    apply Req_le. f_equal; lra.
  - etrans; [|etrans; [apply Hsy; lra|lra]].
    apply Req_le. f_equal; lra.
Qed.

Variables (l0 : layout) (mesh0 : mesh_t) (cells0 : list Cell.t).
Variables (k : nat) (p : Point.t).
Hypothesis Hnone : anyNodeActive (nodes l0) = false.
Hypothesis Hrest : Forall (Forall at_rest) mesh0.
Hypothesis Himg0 : Forall is_Some (Cell.img <$> cells0).
Hypothesis Hanchor0 : Forall on_mesh (Cell.meshIdx <$> cells0).

Lemma frame_drifting st :
  drifting l0 mesh0 cells0 k p st →
  ∃ st', drift_handle noise Frame st = Some st' ∧ drifting l0 mesh0 cells0 k p st'.
Proof.
  intros (Hkept & Hl & Hmesh & cell & x & y & Hk & Hanchor & Hp & Hx & Hy).
  destruct (drift_handle_kept noise cells0 Himg0 Hanchor0 Frame st I Hkept)
    as (st' & Hdraw & Hkept' & _).
  exists st'. split; [done|].
  cbn [drift_handle] in Hdraw.
  rewrite mesh_physics_simultaneous in Hdraw by apply Hkept.
  cbn [mbind option_bind] in Hdraw.
  rewrite Hl, Hmesh, simultaneous_at_rest in Hdraw by done.
  destruct (mapM _ (drift_cells st)) as [cells'|] eqn:Hcells; [|done].
  cbn [mbind option_bind] in Hdraw. injection Hdraw as <-.
  apply mapM_Some in Hcells.
  destruct (Forall2_lookup_l _ _ _ k cell Hcells Hk) as (cell' & Hk' & Hfollow).
  destruct (drift_anchor_energy mesh0 (S (frameCount st)) cell cell' x y p)
    as (Hi' & Hx' & Hy'); [done..|].
  split; [done|]. split; [done|]. split; [done|].
  exists cell', x, y. done.
Qed.

Lemma frames_drifting n : ∀ st,
  drifting l0 mesh0 cells0 k p st →
  ∃ st', run_drift noise (replicate n Frame) st = Some st' ∧
    drifting l0 mesh0 cells0 k p st'.
Proof.
  induction n as [|n IH]; intros st Hst; cbn [replicate run_drift]; [eauto|].
  destruct (frame_drifting st Hst) as (st1 & -> & Hst1).
  cbn [mbind option_bind]. by apply IH.
Qed.
End DriftBound.

(** X19: in the drifting sketch after [setup], with draws in [0, 1) and a
    noise function that stays in [0, 1], as long as no key is pressed every
    frame returns, the mesh stays as [setup] made it, and the Perlin drift
    never carries a cell further than 125 from its mesh point along either
    axis: the energy [0.0096 e^2 + 0.0304 e v + 0.96 v^2] of the cell about
    its point stays at most 141.12 on each axis. *)
Theorem drift_stays_near (noise : R → R → R) (assets : list image) (rnd : tape)
    (k n : nat) :
  unit_noise noise → fair rnd → (k < length assets `min` 280)%nat →
  ∃ st0 p st cell, drift_start assets rnd = Some st0 ∧
    at2 mesh_sketch_mesh (k / 20) (k mod 20) = Some p ∧
    run_drift noise (replicate n Frame) st0 = Some st ∧
    drift_mesh st = mesh_sketch_mesh ∧
    drift_cells st !! k = Some cell ∧
    (cell_axis_energy (Cell.x cell - Point.x p) (Cell.vx cell) <= 141.12)%R ∧
    (cell_axis_energy (Cell.y cell - Point.y p) (Cell.vy cell) <= 141.12)%R ∧
    (-125 <= Cell.x cell - Point.x p <= 125)%R ∧
    (-125 <= Cell.y cell - Point.y p <= 125)%R.
Proof.
  intros Hnoise Hfair Hk. unfold drift_start.
  destruct (drift_start_kept assets rnd) as (a & Hsetup & Ha & Hsome & Hon & Hkept).
  rewrite Hsetup. cbn [mbind option_bind].
  destruct (plain_fields _ _ _ _ Ha) as (Hlen & _ & _).
  destruct (lookup_lt_is_Some_2 (anchored a) k) as [cell0 Hcell0]; [lia|].
  destruct Ha as (_ & _ & Hcells).
  destruct (Hcells k cell0 Hcell0) as (_ & _ & Hi & p & j & Hp & Hx & Hy & Hvx & Hvy).
  pose proof (random2_below (rnd j) (-1) 1 (Hfair j)) as Hbx.
  pose proof (random2_below (rnd (j + 1)%nat) (-1) 1 (Hfair (j + 1)%nat)) as Hby.
  destruct (frames_drifting noise Hnoise mesh_sketch_layout mesh_sketch_mesh (anchored a)
              k p (setup_nodes_none_active _ _ _ _) (setup_mesh_at_rest _ _ _ _)
              Hsome Hon n (Drifter mesh_sketch_layout mesh_sketch_mesh (anchored a) 0))
    as (st & Hrun & _ & _ & Hmesh & cell & x & y & Hcell & _ & _ & HEx & HEy).
  - split; [exact Hkept|]. split; [reflexivity|]. split; [reflexivity|].
    exists cell0, (k mod 20)%nat, (k / 20)%nat. cbn [drift_cells].
    split; [exact Hcell0|]. split; [exact Hi|]. split; [exact Hp|].
    rewrite Hx, Hy, Hvx, Hvy. unfold cell_axis_energy. split; nra.
  - eexists. exists p, st, cell. split; [reflexivity|]. split; [exact Hp|].
    split; [exact Hrun|]. split; [exact Hmesh|]. split; [exact Hcell|].
    split; [exact HEx|]. split; [exact HEy|].
    split; [by apply (cell_axis_energy_near _ (Cell.vx cell))
           |by apply (cell_axis_energy_near _ (Cell.vy cell))].
Qed.

Lemma drift_stays_near_witness :
  ∃ st0 p st cell, drift_start [0; 1; 2]%nat half_tape = Some st0 ∧
    at2 mesh_sketch_mesh (1 / 20) (1 mod 20) = Some p ∧
    run_drift (λ _ _, 1 / 2)%R (replicate 3 Frame) st0 = Some st ∧
    drift_mesh st = mesh_sketch_mesh ∧
    drift_cells st !! 1%nat = Some cell ∧
    (cell_axis_energy (Cell.x cell - Point.x p) (Cell.vx cell) <= 141.12)%R ∧
    (cell_axis_energy (Cell.y cell - Point.y p) (Cell.vy cell) <= 141.12)%R ∧
    (-125 <= Cell.x cell - Point.x p <= 125)%R ∧
    (-125 <= Cell.y cell - Point.y p <= 125)%R.
Proof.
  apply (drift_stays_near (λ _ _, 1 / 2)%R [0; 1; 2]%nat half_tape 1 3).
  - intros a b. lra.
  - apply half_tape_fair.
  - cbn [length]. lia.
Defined.
